(** * Stack Void: the placement state machine and the rubble pool

    A shallow embedding of the gameplay kernel of the repository:
    [game.js] (spawnNewBlock, spawnRubble, placeBlock, continueGame,
    gameOver, startGame, backToMenu, resumeGame, pauseGame, cleanup),
    [state.js] (the state literal, resetGameState), [powerups.js],
    the pool set-up of [graphics-vr.js] (initEngine, createFoundation),
    the per-frame updates and input handlers of [main-vr.js], the
    screen dispatch of [ui.js], the settings and records that
    [storage.js] keeps in localStorage, reconcileThemeUnlock of
    [utils.js], and the interstitial counter and the rewarded video of
    [admob.js].

    Conventions of the model.
    - A JavaScript number is an exact rational ([Q]); counters that the
      code only ever increments, decrements or resets are integers ([Z]).
      Rounding of binary floating point is outside the model.
    - [performance.now()], the frame timestamp and every [Math.random()]
      draw are explicit inputs of the function that reads them.
    - A [THREE.Mesh] is a record of its position, its box parameters and
      its [userData]; materials, colours, sounds, particles, the camera
      and the frame-rate monitor are presentation and are not part of
      the state.
    - The module globals [scene] and [rubbleInstances] of the graphics
      module are either [null] or an object; only that bit is kept.
    - A [TypeError] raised by dereferencing [undefined] or [null] ends
      the running handler and leaves the state as mutated so far.
    - [localStorage] is a value passed to and returned by the functions
      that use it: a finite map from keys to strings, with two flags
      for the ways in which its methods throw. *)

From Stdlib Require Import String Ascii.
From Stdlib Require Import DecimalString DecimalZ DecimalPos.
From Stdlib Require Import ZArith QArith Qabs Qminmax Qround Lqa Lia.
From stdpp Require Import base list gmap strings.

Open Scope Q_scope.

(** ** Numbers *)

Definition Qltb (a b : Q) : bool := negb (Qle_bool b a).

(** [a || b] on numbers: [0] is falsy. *)
Definition js_or (a b : Q) : Q := if Qeq_bool a 0 then b else a.

(** [Math.sign]. *)
Definition sign (x : Q) : Q :=
  if Qltb 0 x then 1 else if Qltb x 0 then -1 else 0.

(** ** config.js *)

Inductive Difficulty : Type := easy | medium | hard.

Record DiffConfig : Type := mkDiffConfig {
  initial : Q;
  inc : Q;
  max : Q;
  mercy : nat;
  threshold : Q
}.

Definition DIFFICULTIES (d : Difficulty) : DiffConfig :=
  match d with
  | easy => mkDiffConfig 0.12 0.003 0.35 8 0.45
  | medium => mkDiffConfig 0.18 0.006 0.50 5 0.35
  | hard => mkDiffConfig 0.25 0.012 0.70 2 0.20
  end.

Module CONFIG.
Definition BLOCK_HEIGHT : Q := 1.
Definition INITIAL_SIZE : Q := 4.
Definition MAX_RUBBLE : nat := 80.
Definition INPUT_COOLDOWN : Q := 150.
Definition SHAKE_GAMEOVER_DURATION : Q := 0.35.
Definition SHAKE_GAMEOVER_AMP : Q := 0.9.
Definition SHAKE_PERFECT_DURATION : Q := 0.08.
Definition SHAKE_PERFECT_AMP : Q := 0.18.
End CONFIG.

(** ** The data model (state.js and the objects it holds) *)

Inductive Status : Type := LOADING | START | PLAYING | PAUSED | GAMEOVER.

Inductive Axis : Type := AxisX | AxisZ.

(** [axis === 'x' ? 'z' : 'x'] *)
Definition otherAxis (a : Axis) : Axis :=
  match a with AxisX => AxisZ | AxisZ => AxisX end.

Record Vector3 : Type := mkVector3 { vx : Q; vy : Q; vz : Q }.

(** [v[axis]] and [v[axis] = q] for a horizontal axis. *)
Definition vget (a : Axis) (v : Vector3) : Q :=
  match a with AxisX => vx v | AxisZ => vz v end.

Definition vset (a : Axis) (q : Q) (v : Vector3) : Vector3 :=
  match a with
  | AxisX => mkVector3 q (vy v) (vz v)
  | AxisZ => mkVector3 (vx v) (vy v) q
  end.

(** A block mesh: [position], [geometry.parameters] and [userData]. *)
Record Block : Type := mkBlock {
  position : Vector3;
  width : Q;
  height : Q;
  depth : Q;
  baseWidth : Q;
  baseDepth : Q
}.

(** [b.position[a] = q] *)
Definition setPositionOn (a : Axis) (q : Q) (b : Block) : Block :=
  mkBlock (vset a q (position b)) (width b) (height b) (depth b)
    (baseWidth b) (baseDepth b).

(** The extent of a box along the motion axis and across it. *)
Definition sizeOn (a : Axis) (b : Block) : Q :=
  match a with AxisX => width b | AxisZ => depth b end.

Definition otherOn (a : Axis) (b : Block) : Q :=
  match a with AxisX => depth b | AxisZ => width b end.

Module Kind.
(** The power-up kinds, the strings of [powerUpTypes]. *)
Inductive t : Type := slowMo | safetyNet | superSize | resetSize.
End Kind.

Record SlowMo : Type := mkSlowMo { slowMo_active : bool; duration : Q }.
Record SafetyNet : Type := mkSafetyNet { safetyNet_active : bool; uses : Z }.
Record SuperSize : Type := mkSuperSize { superSize_active : bool; count : Z }.

Record ActivePowerUps : Type := mkActivePowerUps {
  slowMo : SlowMo;
  safetyNet : SafetyNet;
  superSize : SuperSize
}.

Definition noActivePowerUps : ActivePowerUps :=
  mkActivePowerUps (mkSlowMo false 0) (mkSafetyNet false 0)
    (mkSuperSize false 0).

Record RubbleSlot : Type := mkRubbleSlot {
  isActive : bool;
  rposition : Vector3;
  rotation : Vector3;
  scale : Vector3;
  velocity : Vector3;
  angularVelocity : Vector3
}.

(** What [uiManager.render] last put under [#ui-root]: one screen per
    status; on the start screen whether the resume button was rendered
    ([stack.length > 1]), on the game-over screen whether the continue
    button was ([canContinue]). *)
Inductive Screen : Type :=
  | ScreenBlank
  | ScreenStart (canResume : bool)
  | ScreenHUD
  | ScreenGameOver (canContinue : bool)
  | ScreenPaused.

(** The [state] object of state.js, with the two expando properties that
    game.js adds ([continueUsed], [continuePending]), and two pieces of
    module-level state that the handlers of main-vr.js and ui.js keep
    outside it: the per-controller cooldown array and the rendered
    screen. *)
Record GameState : Type := mkGameState {
  status : Status;
  score : Z;
  bestScore : Z;
  bestStreak : Z;
  combo : Z;
  maxSessionCombo : Z;
  difficulty : Difficulty;
  powerUps : list (option Kind.t);
  activePowerUps : ActivePowerUps;
  lastComboMilestone : Z;
  continuesUsed : Z;
  continueUsed : option bool;
  continuePending : option bool;
  axis : Axis;
  direction : Q;
  speed : Q;
  stack : list Block;
  activeBlock : option Block;
  lastTime : Q;
  lastInputTime : Q;
  lastSpawnTime : Q;
  flash : Q;
  shakeTime : Q;
  shakeDuration : Q;
  shakeAmp : Q;
  rubbleData : list RubbleSlot;
  rubbleFree : list nat;
  rubbleActive : list nat;
  controllerInputCooldown : Q * Q;
  ui : Screen
}.


(** Field assignments, one per property. *)
Definition set_status (v : Status) (s : GameState) : GameState :=
  mkGameState v (score s) (bestScore s) (bestStreak s) (combo s)
    (maxSessionCombo s) (difficulty s) (powerUps s) (activePowerUps s)
    (lastComboMilestone s) (continuesUsed s) (continueUsed s)
    (continuePending s) (axis s) (direction s) (speed s) (stack s)
    (activeBlock s) (lastTime s) (lastInputTime s) (lastSpawnTime s) (flash s)
    (shakeTime s) (shakeDuration s) (shakeAmp s) (rubbleData s) (rubbleFree s)
    (rubbleActive s) (controllerInputCooldown s) (ui s).

Definition set_score (v : Z) (s : GameState) : GameState :=
  mkGameState (status s) v (bestScore s) (bestStreak s) (combo s)
    (maxSessionCombo s) (difficulty s) (powerUps s) (activePowerUps s)
    (lastComboMilestone s) (continuesUsed s) (continueUsed s)
    (continuePending s) (axis s) (direction s) (speed s) (stack s)
    (activeBlock s) (lastTime s) (lastInputTime s) (lastSpawnTime s) (flash s)
    (shakeTime s) (shakeDuration s) (shakeAmp s) (rubbleData s) (rubbleFree s)
    (rubbleActive s) (controllerInputCooldown s) (ui s).

Definition set_bestScore (v : Z) (s : GameState) : GameState :=
  mkGameState (status s) (score s) v (bestStreak s) (combo s)
    (maxSessionCombo s) (difficulty s) (powerUps s) (activePowerUps s)
    (lastComboMilestone s) (continuesUsed s) (continueUsed s)
    (continuePending s) (axis s) (direction s) (speed s) (stack s)
    (activeBlock s) (lastTime s) (lastInputTime s) (lastSpawnTime s) (flash s)
    (shakeTime s) (shakeDuration s) (shakeAmp s) (rubbleData s) (rubbleFree s)
    (rubbleActive s) (controllerInputCooldown s) (ui s).

Definition set_bestStreak (v : Z) (s : GameState) : GameState :=
  mkGameState (status s) (score s) (bestScore s) v (combo s)
    (maxSessionCombo s) (difficulty s) (powerUps s) (activePowerUps s)
    (lastComboMilestone s) (continuesUsed s) (continueUsed s)
    (continuePending s) (axis s) (direction s) (speed s) (stack s)
    (activeBlock s) (lastTime s) (lastInputTime s) (lastSpawnTime s) (flash s)
    (shakeTime s) (shakeDuration s) (shakeAmp s) (rubbleData s) (rubbleFree s)
    (rubbleActive s) (controllerInputCooldown s) (ui s).

Definition set_combo (v : Z) (s : GameState) : GameState :=
  mkGameState (status s) (score s) (bestScore s) (bestStreak s) v
    (maxSessionCombo s) (difficulty s) (powerUps s) (activePowerUps s)
    (lastComboMilestone s) (continuesUsed s) (continueUsed s)
    (continuePending s) (axis s) (direction s) (speed s) (stack s)
    (activeBlock s) (lastTime s) (lastInputTime s) (lastSpawnTime s) (flash s)
    (shakeTime s) (shakeDuration s) (shakeAmp s) (rubbleData s) (rubbleFree s)
    (rubbleActive s) (controllerInputCooldown s) (ui s).

Definition set_maxSessionCombo (v : Z) (s : GameState) : GameState :=
  mkGameState (status s) (score s) (bestScore s) (bestStreak s) (combo s) v
    (difficulty s) (powerUps s) (activePowerUps s) (lastComboMilestone s)
    (continuesUsed s) (continueUsed s) (continuePending s) (axis s)
    (direction s) (speed s) (stack s) (activeBlock s) (lastTime s)
    (lastInputTime s) (lastSpawnTime s) (flash s) (shakeTime s)
    (shakeDuration s) (shakeAmp s) (rubbleData s) (rubbleFree s)
    (rubbleActive s) (controllerInputCooldown s) (ui s).

Definition set_difficulty (v : Difficulty) (s : GameState) : GameState :=
  mkGameState (status s) (score s) (bestScore s) (bestStreak s) (combo s)
    (maxSessionCombo s) v (powerUps s) (activePowerUps s)
    (lastComboMilestone s) (continuesUsed s) (continueUsed s)
    (continuePending s) (axis s) (direction s) (speed s) (stack s)
    (activeBlock s) (lastTime s) (lastInputTime s) (lastSpawnTime s) (flash s)
    (shakeTime s) (shakeDuration s) (shakeAmp s) (rubbleData s) (rubbleFree s)
    (rubbleActive s) (controllerInputCooldown s) (ui s).

Definition set_powerUps (v : list (option Kind.t)) (s : GameState) : GameState :=
  mkGameState (status s) (score s) (bestScore s) (bestStreak s) (combo s)
    (maxSessionCombo s) (difficulty s) v (activePowerUps s)
    (lastComboMilestone s) (continuesUsed s) (continueUsed s)
    (continuePending s) (axis s) (direction s) (speed s) (stack s)
    (activeBlock s) (lastTime s) (lastInputTime s) (lastSpawnTime s) (flash s)
    (shakeTime s) (shakeDuration s) (shakeAmp s) (rubbleData s) (rubbleFree s)
    (rubbleActive s) (controllerInputCooldown s) (ui s).

Definition set_activePowerUps (v : ActivePowerUps) (s : GameState) : GameState :=
  mkGameState (status s) (score s) (bestScore s) (bestStreak s) (combo s)
    (maxSessionCombo s) (difficulty s) (powerUps s) v (lastComboMilestone s)
    (continuesUsed s) (continueUsed s) (continuePending s) (axis s)
    (direction s) (speed s) (stack s) (activeBlock s) (lastTime s)
    (lastInputTime s) (lastSpawnTime s) (flash s) (shakeTime s)
    (shakeDuration s) (shakeAmp s) (rubbleData s) (rubbleFree s)
    (rubbleActive s) (controllerInputCooldown s) (ui s).

Definition set_lastComboMilestone (v : Z) (s : GameState) : GameState :=
  mkGameState (status s) (score s) (bestScore s) (bestStreak s) (combo s)
    (maxSessionCombo s) (difficulty s) (powerUps s) (activePowerUps s) v
    (continuesUsed s) (continueUsed s) (continuePending s) (axis s)
    (direction s) (speed s) (stack s) (activeBlock s) (lastTime s)
    (lastInputTime s) (lastSpawnTime s) (flash s) (shakeTime s)
    (shakeDuration s) (shakeAmp s) (rubbleData s) (rubbleFree s)
    (rubbleActive s) (controllerInputCooldown s) (ui s).

Definition set_continuesUsed (v : Z) (s : GameState) : GameState :=
  mkGameState (status s) (score s) (bestScore s) (bestStreak s) (combo s)
    (maxSessionCombo s) (difficulty s) (powerUps s) (activePowerUps s)
    (lastComboMilestone s) v (continueUsed s) (continuePending s) (axis s)
    (direction s) (speed s) (stack s) (activeBlock s) (lastTime s)
    (lastInputTime s) (lastSpawnTime s) (flash s) (shakeTime s)
    (shakeDuration s) (shakeAmp s) (rubbleData s) (rubbleFree s)
    (rubbleActive s) (controllerInputCooldown s) (ui s).

Definition set_continueUsed (v : option bool) (s : GameState) : GameState :=
  mkGameState (status s) (score s) (bestScore s) (bestStreak s) (combo s)
    (maxSessionCombo s) (difficulty s) (powerUps s) (activePowerUps s)
    (lastComboMilestone s) (continuesUsed s) v (continuePending s) (axis s)
    (direction s) (speed s) (stack s) (activeBlock s) (lastTime s)
    (lastInputTime s) (lastSpawnTime s) (flash s) (shakeTime s)
    (shakeDuration s) (shakeAmp s) (rubbleData s) (rubbleFree s)
    (rubbleActive s) (controllerInputCooldown s) (ui s).

Definition set_continuePending (v : option bool) (s : GameState) : GameState :=
  mkGameState (status s) (score s) (bestScore s) (bestStreak s) (combo s)
    (maxSessionCombo s) (difficulty s) (powerUps s) (activePowerUps s)
    (lastComboMilestone s) (continuesUsed s) (continueUsed s) v (axis s)
    (direction s) (speed s) (stack s) (activeBlock s) (lastTime s)
    (lastInputTime s) (lastSpawnTime s) (flash s) (shakeTime s)
    (shakeDuration s) (shakeAmp s) (rubbleData s) (rubbleFree s)
    (rubbleActive s) (controllerInputCooldown s) (ui s).

Definition set_axis (v : Axis) (s : GameState) : GameState :=
  mkGameState (status s) (score s) (bestScore s) (bestStreak s) (combo s)
    (maxSessionCombo s) (difficulty s) (powerUps s) (activePowerUps s)
    (lastComboMilestone s) (continuesUsed s) (continueUsed s)
    (continuePending s) v (direction s) (speed s) (stack s) (activeBlock s)
    (lastTime s) (lastInputTime s) (lastSpawnTime s) (flash s) (shakeTime s)
    (shakeDuration s) (shakeAmp s) (rubbleData s) (rubbleFree s)
    (rubbleActive s) (controllerInputCooldown s) (ui s).

Definition set_direction (v : Q) (s : GameState) : GameState :=
  mkGameState (status s) (score s) (bestScore s) (bestStreak s) (combo s)
    (maxSessionCombo s) (difficulty s) (powerUps s) (activePowerUps s)
    (lastComboMilestone s) (continuesUsed s) (continueUsed s)
    (continuePending s) (axis s) v (speed s) (stack s) (activeBlock s)
    (lastTime s) (lastInputTime s) (lastSpawnTime s) (flash s) (shakeTime s)
    (shakeDuration s) (shakeAmp s) (rubbleData s) (rubbleFree s)
    (rubbleActive s) (controllerInputCooldown s) (ui s).

Definition set_speed (v : Q) (s : GameState) : GameState :=
  mkGameState (status s) (score s) (bestScore s) (bestStreak s) (combo s)
    (maxSessionCombo s) (difficulty s) (powerUps s) (activePowerUps s)
    (lastComboMilestone s) (continuesUsed s) (continueUsed s)
    (continuePending s) (axis s) (direction s) v (stack s) (activeBlock s)
    (lastTime s) (lastInputTime s) (lastSpawnTime s) (flash s) (shakeTime s)
    (shakeDuration s) (shakeAmp s) (rubbleData s) (rubbleFree s)
    (rubbleActive s) (controllerInputCooldown s) (ui s).

Definition set_stack (v : list Block) (s : GameState) : GameState :=
  mkGameState (status s) (score s) (bestScore s) (bestStreak s) (combo s)
    (maxSessionCombo s) (difficulty s) (powerUps s) (activePowerUps s)
    (lastComboMilestone s) (continuesUsed s) (continueUsed s)
    (continuePending s) (axis s) (direction s) (speed s) v (activeBlock s)
    (lastTime s) (lastInputTime s) (lastSpawnTime s) (flash s) (shakeTime s)
    (shakeDuration s) (shakeAmp s) (rubbleData s) (rubbleFree s)
    (rubbleActive s) (controllerInputCooldown s) (ui s).

Definition set_activeBlock (v : option Block) (s : GameState) : GameState :=
  mkGameState (status s) (score s) (bestScore s) (bestStreak s) (combo s)
    (maxSessionCombo s) (difficulty s) (powerUps s) (activePowerUps s)
    (lastComboMilestone s) (continuesUsed s) (continueUsed s)
    (continuePending s) (axis s) (direction s) (speed s) (stack s) v
    (lastTime s) (lastInputTime s) (lastSpawnTime s) (flash s) (shakeTime s)
    (shakeDuration s) (shakeAmp s) (rubbleData s) (rubbleFree s)
    (rubbleActive s) (controllerInputCooldown s) (ui s).

Definition set_lastTime (v : Q) (s : GameState) : GameState :=
  mkGameState (status s) (score s) (bestScore s) (bestStreak s) (combo s)
    (maxSessionCombo s) (difficulty s) (powerUps s) (activePowerUps s)
    (lastComboMilestone s) (continuesUsed s) (continueUsed s)
    (continuePending s) (axis s) (direction s) (speed s) (stack s)
    (activeBlock s) v (lastInputTime s) (lastSpawnTime s) (flash s)
    (shakeTime s) (shakeDuration s) (shakeAmp s) (rubbleData s) (rubbleFree s)
    (rubbleActive s) (controllerInputCooldown s) (ui s).

Definition set_lastInputTime (v : Q) (s : GameState) : GameState :=
  mkGameState (status s) (score s) (bestScore s) (bestStreak s) (combo s)
    (maxSessionCombo s) (difficulty s) (powerUps s) (activePowerUps s)
    (lastComboMilestone s) (continuesUsed s) (continueUsed s)
    (continuePending s) (axis s) (direction s) (speed s) (stack s)
    (activeBlock s) (lastTime s) v (lastSpawnTime s) (flash s) (shakeTime s)
    (shakeDuration s) (shakeAmp s) (rubbleData s) (rubbleFree s)
    (rubbleActive s) (controllerInputCooldown s) (ui s).

Definition set_lastSpawnTime (v : Q) (s : GameState) : GameState :=
  mkGameState (status s) (score s) (bestScore s) (bestStreak s) (combo s)
    (maxSessionCombo s) (difficulty s) (powerUps s) (activePowerUps s)
    (lastComboMilestone s) (continuesUsed s) (continueUsed s)
    (continuePending s) (axis s) (direction s) (speed s) (stack s)
    (activeBlock s) (lastTime s) (lastInputTime s) v (flash s) (shakeTime s)
    (shakeDuration s) (shakeAmp s) (rubbleData s) (rubbleFree s)
    (rubbleActive s) (controllerInputCooldown s) (ui s).

Definition set_flash (v : Q) (s : GameState) : GameState :=
  mkGameState (status s) (score s) (bestScore s) (bestStreak s) (combo s)
    (maxSessionCombo s) (difficulty s) (powerUps s) (activePowerUps s)
    (lastComboMilestone s) (continuesUsed s) (continueUsed s)
    (continuePending s) (axis s) (direction s) (speed s) (stack s)
    (activeBlock s) (lastTime s) (lastInputTime s) (lastSpawnTime s) v
    (shakeTime s) (shakeDuration s) (shakeAmp s) (rubbleData s) (rubbleFree s)
    (rubbleActive s) (controllerInputCooldown s) (ui s).

Definition set_shakeTime (v : Q) (s : GameState) : GameState :=
  mkGameState (status s) (score s) (bestScore s) (bestStreak s) (combo s)
    (maxSessionCombo s) (difficulty s) (powerUps s) (activePowerUps s)
    (lastComboMilestone s) (continuesUsed s) (continueUsed s)
    (continuePending s) (axis s) (direction s) (speed s) (stack s)
    (activeBlock s) (lastTime s) (lastInputTime s) (lastSpawnTime s) (flash s)
    v (shakeDuration s) (shakeAmp s) (rubbleData s) (rubbleFree s)
    (rubbleActive s) (controllerInputCooldown s) (ui s).

Definition set_shakeDuration (v : Q) (s : GameState) : GameState :=
  mkGameState (status s) (score s) (bestScore s) (bestStreak s) (combo s)
    (maxSessionCombo s) (difficulty s) (powerUps s) (activePowerUps s)
    (lastComboMilestone s) (continuesUsed s) (continueUsed s)
    (continuePending s) (axis s) (direction s) (speed s) (stack s)
    (activeBlock s) (lastTime s) (lastInputTime s) (lastSpawnTime s) (flash s)
    (shakeTime s) v (shakeAmp s) (rubbleData s) (rubbleFree s)
    (rubbleActive s) (controllerInputCooldown s) (ui s).

Definition set_shakeAmp (v : Q) (s : GameState) : GameState :=
  mkGameState (status s) (score s) (bestScore s) (bestStreak s) (combo s)
    (maxSessionCombo s) (difficulty s) (powerUps s) (activePowerUps s)
    (lastComboMilestone s) (continuesUsed s) (continueUsed s)
    (continuePending s) (axis s) (direction s) (speed s) (stack s)
    (activeBlock s) (lastTime s) (lastInputTime s) (lastSpawnTime s) (flash s)
    (shakeTime s) (shakeDuration s) v (rubbleData s) (rubbleFree s)
    (rubbleActive s) (controllerInputCooldown s) (ui s).

Definition set_rubbleData (v : list RubbleSlot) (s : GameState) : GameState :=
  mkGameState (status s) (score s) (bestScore s) (bestStreak s) (combo s)
    (maxSessionCombo s) (difficulty s) (powerUps s) (activePowerUps s)
    (lastComboMilestone s) (continuesUsed s) (continueUsed s)
    (continuePending s) (axis s) (direction s) (speed s) (stack s)
    (activeBlock s) (lastTime s) (lastInputTime s) (lastSpawnTime s) (flash s)
    (shakeTime s) (shakeDuration s) (shakeAmp s) v (rubbleFree s)
    (rubbleActive s) (controllerInputCooldown s) (ui s).

Definition set_rubbleFree (v : list nat) (s : GameState) : GameState :=
  mkGameState (status s) (score s) (bestScore s) (bestStreak s) (combo s)
    (maxSessionCombo s) (difficulty s) (powerUps s) (activePowerUps s)
    (lastComboMilestone s) (continuesUsed s) (continueUsed s)
    (continuePending s) (axis s) (direction s) (speed s) (stack s)
    (activeBlock s) (lastTime s) (lastInputTime s) (lastSpawnTime s) (flash s)
    (shakeTime s) (shakeDuration s) (shakeAmp s) (rubbleData s) v
    (rubbleActive s) (controllerInputCooldown s) (ui s).

Definition set_rubbleActive (v : list nat) (s : GameState) : GameState :=
  mkGameState (status s) (score s) (bestScore s) (bestStreak s) (combo s)
    (maxSessionCombo s) (difficulty s) (powerUps s) (activePowerUps s)
    (lastComboMilestone s) (continuesUsed s) (continueUsed s)
    (continuePending s) (axis s) (direction s) (speed s) (stack s)
    (activeBlock s) (lastTime s) (lastInputTime s) (lastSpawnTime s) (flash s)
    (shakeTime s) (shakeDuration s) (shakeAmp s) (rubbleData s) (rubbleFree s)
    v (controllerInputCooldown s) (ui s).

Definition set_controllerInputCooldown (v : Q * Q) (s : GameState) : GameState :=
  mkGameState (status s) (score s) (bestScore s) (bestStreak s) (combo s)
    (maxSessionCombo s) (difficulty s) (powerUps s) (activePowerUps s)
    (lastComboMilestone s) (continuesUsed s) (continueUsed s)
    (continuePending s) (axis s) (direction s) (speed s) (stack s)
    (activeBlock s) (lastTime s) (lastInputTime s) (lastSpawnTime s) (flash s)
    (shakeTime s) (shakeDuration s) (shakeAmp s) (rubbleData s) (rubbleFree s)
    (rubbleActive s) v (ui s).

Definition set_ui (v : Screen) (s : GameState) : GameState :=
  mkGameState (status s) (score s) (bestScore s) (bestStreak s) (combo s)
    (maxSessionCombo s) (difficulty s) (powerUps s) (activePowerUps s)
    (lastComboMilestone s) (continuesUsed s) (continueUsed s)
    (continuePending s) (axis s) (direction s) (speed s) (stack s)
    (activeBlock s) (lastTime s) (lastInputTime s) (lastSpawnTime s) (flash s)
    (shakeTime s) (shakeDuration s) (shakeAmp s) (rubbleData s) (rubbleFree s)
    (rubbleActive s) (controllerInputCooldown s) v.

(** ** Globals, outcomes *)

(** The globals of the graphics module that game code tests or
    dereferences: [true] when the object exists, [false] when [null]. *)
Record Engine : Type := mkEngine { scene : bool; rubbleInstances : bool }.

(** A call either returns or throws; the state is the one reached. *)
Inductive Outcome : Type :=
  | Ret (s : GameState)
  | Exn (s : GameState).

Definition stateOf (o : Outcome) : GameState :=
  match o with Ret s => s | Exn s => s end.

Definition andThen (o : Outcome) (k : GameState -> Outcome) : Outcome :=
  match o with Ret s => k s | Exn s => Exn s end.

(** [try { ... } catch (e) { log }] *)
Definition tryCatch (o : Outcome) : GameState := stateOf o.

(** ** ui.js: the screen dispatch of [UIManager.render] *)

Definition render (s : GameState) : GameState :=
  set_ui
    (match status s with
     | START => ScreenStart (1 <? length (stack s))%nat
     | PLAYING => ScreenHUD
     | GAMEOVER => ScreenGameOver (continuesUsed s <? 1)%Z
     | PAUSED => ScreenPaused
     | LOADING => ScreenBlank
     end) s.

(** ** effects.js *)

Definition triggerShake (amp dur : Q) (s : GameState) : GameState :=
  let s := set_shakeAmp (Qmax (shakeAmp s) amp) s in
  let s := set_shakeDuration (Qmax (shakeDuration s) dur) s in
  set_shakeTime (Qmax (shakeTime s) dur) s.

Definition triggerCrashFeedback (s : GameState) : GameState :=
  let s :=
    triggerShake CONFIG.SHAKE_GAMEOVER_AMP CONFIG.SHAKE_GAMEOVER_DURATION s in
  set_flash (Qmax (flash s) 0.65) s.

Definition triggerPerfectFeedback (s : GameState) : GameState :=
  triggerShake (CONFIG.SHAKE_PERFECT_AMP * 0.5) CONFIG.SHAKE_PERFECT_DURATION s.

(** ** powerups.js *)

Fixpoint findIndex {A : Type} (p : A -> bool) (l : list A) : option nat :=
  match l with
  | [] => None
  | x :: l' => if p x then Some 0%nat else S <$> findIndex p l'
  end.

Definition isNull {A : Type} (o : option A) : bool :=
  match o with None => true | Some _ => false end.

Definition powerUpTypes : list Kind.t :=
  [Kind.slowMo; Kind.safetyNet; Kind.superSize; Kind.resetSize].

(** [powerUpTypes[Math.floor(rnd * powerUpTypes.length)]] for a draw
    [rnd] of [Math.random()], which lies in [0, 1). *)
Definition randomType (rnd : Q) : option Kind.t :=
  powerUpTypes !! Z.to_nat (Qfloor (rnd * 4)).

Definition awardPowerUp (rnd : Q) (s : GameState) : GameState :=
  match findIndex isNull (powerUps s) with
  | None => s
  | Some emptySlot =>
      set_powerUps (<[emptySlot := randomType rnd]> (powerUps s)) s
  end.

Definition set_superSize (v : SuperSize) (s : GameState) : GameState :=
  let a := activePowerUps s in
  set_activePowerUps (mkActivePowerUps (slowMo a) (safetyNet a) v) s.

Definition set_safetyNet (v : SafetyNet) (s : GameState) : GameState :=
  let a := activePowerUps s in
  set_activePowerUps (mkActivePowerUps (slowMo a) v (superSize a)) s.

Definition set_slowMo (v : SlowMo) (s : GameState) : GameState :=
  let a := activePowerUps s in
  set_activePowerUps (mkActivePowerUps v (safetyNet a) (superSize a)) s.

(** The super-size countdown that placeBlock runs on both placements
    (the body of [decrementSuperSize]). *)
Definition decrementSuperSize (s : GameState) : GameState :=
  let ss := superSize (activePowerUps s) in
  if superSize_active ss && (0 <? count ss)%Z then
    let c := (count ss - 1)%Z in
    set_superSize
      (mkSuperSize (if (c =? 0)%Z then false else superSize_active ss) c) s
  else s.

Definition updatePowerUpTimers (dt : Q) (s : GameState) : GameState :=
  let sm := slowMo (activePowerUps s) in
  if slowMo_active sm && Qltb 0 (duration sm) then
    let d := duration sm - dt in
    if Qle_bool d 0 then set_slowMo (mkSlowMo false 0) s
    else set_slowMo (mkSlowMo true d) s
  else s.

Definition activatePowerUp (slotIndex : nat) (s : GameState) : GameState :=
  match status s with
  | PLAYING =>
      match powerUps s !! slotIndex with
      | Some (Some powerUpType) =>
          let s :=
            match powerUpType with
            | Kind.slowMo => set_slowMo (mkSlowMo true 10) s
            | Kind.safetyNet => set_safetyNet (mkSafetyNet true 1) s
            | Kind.superSize => set_superSize (mkSuperSize true 2) s
            | Kind.resetSize =>
                match last (stack s) with
                | None => s
                | Some lastBlock =>
                    let p := position lastBlock in
                    let lastBlock :=
                      mkBlock (mkVector3 0 (vy p) 0) CONFIG.INITIAL_SIZE
                        CONFIG.BLOCK_HEIGHT CONFIG.INITIAL_SIZE
                        CONFIG.INITIAL_SIZE CONFIG.INITIAL_SIZE in
                    let s :=
                      set_stack (removelast (stack s) ++ [lastBlock]) s in
                    match activeBlock s with
                    | None => s
                    | Some active =>
                        let q := position active in
                        let q :=
                          match axis s with
                          | AxisX => mkVector3 (vx q) (vy q) 0
                          | AxisZ => mkVector3 0 (vy q) (vz q)
                          end in
                        set_activeBlock
                          (Some
                             (mkBlock q CONFIG.INITIAL_SIZE CONFIG.BLOCK_HEIGHT
                                CONFIG.INITIAL_SIZE CONFIG.INITIAL_SIZE
                                CONFIG.INITIAL_SIZE)) s
                    end
                end
            end in
          set_powerUps (<[slotIndex := None]> (powerUps s)) s
      | _ => s
      end
  | _ => s
  end.

(** The multiplier the frame callback computes in line. *)
Definition getSpeedMultiplier (s : GameState) : Q :=
  let sm := slowMo (activePowerUps s) in
  if slowMo_active sm && Qltb 0 (duration sm) then 0.5 else 1.

(** ** graphics-vr.js: the foundation and the pool set-up *)

Definition createFoundation (g : Engine) (s : GameState) : Outcome :=
  let mesh :=
    mkBlock (mkVector3 0 (CONFIG.BLOCK_HEIGHT / 2) 0) CONFIG.INITIAL_SIZE
      CONFIG.BLOCK_HEIGHT CONFIG.INITIAL_SIZE CONFIG.INITIAL_SIZE
      CONFIG.INITIAL_SIZE in
  if scene g then Ret (set_stack (stack s ++ [mesh]) s) else Exn s.

(** [arr[i] = x] for [i <= arr.length], as the set-up loop uses it. *)
Definition assignAt {A : Type} (i : nat) (x : A) (l : list A) : list A :=
  if (i <? length l)%nat then <[i := x]> l else l ++ [x].

Definition freshSlot : RubbleSlot :=
  mkRubbleSlot false (mkVector3 0 (-500) 0) (mkVector3 0 0 0)
    (mkVector3 1 1 1) (mkVector3 0 0 0) (mkVector3 0 0 0).

(** The loop [for (i = i0; i < i0 + n; i++)] of initEngine. *)
Fixpoint initRubble (n i : nat) (s : GameState) : GameState :=
  match n with
  | O => s
  | S n' =>
      let s := set_rubbleFree (rubbleFree s ++ [i]) s in
      let s := set_rubbleData (assignAt i freshSlot (rubbleData s)) s in
      initRubble n' (S i) s
  end.

(** initEngine creates the scene and the instanced rubble mesh, fills
    the pool and lays the foundation. *)
Definition engineReady : Engine := mkEngine true true.

Definition initEngine (s : GameState) : Outcome :=
  let s := set_rubbleFree [] s in
  let s := set_rubbleActive [] s in
  let s := initRubble CONFIG.MAX_RUBBLE 0 s in
  createFoundation engineReady s.

(** ** game.js *)

Definition spawnNewBlock (g : Engine) (now rnd : Q) (s : GameState) : Outcome :=
  let prev := last (stack s) in
  let s := set_axis (otherAxis (axis s)) s in
  match prev with
  | None => Exn s
  | Some prev =>
      let baseWidth := js_or (baseWidth prev) (width prev) in
      let baseDepth := js_or (baseDepth prev) (depth prev) in
      let ss := superSize (activePowerUps s) in
      let boosted := superSize_active ss && (0 <? count ss)%Z in
      let actualWidth := if boosted then baseWidth * 1.3 else baseWidth in
      let actualDepth := if boosted then baseDepth * 1.3 else baseDepth in
      let y :=
        inject_Z (Z.of_nat (length (stack s))) * CONFIG.BLOCK_HEIGHT
        + CONFIG.BLOCK_HEIGHT / 2 in
      let offset := if Qltb 0.5 rnd then 12 else -12 in
      let s := set_direction (if Qltb 0 offset then -1 else 1) s in
      let other := otherAxis (axis s) in
      let pos :=
        vset other (vget other (position prev))
          (vset (axis s) offset (mkVector3 0 y 0)) in
      let mesh :=
        mkBlock pos actualWidth CONFIG.BLOCK_HEIGHT actualDepth
          baseWidth baseDepth in
      if scene g then
        Ret (set_lastSpawnTime now (set_activeBlock (Some mesh) s))
      else Exn s
  end.

(** The three [Math.random()] draws of the angular velocity. *)
Record Spin : Type := mkSpin { spinX : Q; spinY : Q; spinZ : Q }.

Definition spawnRubble (g : Engine) (rnd : Spin) (s : GameState)
    (active prev : Block) (axis : Axis) (delta overlap : Q) : Outcome :=
  let size := sizeOn axis active in
  let other := otherOn axis active in
  let rSize := size - overlap in
  match last (rubbleFree s) with
  | None => Ret s
  | Some idx =>
      let s := set_rubbleFree (removelast (rubbleFree s)) s in
      let rPos :=
        vset axis
          (vget axis (position prev) + (size / 2 + rSize / 2) * sign delta)
          (position active) in
      let rScale :=
        match axis with
        | AxisX => mkVector3 rSize CONFIG.BLOCK_HEIGHT other
        | AxisZ => mkVector3 other CONFIG.BLOCK_HEIGHT rSize
        end in
      match rubbleData s !! idx with
      | None => Exn s
      | Some _ =>
          let slot :=
            mkRubbleSlot true rPos (mkVector3 0 0 0) rScale
              (mkVector3 0 (-10) 0)
              (mkVector3 (spinX rnd * 8 - 4) (spinY rnd * 4 - 2)
                 (spinZ rnd * 8 - 4)) in
          let s := set_rubbleActive (rubbleActive s ++ [idx]) s in
          let s := set_rubbleData (<[idx := slot]> (rubbleData s)) s in
          if rubbleInstances g then Ret s else Exn s
      end
  end.

Definition gameOver (s : GameState) : GameState :=
  let s := set_status GAMEOVER s in
  let s := set_continuePending (Some false) s in
  let s :=
    if (bestScore s <? score s)%Z then set_bestScore (score s) s else s in
  let s :=
    if (bestStreak s <? maxSessionCombo s)%Z
    then set_bestStreak (maxSessionCombo s) s else s in
  let s := triggerCrashFeedback s in
  render s.

(** What one call of placeBlock reads from outside the state: the clock
    at the grace test and at the spawn that ends it, and the draws. *)
Record Env : Type := mkEnv {
  now : Q;
  spawnNow : Q;
  rndSpin : Spin;
  rndAward : Q;
  rndSpawn : Q
}.

(** The quantities placeBlock computes before it classifies. *)
Definition mercyThreshold (s : GameState) : Q :=
  let diffConfig := DIFFICULTIES (difficulty s) in
  if (length (stack s) <=? mercy diffConfig)%nat
  then threshold diffConfig else 0.15.

Definition roundedDelta (s : GameState) (active prev : Block) : Q :=
  let delta :=
    vget (axis s) (position active) - vget (axis s) (position prev) in
  if Qltb (Qabs delta) (mercyThreshold s) then 0 else delta.

Definition overlapOf (s : GameState) (active prev : Block) : Q :=
  sizeOn (axis s) active - Qabs (roundedDelta s active prev).

(** The grace period test, [lastSpawnTime && now - lastSpawnTime < 2000]. *)
Definition inGracePeriod (t : Q) (s : GameState) : bool :=
  negb (Qeq_bool (lastSpawnTime s) 0) && Qltb (t - lastSpawnTime s) 2000.

(** The active block snapped onto the block below (perfect placement). *)
Definition snappedBlock (s : GameState) (active prev : Block) : Block :=
  setPositionOn (axis s) (vget (axis s) (position prev)) active.

(** The active block cut down to the overlap and re-centred over it; the
    trimmed extents are also the base size stored for the next spawn. *)
Definition trimmedBlock (s : GameState) (active prev : Block) : Block :=
  let delta := roundedDelta s active prev in
  let overlap := overlapOf s active prev in
  let other := otherOn (axis s) active in
  let pos' :=
    vset (axis s) (vget (axis s) (position prev) + delta / 2)
      (position active) in
  match axis s with
  | AxisX => mkBlock pos' overlap CONFIG.BLOCK_HEIGHT other overlap other
  | AxisZ => mkBlock pos' other CONFIG.BLOCK_HEIGHT overlap other overlap
  end.

(** The common tail of a perfect placement and a cut: the resolved block
    goes on the stack and the next block is spawned. *)
Definition pushPlaced (g : Engine) (e : Env) (placed : Block) (s : GameState)
    : Outcome :=
  let diffConfig := DIFFICULTIES (difficulty s) in
  let s := set_stack (stack s ++ [placed]) s in
  let s := set_activeBlock None s in
  let s := set_score (score s + 1)%Z s in
  let s := set_speed (Qmin (max diffConfig) (speed s + inc diffConfig)) s in
  let s := render s in
  spawnNewBlock g (spawnNow e) (rndSpawn e) s.

Definition placeBlock (g : Engine) (e : Env) (s : GameState) : Outcome :=
  match activeBlock s with
  | None => Ret s
  | Some active =>
  if inGracePeriod (now e) s then Ret s else
  match last (stack s) with
  | None => Exn s
  | Some prev =>
  let diffConfig := DIFFICULTIES (difficulty s) in
  let axis := axis s in
  let size := sizeOn axis active in
  let other := otherOn axis active in
  let delta := roundedDelta s active prev in
  let overlap := overlapOf s active prev in
  if Qle_bool overlap 0.05 then
    let net := safetyNet (activePowerUps s) in
    if safetyNet_active net && (0 <? uses net)%Z then
      let u := (uses net - 1)%Z in
      let s :=
        set_safetyNet
          (mkSafetyNet (if (u =? 0)%Z then false else safetyNet_active net) u)
          s in
      let s := set_combo 0%Z s in
      let s := set_flash 0.3 s in
      if scene g then
        let s := set_activeBlock None s in
        spawnNewBlock g (spawnNow e) (rndSpawn e) s
      else Exn s
    else Ret (gameOver s)
  else
    if Qeq_bool delta 0 then
      let active' := snappedBlock s active prev in
      let s := set_combo (combo s + 1)%Z s in
      let s :=
        if (maxSessionCombo s <? combo s)%Z
        then set_maxSessionCombo (combo s) s else s in
      let s := set_flash 0.5 s in
      let s := triggerPerfectFeedback s in
      let s :=
        if (5 <=? combo s)%Z && (Z.rem (combo s) 5 =? 0)%Z
           && (lastComboMilestone s <? combo s)%Z
        then awardPowerUp (rndAward e) (set_lastComboMilestone (combo s) s)
        else s in
      let s := decrementSuperSize s in
      pushPlaced g e active' s
    else
      let active' := trimmedBlock s active prev in
      let s := set_combo 0%Z s in
      andThen (spawnRubble g (rndSpin e) s active prev axis delta overlap)
        (fun s =>
           let s := decrementSuperSize s in
           pushPlaced g e active' s)
  end
  end.

Definition continueGame (s : GameState) : GameState :=
  let s := set_continuesUsed (continuesUsed s + 1)%Z s in
  let s := set_status PLAYING s in
  let s := set_safetyNet (mkSafetyNet true 1) s in
  let s := set_slowMo (mkSlowMo true 5.0) s in
  render s.

(** [r.isActive = false] *)
Definition setInactive (r : RubbleSlot) : RubbleSlot :=
  mkRubbleSlot false (rposition r) (rotation r) (scale r) (velocity r)
    (angularVelocity r).

(** The loop [for (i = i0; i < i0 + n; i++)] of cleanup: reading
    [rubbleData[i].isActive] of a missing slot throws. *)
Fixpoint resetRubble (n i : nat) (s : GameState) : Outcome :=
  match n with
  | O => Ret s
  | S n' =>
      match rubbleData s !! i with
      | None => Exn s
      | Some r =>
          let s := set_rubbleData (<[i := setInactive r]> (rubbleData s)) s in
          let s := set_rubbleFree (rubbleFree s ++ [i]) s in
          resetRubble n' (S i) s
      end
  end.

Definition cleanup (g : Engine) (s : GameState) : Outcome :=
  if negb (scene g) then Ret (set_activeBlock None (set_stack [] s))
  else
    let s := set_stack [] s in
    let s := set_activeBlock None s in
    if rubbleInstances g && (0 <? length (rubbleData s))%nat then
      let s := set_rubbleFree [] s in
      let s := set_rubbleActive [] s in
      resetRubble CONFIG.MAX_RUBBLE 0 s
    else Ret s.

Definition startGame (g : Engine) (spawnTime rnd : Q) (s : GameState)
    : Outcome :=
  let s := set_continueUsed (Some false) s in
  let s := set_continuePending (Some false) s in
  andThen (cleanup g s) (fun s =>
    let d := DIFFICULTIES (difficulty s) in
    let s := set_status PLAYING s in
    let s := set_score 0%Z s in
    let s := set_combo 0%Z s in
    let s := set_maxSessionCombo 0%Z s in
    let s := set_speed (initial d) s in
    let s := set_axis AxisX s in
    let s := set_powerUps [None; None; None] s in
    let s := set_activePowerUps noActivePowerUps s in
    let s := set_lastComboMilestone 0%Z s in
    andThen (createFoundation g s) (fun s =>
      let s := render s in
      Ret (tryCatch (spawnNewBlock g spawnTime rnd s)))).

Definition backToMenu (g : Engine) (s : GameState) : Outcome :=
  andThen
    (match status s with
     | GAMEOVER =>
         andThen (cleanup g s) (fun s =>
           Ret (set_activeBlock None (set_stack [] s)))
     | _ => Ret s
     end)
    (fun s => Ret (render (set_status START s))).

Definition resumeGame (t : Q) (s : GameState) : GameState :=
  match status s with
  | GAMEOVER => s
  | _ => render (set_lastTime t (set_status PLAYING s))
  end.

Definition pauseGame (s : GameState) : GameState :=
  match status s with
  | PLAYING => render (set_status PAUSED s)
  | _ => s
  end.

(** ** state.js *)

Definition initialState : GameState :=
  {| status := LOADING;
     score := 0; bestScore := 0; bestStreak := 0; combo := 0;
     maxSessionCombo := 0;
     difficulty := medium;
     powerUps := [None; None; None];
     activePowerUps := noActivePowerUps;
     lastComboMilestone := 0;
     continuesUsed := 0;
     continueUsed := None;
     continuePending := None;
     axis := AxisX;
     direction := 1;
     speed := 0.18;
     stack := [];
     activeBlock := None;
     lastTime := 0; lastInputTime := 0; lastSpawnTime := 0;
     flash := 0; shakeTime := 0; shakeDuration := 0; shakeAmp := 0;
     rubbleData := []; rubbleFree := []; rubbleActive := [];
     controllerInputCooldown := (0, 0);
     ui := ScreenBlank |}.

Definition resetGameState (s : GameState) : GameState :=
  let s := set_score 0%Z s in
  let s := set_combo 0%Z s in
  let s := set_maxSessionCombo 0%Z s in
  let s := set_stack [] s in
  let s := set_activeBlock None s in
  let s := set_rubbleActive [] s in
  let s := set_powerUps [None; None; None] s in
  let s := set_activePowerUps noActivePowerUps s in
  let s := set_lastComboMilestone 0%Z s in
  let s := set_continuesUsed 0%Z s in
  let s := set_flash 0 s in
  set_shakeTime 0 s.

(** ** main-vr.js: the frame callback *)

(** [dt] of a frame: [lastTime] is taken from the frame when it is unset. *)
Definition frameDt (time : Q) (s : GameState) : Q :=
  let lastTime := if Qeq_bool (lastTime s) 0 then time else lastTime s in
  Qmin ((time - lastTime) / 1000) 0.04.

(** Apply screen shake (the offset itself is presentation). *)
Definition applyShake (dt : Q) (s : GameState) : GameState :=
  if Qltb 0 (shakeTime s) then
    let s := set_shakeTime (Qmax 0 (shakeTime s - dt)) s in
    if Qeq_bool (shakeTime s) 0
    then set_shakeDuration 0 (set_shakeAmp 0 s) else s
  else s.

(** Apply flash effect. *)
Definition applyFlash (dt : Q) (s : GameState) : GameState :=
  if Qltb 0 (flash s) then set_flash (flash s - 2.0 * dt) s else s.

(** Where the frame's motion carries the active block [b]: the slow-mo
    timer is advanced first, and the multiplier is read after it. *)
Definition advanced (dt : Q) (s : GameState) (b : Block) : Q :=
  vget (axis s) (position b)
  + direction s * speed s * getSpeedMultiplier (updatePowerUpTimers dt s)
    * (dt * 60).

(** Update active block movement. *)
Definition moveActiveBlock (dt : Q) (s : GameState) : GameState :=
  match status s, activeBlock s with
  | PLAYING, Some b =>
      let p := advanced dt s b in
      let s := updatePowerUpTimers dt s in
      if Qltb 13 (Qabs p) then
        let s := set_direction (direction s * -1) s in
        set_activeBlock (Some (setPositionOn (axis s) (13 * sign p) b)) s
      else set_activeBlock (Some (setPositionOn (axis s) p b)) s
  | _, _ => s
  end.

(** [last = arr.pop(); if (a < arr.length) arr[a] = last] *)
Definition swapRemove (a : nat) (l : list nat) : list nat :=
  match last l with
  | None => l
  | Some x =>
      let l' := removelast l in
      if (a <? length l')%nat then <[a := x]> l' else l'
  end.

(** One iteration of the rubble loop, at index [a] of the active list. *)
Definition rubbleStep (g : Engine) (dt : Q) (a : nat) (s : GameState)
    : Outcome :=
  match rubbleActive s !! a with
  | None => Exn s
  | Some i =>
      match rubbleData s !! i with
      | None => Exn s
      | Some r =>
          if negb (isActive r) then
            Ret (set_rubbleActive (swapRemove a (rubbleActive s)) s)
          else
            let p := rposition r in
            let v := velocity r in
            let w := angularVelocity r in
            let o := rotation r in
            let p := mkVector3 (vx p) (vy p + vy v * (dt * 5)) (vz p) in
            let v := mkVector3 (vx v) (vy v - 25 * dt) (vz v) in
            let o :=
              mkVector3 (vx o + vx w * dt) (vy o + vy w * dt)
                (vz o + vz w * dt) in
            if Qltb (vy p) (-120) then
              let r := mkRubbleSlot false p o (scale r) v w in
              let s := set_rubbleData (<[i := r]> (rubbleData s)) s in
              if rubbleInstances g then
                let s := set_rubbleFree (rubbleFree s ++ [i]) s in
                Ret (set_rubbleActive (swapRemove a (rubbleActive s)) s)
              else Exn s
            else
              let r := mkRubbleSlot true p o (scale r) v w in
              let s := set_rubbleData (<[i := r]> (rubbleData s)) s in
              if rubbleInstances g then Ret s else Exn s
      end
  end.

(** [for (a = k - 1; a >= 0; a--)] *)
Fixpoint rubbleLoop (g : Engine) (dt : Q) (k : nat) (s : GameState)
    : Outcome :=
  match k with
  | O => Ret s
  | S a => andThen (rubbleStep g dt a s) (rubbleLoop g dt a)
  end.

(** Update rubble physics. *)
Definition updateRubble (g : Engine) (dt : Q) (s : GameState) : Outcome :=
  rubbleLoop g dt (length (rubbleActive s)) s.

Definition animate (g : Engine) (time : Q) (s : GameState) : Outcome :=
  let dt := frameDt time s in
  let s := set_lastTime time s in
  let s := applyShake dt s in
  let s := applyFlash dt s in
  let s := moveActiveBlock dt s in
  updateRubble g dt s.

(** ** main-vr.js: the input handlers *)

Definition handleInput (g : Engine) (t : Q) (e : Env) (s : GameState)
    : Outcome :=
  match status s with
  | PLAYING =>
      if Qltb (t - lastInputTime s) CONFIG.INPUT_COOLDOWN then Ret s
      else if Qltb (t - lastSpawnTime s) 200 then Ret s
      else placeBlock g e (set_lastInputTime t s)
  | _ => Ret s
  end.

Inductive Controller : Type := Controller0 | Controller1.

Definition cooldownOf (c : Controller) (p : Q * Q) : Q :=
  match c with Controller0 => fst p | Controller1 => snd p end.

Definition setCooldown (c : Controller) (t : Q) (p : Q * Q) : Q * Q :=
  match c with Controller0 => (t, snd p) | Controller1 => (fst p, t) end.

Definition handleVRInput (g : Engine) (c : Controller) (t : Q) (e : Env)
    (s : GameState) : Outcome :=
  match status s with
  | PLAYING =>
      if Qltb (t - cooldownOf c (controllerInputCooldown s))
           CONFIG.INPUT_COOLDOWN then Ret s
      else if Qltb (t - lastSpawnTime s) 200 then Ret s
      else
        placeBlock g e
          (set_controllerInputCooldown
             (setCooldown c t (controllerInputCooldown s)) s)
  | _ => Ret s
  end.

Definition setDifficulty (d : Difficulty) (s : GameState) : GameState :=
  render (set_difficulty d s).

(** ** The application: boot, and the handlers the interface is bound to *)

(** [init()] of main-vr.js up to the start screen: best scores and the
    difficulty come from storage; the engine is initialised; the start
    screen is rendered. *)
Definition boot (best streak : Z) (d : Difficulty) : GameState :=
  let s := set_bestScore best initialState in
  let s := set_bestStreak streak s in
  let s := set_difficulty d s in
  let s := stateOf (initEngine s) in
  render (set_status START s).

(** The handlers [init()] exposes on [window], the two input paths and
    the frame callback. *)
Inductive Event : Type :=
  | GameStartNew (t rnd : Q)
  | GameRestart (t rnd : Q)
  | GameResume (t : Q)
  | GamePause
  | GameBackToMenu
  | GameContinueWithAd (rewarded : bool)
  | GameSetDiff (d : Difficulty)
  | GameToggleMute
  | SelectTheme
  | ActivatePowerUpSlot (slotIndex : nat)
  | Input (t : Q) (e : Env)
  | VRInput (c : Controller) (t : Q) (e : Env)
  | Frame (time : Q).

(** Which events the rendered screen offers. A button can be pressed
    only if [render] put it there; the power-up slots, pointer input,
    controller input and frames do not depend on the screen. The start
    button is taken as always enabled. *)
Definition offered (ev : Event) (s : GameState) : bool :=
  match ev, ui s with
  | GameStartNew _ _, ScreenStart _ => true
  | GameRestart _ _, ScreenGameOver _ => true
  | GameResume _, ScreenStart true => true
  | GameResume _, ScreenPaused => true
  | GamePause, ScreenHUD => true
  | GameBackToMenu, (ScreenHUD | ScreenGameOver _ | ScreenPaused) => true
  | GameContinueWithAd _, ScreenGameOver true => true
  | GameSetDiff _, ScreenStart _ => true
  | GameToggleMute, (ScreenStart _ | ScreenHUD) => true
  | SelectTheme, ScreenStart _ => true
  | ActivatePowerUpSlot _, _ => true
  | Input _ _, _ => true
  | VRInput _ _ _, _ => true
  | Frame _, _ => true
  | _, _ => false
  end.

(** The state a handler leaves, whether it returned or threw. The
    rewarded-continue handler is taken with its answer at the press:
    with [rewarded] the callback of showRewarded runs, as it does at
    once without the ad SDK or with no video ready; without it nothing
    changes, as when the video is closed early. The flow through the
    SDK, where the answer comes later and presses can pile up, is
    [appHandle] below. *)
Definition handle (g : Engine) (ev : Event) (s : GameState) : GameState :=
  match ev with
  | GameStartNew t rnd => stateOf (startGame g t rnd s)
  | GameRestart t rnd => stateOf (startGame g t rnd s)
  | GameResume t => resumeGame t s
  | GamePause => pauseGame s
  | GameBackToMenu => stateOf (backToMenu g s)
  | GameContinueWithAd rewarded => if rewarded then continueGame s else s
  | GameSetDiff d => setDifficulty d s
  | GameToggleMute => render s
  | SelectTheme => render s
  | ActivatePowerUpSlot i => activatePowerUp i s
  | Input t e => stateOf (handleInput g t e s)
  | VRInput c t e => stateOf (handleVRInput g c t e s)
  | Frame time => stateOf (animate g time s)
  end.

(** The states the application can be in when the graphics module that
    game.js reads is the initialised one (the engine of every handler is
    [engineReady]: in the sources at hand main-vr.js sets up
    graphics-vr.js while game.js imports its scene from graphics.js) and
    a rewarded continue is answered at the press. *)
Inductive reachable : GameState -> Prop :=
  | reach_boot (best streak : Z) (d : Difficulty) :
      reachable (boot best streak d)
  | reach_step (ev : Event) (s : GameState) :
      reachable s -> offered ev s = true ->
      reachable (handle engineReady ev s).

(** A run of frames with the given timestamps. *)
Definition frames (g : Engine) (times : list Q) (s : GameState) : GameState :=
  fold_left (fun s time => stateOf (animate g time s)) times s.

(** A run of movement updates, one per time step. *)
Definition moves (dts : list Q) (s : GameState) : GameState :=
  fold_left (fun s dt => moveActiveBlock dt s) dts s.

(** A state that differs from [s] in the pool only. *)
Definition withPool (d : list RubbleSlot) (f a : list nat) (s : GameState)
    : GameState :=
  set_rubbleData d (set_rubbleFree f (set_rubbleActive a s)).

(** ** The rubble pool invariant *)

(** The invariant as the specification words it. *)
Definition poolInv (s : GameState) : Prop :=
  (length (rubbleFree s) + length (rubbleActive s) = CONFIG.MAX_RUBBLE)%nat
  /\ forall i : nat, i ∈ rubbleFree s -> i ∉ rubbleActive s.

(** The invariant the operations maintain: the two lists together hold
    each of the 80 slot indices once, and a slot on the active list is
    flagged active. *)
Definition poolWf (s : GameState) : Prop :=
  length (rubbleData s) = CONFIG.MAX_RUBBLE
  /\ rubbleFree s ++ rubbleActive s ≡ₚ seq 0 CONFIG.MAX_RUBBLE
  /\ Forall
       (fun i : nat =>
          exists r, rubbleData s !! i = Some r /\ isActive r = true)
       (rubbleActive s).

(** ** Sample states *)

Module Sample.

(** A new game on medium difficulty, the first block spawned at
    timestamp 1000 from the positive side. *)
Definition started : GameState :=
  stateOf (startGame engineReady 1000 0.7 (boot 0 0 medium)).

Definition env (t : Q) : Env :=
  mkEnv t (t + 1) (mkSpin 0.5 0.5 0.5) 0.3 0.7.

(** The two blocks of [started]. *)
Definition foundation : Block :=
  mkBlock (mkVector3 0 (1 # 2) 0) 4 1 4 4 4.

Definition firstBlock : Block :=
  mkBlock (mkVector3 0 (3 # 2) 12) 4 1 4 4 4.

(** The first block dropped where it spawned, 12 off the foundation:
    a miss that ends the session. *)
Definition over : GameState :=
  stateOf (placeBlock engineReady (env 4000) started).

(** The rewarded continue taken from there. *)
Definition continued : GameState := continueGame over.

(** Seventy frames 40 ms apart with no drop: the block crosses from 12
    to the far boundary and turns back. *)
Definition longRun : list Q :=
  map (fun k : nat => 1000 + 40 * inject_Z (Z.of_nat k)) (seq 1 70).

(** The same course of play as the interface drives it: new game, a
    drop that misses, the rewarded continue, a second miss that the
    safety net absorbs, and a third that ends the session again. *)
Definition replay : list Event :=
  [ GameStartNew 1000 0.7;
    Input 3999 (env 4000);
    GameContinueWithAd true;
    Input 5999 (env 6000);
    Input 8999 (env 9000) ].

Definition replayed : GameState :=
  fold_left (fun s ev => handle engineReady ev s) replay (boot 0 0 medium).

(** Twenty-one frames 40 ms apart: the first sets the clock, the next
    twenty move the block by 0.432 each, from 12 to 3.36. *)
Definition moved : GameState :=
  frames engineReady
    (map (fun k : nat => 1000 + 40 * inject_Z (Z.of_nat k)) (seq 1 21))
    started.


(** The block dropped there: a cut, one rubble slot in flight. *)
Definition cut : GameState :=
  stateOf (placeBlock engineReady (env 4000) moved).

(** The fragment in flight, in slot 79. *)
Definition cutFragment : RubbleSlot :=
  default freshSlot (rubbleData cut !! 79%nat).

(** Fifty-eight frames of the long run: the block has travelled from
    12 to -12.624 and the next update carries it past -13. *)
Definition beforeTurn : GameState :=
  frames engineReady (take 58 longRun) started.

Definition turningBlock : Block :=
  default foundation (activeBlock beforeTurn).


(** Medium difficulty, a stack of three, combo 0, score 2, and an
    active block on axis x, 0.2 off the block below. *)
Definition scenario : GameState :=
  let blockAt (x y : Q) := mkBlock (mkVector3 x y 0) 4 1 4 4 4 in
  set_stack [blockAt 0 0.5; blockAt 0 1.5; blockAt 0 2.5]
    (set_activeBlock (Some (blockAt 0.2 3.5))
       (set_axis AxisX (set_score 2%Z started))).

Definition scenarioBlock : Block := mkBlock (mkVector3 0.2 3.5 0) 4 1 4 4 4.
Definition scenarioTop : Block := mkBlock (mkVector3 0 2.5 0) 4 1 4 4 4.

End Sample.

(** ** Rubble acquisition *)


(** ** The continue cap *)

(** The game-over screen shows the continue button only while no
    continue has been used. *)
Definition uiSound (s : GameState) : Prop :=
  match ui s with
  | ScreenGameOver true => (continuesUsed s < 1)%Z
  | _ => True
  end.

(** [s'] has the continue count of [s] and a sound screen if [s] has. *)
Definition keeps (s s' : GameState) : Prop :=
  continuesUsed s' = continuesUsed s /\ (uiSound s -> uiSound s').

(** ** The score and the height of the stack *)

(** In a session the score counts the blocks above the foundation;
    between sessions there may be neither stack nor active block. *)
Definition tallyInv (s : GameState) : Prop :=
  (stack s = [] /\ activeBlock s = None)
  \/ (score s + 1)%Z = Z.of_nat (length (stack s)).

(** ** Power-up effects and motion parameters *)

(** Flag and counter of every effect agree: slow-mo is active exactly
    while time remains, the safety net holds one use or none, super
    size two, one or no placements; the inventory has its three slots. *)
Definition effectsSound (s : GameState) : Prop :=
  let a := activePowerUps s in
  length (powerUps s) = 3%nat
  /\ (slowMo_active (slowMo a) = true /\ 0 < duration (slowMo a)
      \/ slowMo a = mkSlowMo false 0)
  /\ (safetyNet a = mkSafetyNet true 1 \/ safetyNet a = mkSafetyNet false 0)
  /\ (superSize a = mkSuperSize true 2 \/ superSize a = mkSuperSize true 1
      \/ superSize a = mkSuperSize false 0).

(** The block moves one way or the other, at a speed between the
    slowest start and the fastest cap of the difficulty table. *)
Definition motionSound (s : GameState) : Prop :=
  (direction s = 1 \/ direction s = -1) /\ 0.12 <= speed s <= 0.7.

Definition playInv (s : GameState) : Prop :=
  effectsSound s /\ motionSound s.

(** ** The course of a session *)

(** What spawnNewBlock writes when it succeeds. *)
Definition spawnedWith (t : Q) (mesh : Block) (dir : Q) (s : GameState)
    : GameState :=
  set_lastSpawnTime t
    (set_activeBlock (Some mesh)
       (set_direction dir (set_axis (otherAxis (axis s)) s))).

(** What the common tail of a placement writes before it spawns. *)
Definition pushedWith (placed : Block) (s : GameState) : GameState :=
  render
    (set_speed
       (Qmin (max (DIFFICULTIES (difficulty s)))
          (speed s + inc (DIFFICULTIES (difficulty s))))
       (set_score (score s + 1)%Z
          (set_activeBlock None (set_stack (stack s ++ [placed]) s)))).

(** The height at which the block on top of [n] others sits. *)
Definition levelOf (n : nat) : Q :=
  inject_Z (Z.of_nat n) * CONFIG.BLOCK_HEIGHT + CONFIG.BLOCK_HEIGHT / 2.

(** Block number [i] of the stack sits at level [i], and the moving
    block one level above the top. *)
Definition levelsSound (s : GameState) : Prop :=
  (forall (i : nat) (b : Block),
     stack s !! i = Some b -> vy (position b) == levelOf i)
  /\ (forall b : Block,
        activeBlock s = Some b ->
        vy (position b) == levelOf (length (stack s))).

(** The screen is the one [render] draws for the state. *)
Definition screenFresh (s : GameState) : Prop := ui s = ui (render s).

(** On the game-over screen the records are at least the session's. *)
Definition bestSound (s : GameState) : Prop :=
  status s = GAMEOVER ->
  (score s <= bestScore s)%Z /\ (maxSessionCombo s <= bestStreak s)%Z.

Definition comboSound (s : GameState) : Prop :=
  (0 <= combo s <= maxSessionCombo s)%Z
  /\ (combo s <= score s)%Z
  /\ (0 <= lastComboMilestone s <= maxSessionCombo s)%Z.

(** Without a moving block the application is on the start screen with
    at most the foundation laid. *)
Definition blockInPlay (s : GameState) : Prop :=
  activeBlock s = None -> status s = START /\ (length (stack s) <= 1)%nat.

Definition sessionInv (s : GameState) : Prop :=
  tallyInv s /\ (0 <= score s)%Z /\ levelsSound s /\ screenFresh s
  /\ bestSound s /\ comboSound s /\ blockInPlay s.

(** Two blocks at the same height; two optional blocks likewise. *)
Definition sameLevel (b b' : Block) : Prop :=
  vy (position b') = vy (position b).

Definition sameLevelOpt (o o' : option Block) : Prop :=
  match o, o' with
  | None, None => True
  | Some b, Some b' => sameLevel b b'
  | _, _ => False
  end.

(** ** One physics step of a rubble fragment *)

(** What the frame's rubble loop makes of an active slot: it falls,
    accelerates and turns, and is switched off once below -120. *)
Definition rubbleFall (dt : Q) (r : RubbleSlot) : RubbleSlot :=
  let p := rposition r in
  let v := velocity r in
  let w := angularVelocity r in
  let o := rotation r in
  let p := mkVector3 (vx p) (vy p + vy v * (dt * 5)) (vz p) in
  let v := mkVector3 (vx v) (vy v - 25 * dt) (vz v) in
  let o :=
    mkVector3 (vx o + vx w * dt) (vy o + vy w * dt) (vz o + vz w * dt) in
  mkRubbleSlot (negb (Qltb (vy p) (-120))) p o (scale r) v w.

(** ** The footprint of a box on an axis *)



(** ** storage.js: the settings kept in localStorage *)

Module STORAGE_KEYS.
Definition best : string := "stack_best".
Definition bestStreak : string := "stack_best_streak".
Definition muted : string := "stack_muted".
Definition theme : string := "stack_theme".
Definition difficulty : string := "stack_difficulty".
End STORAGE_KEYS.

(** The browser's store: its entries, whether every access is refused
    (storage disabled: [getItem] and [setItem] throw), and whether it
    is out of quota ([setItem] throws). *)
Record LocalStorage : Type := mkLocalStorage {
  items : gmap string string;
  denied : bool;
  full : bool
}.

(** [None] stands for a thrown exception, [Some None] for [null]. *)
Definition getItem (k : string) (st : LocalStorage) : option (option string) :=
  if denied st then None else Some (items st !! k).

Definition setItem (k v : string) (st : LocalStorage) : option LocalStorage :=
  if denied st || full st then None
  else Some (mkLocalStorage (<[k := v]> (items st)) (denied st) (full st)).

(** [try { localStorage.setItem(k, v) } catch (e) { console.warn(...) }] *)
Definition persist (k v : string) (st : LocalStorage) : LocalStorage :=
  match setItem k v st with Some st' => st' | None => st end.

(** A string is falsy when it is empty. *)
Definition truthy (v : string) : bool := negb (String.eqb v EmptyString).

(** The names [DIFFICULTIES[d]] is defined for: its three keys, and the
    properties every object inherits from [Object.prototype]. *)
Definition difficultyNames : list string := ["easy"; "medium"; "hard"].

Definition inheritedNames : list string :=
  [ "constructor"; "__defineGetter__"; "__defineSetter__"; "hasOwnProperty";
    "__lookupGetter__"; "__lookupSetter__"; "isPrototypeOf";
    "propertyIsEnumerable"; "toString"; "valueOf"; "__proto__";
    "toLocaleString" ].

Definition hasDifficulty (d : string) : bool :=
  existsb (String.eqb d) (difficultyNames ++ inheritedNames).

Definition loadDifficulty (st : LocalStorage) : string :=
  match getItem STORAGE_KEYS.difficulty st with
  | Some (Some d) => if truthy d && hasDifficulty d then d else "medium"
  | Some None => "medium"
  | None => "medium"
  end.

Definition persistDifficulty (difficulty : string) (st : LocalStorage)
    : LocalStorage :=
  persist STORAGE_KEYS.difficulty difficulty st.

Record Theme : Type := mkTheme {
  theme_id : string;
  theme_name : string;
  theme_unlock : Z
}.

Definition THEMES : list Theme :=
  [ mkTheme "neon" "NEON" 0; mkTheme "cyber" "CYBER" 15;
    mkTheme "emerald" "EMERALD" 30; mkTheme "ocean" "OCEAN" 50;
    mkTheme "sunset" "SUNSET" 75; mkTheme "ruby" "RUBY" 100;
    mkTheme "purple" "PURPLE" 125; mkTheme "ghost" "GHOST" 150;
    mkTheme "matrix" "MATRIX" 200; mkTheme "fire" "FIRE" 250 ].

(** [THEMES[0]] *)
Definition firstTheme : Theme := mkTheme "neon" "NEON" 0.

Definition loadThemeId (st : LocalStorage) : string :=
  match getItem STORAGE_KEYS.theme st with
  | Some (Some id) => if truthy id then id else theme_id firstTheme
  | Some None => theme_id firstTheme
  | None => theme_id firstTheme
  end.

Definition pickThemeById (id : string) : Theme :=
  default firstTheme (find (fun t => String.eqb (theme_id t) id) THEMES).

Definition persistTheme (themeId : string) (st : LocalStorage) : LocalStorage :=
  persist STORAGE_KEYS.theme themeId st.

Definition persistMuted (isMuted : bool) (st : LocalStorage) : LocalStorage :=
  persist STORAGE_KEYS.muted (if isMuted then "true" else "false") st.

Definition loadMuted (st : LocalStorage) : bool :=
  match getItem STORAGE_KEYS.muted st with
  | Some (Some v) => String.eqb v "true"
  | Some None => false
  | None => false
  end.

(** The read of the mute flag in [init()] of main-vr.js, which is not
    guarded: [localStorage.getItem('isMuted') === 'true']. *)
Definition initMuted (st : LocalStorage) : option bool :=
  match getItem "isMuted" st with
  | Some (Some v) => Some (String.eqb v "true")
  | Some None => Some false
  | None => None
  end.

Definition loadTutorialSeen (st : LocalStorage) : bool :=
  match getItem "hasSeenTutorial" st with
  | Some (Some v) => String.eqb v "true"
  | Some None => false
  | None => false
  end.

Definition persistTutorialSeen (st : LocalStorage) : LocalStorage :=
  persist "hasSeenTutorial" "true" st.

(** ** utils.js *)

(** reconcileThemeUnlock on the two fields of the state it uses. *)
Definition reconcileThemeUnlock (bestScore : Z) (currentTheme : Theme)
    (st : LocalStorage) : Theme * LocalStorage :=
  if (bestScore <? theme_unlock currentTheme)%Z then
    let firstUnlocked :=
      default firstTheme
        (find (fun t => (theme_unlock t <=? bestScore)%Z) THEMES) in
    (firstUnlocked, persistTheme (theme_id firstUnlocked) st)
  else (currentTheme, st).

(** ** admob.js *)

Record AdMobService : Type := mkAdMobService {
  admob : bool;
  interstitialReady : bool;
  rewardedReady : bool;
  adCounter : Z
}.

(** [new AdMobService()] *)
Definition newAdMobService (available : bool) : AdMobService :=
  mkAdMobService available false false 0.

Definition shouldShowInterstitial (a : AdMobService) : bool * AdMobService :=
  let c := (adCounter a + 1)%Z in
  if (3 <=? c)%Z
  then (true, mkAdMobService (admob a) (interstitialReady a) (rewardedReady a) 0)
  else (false, mkAdMobService (admob a) (interstitialReady a) (rewardedReady a) c).

(** [n] calls in a row: the answers, first call first, and the service
    they leave. *)
Fixpoint interstitialAnswers (n : nat) (a : AdMobService)
    : list bool * AdMobService :=
  match n with
  | O => ([], a)
  | S n' =>
      let (r, a) := shouldShowInterstitial a in
      let (rs, a) := interstitialAnswers n' a in
      (r :: rs, a)
  end.

(** ** storage.js: the best scores *)

(** [String(n)] of an integer (exact below 2^53, where a number holds
    every integer): its decimal digits, with a minus sign below 0. *)
Definition numberToString (n : Z) : string :=
  NilZero.string_of_int (Z.to_int n).

Definition isWhiteSpace (c : ascii) : bool :=
  match c with
  | " "%char | "009"%char | "010"%char | "011"%char | "012"%char
  | "013"%char => true
  | _ => false
  end.

Definition isDigit (c : ascii) : bool :=
  match c with
  | "0"%char | "1"%char | "2"%char | "3"%char | "4"%char | "5"%char
  | "6"%char | "7"%char | "8"%char | "9"%char => true
  | _ => false
  end.

Fixpoint skipWhiteSpace (v : string) : string :=
  match v with
  | String c r => if isWhiteSpace c then skipWhiteSpace r else v
  | EmptyString => v
  end.

Fixpoint digitPrefix (v : string) : string :=
  match v with
  | String c r => if isDigit c then String c (digitPrefix r) else EmptyString
  | EmptyString => EmptyString
  end.

(** [parseInt(v, 10)]: leading white space is skipped, a sign is read,
    then the longest run of digits; [None] stands for [NaN]. *)
Definition parseInt (v : string) : option Z :=
  let v := skipWhiteSpace v in
  let (negative, v) :=
    match v with
    | String "-" r => (true, r)
    | String "+" r => (false, r)
    | _ => (false, v)
    end in
  match digitPrefix v with
  | EmptyString => None
  | ds =>
      match NilEmpty.uint_of_string ds with
      | Some u => Some (if negative then - Z.of_uint u else Z.of_uint u)%Z
      | None => None
      end
  end.

(** [v || '0'] on the result of [getItem]. *)
Definition orZero (v : option string) : string :=
  match v with
  | Some v => if truthy v then v else "0"
  | None => "0"
  end.

Definition persistBestScores (bestScore bestStreak : Z) (st : LocalStorage)
    : LocalStorage :=
  match setItem STORAGE_KEYS.best (numberToString bestScore) st with
  | Some st1 =>
      match
        setItem STORAGE_KEYS.bestStreak (numberToString bestStreak) st1
      with
      | Some st2 => st2
      | None => st1
      end
  | None => st
  end.

Definition loadBestScores (st : LocalStorage) : option Z * option Z :=
  match getItem STORAGE_KEYS.best st with
  | Some best =>
      match getItem STORAGE_KEYS.bestStreak st with
      | Some streak => (parseInt (orZero best), parseInt (orZero streak))
      | None => (Some 0%Z, Some 0%Z)
      end
  | None => (Some 0%Z, Some 0%Z)
  end.

(** ** The rewarded continue through the ad SDK *)

Module Rewarded.

(** The rewarded-video side of [adMobService] and of the SDK object
    [window.admob] behind it. The SDK is no part of the repository: of
    it the model keeps whether it is there, and the pairs of listeners
    (rewardHandler, closeHandler) that showRewarded has added to it and
    that are not removed yet. An SDK event runs every listener added
    for it. *)
Record t : Type := mk {
  admob : bool;
  rewardedReady : bool;
  listeners : nat
}.

End Rewarded.

(** The game state together with the rewarded-video service. *)
Record App : Type := mkApp {
  game : GameState;
  ads : Rewarded.t
}.

(** [adMobService.showRewarded(() => continueGame(state, uiManager))]:
    without the SDK, or with no video ready, the callback runs at once;
    otherwise one more pair of listeners is added and the video is
    shown. *)
Definition showRewarded (a : App) : App :=
  if negb (Rewarded.admob (ads a)) || negb (Rewarded.rewardedReady (ads a))
  then mkApp (continueGame (game a)) (ads a)
  else
    mkApp (game a)
      (Rewarded.mk (Rewarded.admob (ads a)) (Rewarded.rewardedReady (ads a))
         (S (Rewarded.listeners (ads a)))).

(** One [rewardHandler]: it runs the callback, clears [rewardedReady]
    and removes its pair. *)
Definition rewardHandler (a : App) : App :=
  mkApp (continueGame (game a))
    (Rewarded.mk (Rewarded.admob (ads a)) false
       (pred (Rewarded.listeners (ads a)))).

(** One [closeHandler]: it removes its pair. *)
Definition closeHandler (a : App) : App :=
  mkApp (game a)
    (Rewarded.mk (Rewarded.admob (ads a)) (Rewarded.rewardedReady (ads a))
       (pred (Rewarded.listeners (ads a)))).

(** [prepareRewarded] finishing, with or without a video. *)
Definition prepareRewarded (ok : bool) (a : App) : App :=
  if Rewarded.admob (ads a)
  then
    mkApp (game a)
      (Rewarded.mk (Rewarded.admob (ads a)) ok (Rewarded.listeners (ads a)))
  else a.

(** What happens to the application: a handler of the page runs, or
    the SDK reports that the reward is earned, that the video was
    closed, or that the next video is prepared. *)
Inductive AppEvent : Type :=
  | Window (ev : Event)
  | OnRewardedVideoAdRewarded
  | OnRewardedVideoAdClosed
  | RewardedPrepared (ok : bool).

(** A button can be pressed if it is on the screen; the SDK reports on
    a video only to listeners, and on a preparation only if it is
    there. *)
Definition appOffered (ev : AppEvent) (a : App) : bool :=
  match ev with
  | Window ev => offered ev (game a)
  | OnRewardedVideoAdRewarded | OnRewardedVideoAdClosed =>
      Rewarded.admob (ads a) && (0 <? Rewarded.listeners (ads a))%nat
  | RewardedPrepared _ => Rewarded.admob (ads a)
  end.

(** The press on the continue button calls showRewarded; the flag of
    [GameContinueWithAd] is not read here, the answer being the SDK's. *)
Definition appHandle (g : Engine) (ev : AppEvent) (a : App) : App :=
  match ev with
  | Window (GameContinueWithAd _) => showRewarded a
  | Window ev => mkApp (handle g ev (game a)) (ads a)
  | OnRewardedVideoAdRewarded =>
      Nat.iter (Rewarded.listeners (ads a)) rewardHandler a
  | OnRewardedVideoAdClosed =>
      Nat.iter (Rewarded.listeners (ads a)) closeHandler a
  | RewardedPrepared ok => prepareRewarded ok a
  end.

(** [init()] with the ad service: [adMobService.init()] finds the SDK or
    not and, with it, prepares the first video. *)
Definition appBoot (best streak : Z) (d : Difficulty) (sdk ready : bool)
    : App :=
  mkApp (boot best streak d) (Rewarded.mk sdk (sdk && ready) 0).

(** The states of the application with the ad service, the engine
    being the one of [reachable]. *)
Inductive appReachable : App -> Prop :=
  | app_boot (best streak : Z) (d : Difficulty) (sdk ready : bool) :
      appReachable (appBoot best streak d sdk ready)
  | app_step (ev : AppEvent) (a : App) :
      appReachable a -> appOffered ev a = true ->
      appReachable (appHandle engineReady ev a).

Module SampleApp.

(** With the SDK and a video ready: a new game and a drop that
    misses. *)
Definition over : App :=
  fold_left (fun a ev => appHandle engineReady ev a)
    [ Window (GameStartNew 1000 0.7); Window (Input 3999 (Sample.env 4000)) ]
    (appBoot 0 0 medium true true).

(** The continue button pressed twice on that game-over screen. *)
Definition pressedTwice : App :=
  fold_left (fun a ev => appHandle engineReady ev a)
    [ Window (GameContinueWithAd true); Window (GameContinueWithAd true) ]
    over.

(** The reward of the video arrives. *)
Definition rewarded : App :=
  appHandle engineReady OnRewardedVideoAdRewarded pressedTwice.

End SampleApp.

(** * Properties *)

Arguments overlapOf : simpl never.
Arguments roundedDelta : simpl never.
Arguments trimmedBlock : simpl never.
Arguments snappedBlock : simpl never.
Arguments mercyThreshold : simpl never.
Arguments inGracePeriod : simpl never.
Arguments js_or : simpl never.
Arguments sign : simpl never.
Arguments Qltb : simpl never.
Arguments advanced : simpl never.
Arguments Qle : simpl never.
Arguments Qlt : simpl never.
Arguments Qeq : simpl never.
Arguments Qabs : simpl never.

Ltac splits := repeat match goal with |- _ /\ _ => split end.

(** Case analysis on an innermost test of the goal. *)
Ltac case_if :=
  match goal with
  | |- context [if ?c then _ else _] =>
      lazymatch c with
      | context [if _ then _ else _] => fail
      | _ => destruct c eqn:?
      end
  end.

(** Closed side conditions on sample states, settled by evaluation. *)
Ltac by_compute :=
  vm_compute;
  first [ reflexivity | discriminate | (intros [? _]; discriminate) ].

(** ** Comparisons *)

Lemma Qltb_true (a b : Q) : Qltb a b = true <-> a < b.
Proof.
  unfold Qltb. rewrite negb_true_iff, <- not_true_iff_false, Qle_bool_iff.
  split; intros H; lra.
Qed.

Lemma Qltb_false (a b : Q) : Qltb a b = false <-> b <= a.
Proof.
  unfold Qltb. rewrite negb_false_iff, Qle_bool_iff. reflexivity.
Qed.

Lemma Qle_bool_false (a b : Q) : Qle_bool a b = false <-> b < a.
Proof.
  rewrite <- not_true_iff_false, Qle_bool_iff. split; intros H; lra.
Qed.

Lemma Qeq_bool_false (a b : Q) : Qeq_bool a b = false <-> ~ a == b.
Proof. rewrite <- not_true_iff_false, Qeq_bool_iff. reflexivity. Qed.

(** ** The guards of placeBlock *)

(** Claim C9: placeBlock returns with the state unchanged, raising no
    error, when there is no active block, or when less than 2000 ms
    have elapsed since the spawn timestamp of the active block. The
    timestamp is the reading of [performance.now()] that spawnNewBlock
    recorded, a positive number of milliseconds. *)
Theorem placeBlock_guard_noop (g : Engine) (e : Env) (s : GameState) :
  activeBlock s = None
  \/ (0 < lastSpawnTime s /\ now e - lastSpawnTime s < 2000) ->
  placeBlock g e s = Ret s.
Proof.
  intros [Hnone | [Hset Hlt]]; unfold placeBlock.
  - rewrite Hnone. reflexivity.
  - destruct (activeBlock s); [| reflexivity].
    unfold inGracePeriod.
    assert (Hnz : Qeq_bool (lastSpawnTime s) 0 = false)
      by (apply Qeq_bool_false; lra).
    apply Qltb_true in Hlt. rewrite Hnz, Hlt. reflexivity.
Qed.

Lemma placeBlock_guard_noop_witness :
  placeBlock engineReady (Sample.env 1500) Sample.started
  = Ret Sample.started.
Proof.
  apply placeBlock_guard_noop. right.
  split; vm_compute; reflexivity.
Defined.

(** ** A miss *)

Section Miss.

Variables (g : Engine) (e : Env) (s : GameState) (active prev : Block).
Hypothesis Hactive : activeBlock s = Some active.
Hypothesis Hgrace : inGracePeriod (now e) s = false.
Hypothesis Hprev : last (stack s) = Some prev.
Hypothesis Hmiss : overlapOf s active prev <= 0.05.

Lemma placeBlock_miss_unfold :
  placeBlock g e s =
  let net := safetyNet (activePowerUps s) in
  if safetyNet_active net && (0 <? uses net)%Z then
    let u := (uses net - 1)%Z in
    let s :=
      set_safetyNet
        (mkSafetyNet (if (u =? 0)%Z then false else safetyNet_active net) u)
        s in
    let s := set_combo 0%Z s in
    let s := set_flash 0.3 s in
    if scene g then
      spawnNewBlock g (spawnNow e) (rndSpawn e) (set_activeBlock None s)
    else Exn s
  else Ret (gameOver s).
Proof.
  unfold placeBlock. rewrite Hactive, Hgrace, Hprev. cbv zeta.
  apply Qle_bool_iff in Hmiss. rewrite Hmiss. reflexivity.
Qed.

(** The amended form of claim C1: on a miss (overlap at most 0.05)
    with no usable safety net, placeBlock ends the session: status
    becomes GameOver; the active block and the stack are left as they
    were. *)
Theorem placeBlock_miss_ends_session :
  status s = PLAYING ->
  ~ (safetyNet_active (safetyNet (activePowerUps s)) = true
     /\ (0 < uses (safetyNet (activePowerUps s)))%Z) ->
  exists s',
    placeBlock g e s = Ret s'
    /\ status s' = GAMEOVER
    /\ activeBlock s' = Some active
    /\ stack s' = stack s.
Proof.
  intros _ Hnet. exists (gameOver s). rewrite placeBlock_miss_unfold.
  cbv zeta.
  destruct (safetyNet_active (safetyNet (activePowerUps s))
            && (0 <? uses (safetyNet (activePowerUps s)))%Z) eqn:Hb.
  - apply andb_true_iff in Hb as [Ha Hu]. apply Z.ltb_lt in Hu.
    exfalso. apply Hnet. split; assumption.
  - split; [reflexivity |].
    unfold gameOver, render, triggerCrashFeedback, triggerShake. cbv zeta.
    repeat match goal with |- context [if ?c then _ else _] =>
             destruct c end; simpl; auto.
Qed.

(** Claim C1 as stated fails: the missed block is still the active
    block after the session has ended. *)
Lemma placeBlock_miss_keeps_active_block :
  ~ (forall (g : Engine) (e : Env) (s : GameState) (active prev : Block),
       status s = PLAYING ->
       activeBlock s = Some active ->
       inGracePeriod (now e) s = false ->
       last (stack s) = Some prev ->
       overlapOf s active prev <= 0.05 ->
       ~ (safetyNet_active (safetyNet (activePowerUps s)) = true
          /\ (0 < uses (safetyNet (activePowerUps s)))%Z) ->
       status (stateOf (placeBlock g e s)) = GAMEOVER
       /\ activeBlock (stateOf (placeBlock g e s)) = None).
Proof.
  intros H.
  assert (Hnone : activeBlock
                    (stateOf (placeBlock engineReady (Sample.env 4000)
                                Sample.started)) = None).
  { apply (H engineReady (Sample.env 4000) Sample.started
             Sample.firstBlock Sample.foundation);
      try (vm_compute; reflexivity).
    - vm_compute. discriminate.
    - vm_compute. intros [Hx _]. discriminate. }
  vm_compute in Hnone. discriminate.
Qed.

(** Claim C2: on a miss with the safety net active and uses left,
    the session goes on: status stays Playing, combo is 0, one use is
    consumed (the net switching off at 0), the stack is the same, and
    a new active block is spawned at the level above the top of the
    stack, aligned with it across the new motion axis. *)
Theorem placeBlock_miss_safety_net :
  status s = PLAYING ->
  safetyNet_active (safetyNet (activePowerUps s)) = true ->
  (0 < uses (safetyNet (activePowerUps s)))%Z ->
  scene g = true ->
  exists s' b,
    placeBlock g e s = Ret s'
    /\ status s' = PLAYING
    /\ combo s' = 0%Z
    /\ uses (safetyNet (activePowerUps s'))
       = (uses (safetyNet (activePowerUps s)) - 1)%Z
    /\ safetyNet_active (safetyNet (activePowerUps s'))
       = negb (uses (safetyNet (activePowerUps s')) =? 0)%Z
    /\ stack s' = stack s
    /\ activeBlock s' = Some b
    /\ vy (position b)
       == inject_Z (Z.of_nat (length (stack s))) * CONFIG.BLOCK_HEIGHT
          + CONFIG.BLOCK_HEIGHT / 2
    /\ (vy (position prev)
        == inject_Z (Z.of_nat (length (stack s)) - 1) * CONFIG.BLOCK_HEIGHT
           + CONFIG.BLOCK_HEIGHT / 2 ->
        vy (position b) == vy (position prev) + CONFIG.BLOCK_HEIGHT)
    /\ vget (axis s) (position b) = vget (axis s) (position prev)
    /\ axis s' = otherAxis (axis s).
Proof.
  intros Hst Ha Hu Hscene. rewrite placeBlock_miss_unfold. cbv zeta.
  apply Z.ltb_lt in Hu. rewrite Ha, Hu, Hscene. simpl andb. cbv iota.
  unfold spawnNewBlock. simpl. rewrite Hprev, Hscene.
  eexists _, _. split; [reflexivity |]. simpl.
  splits; try assumption; try reflexivity.
  - destruct (axis s); simpl; reflexivity.
  - intros Hp. destruct (axis s); simpl; rewrite Hp;
      unfold CONFIG.BLOCK_HEIGHT;
      unfold Z.sub; rewrite inject_Z_plus, inject_Z_opp;
      change (inject_Z 1) with 1; lra.
  - destruct (axis s); reflexivity.
Qed.

End Miss.

Lemma placeBlock_miss_ends_session_witness :
  exists s',
    placeBlock engineReady (Sample.env 4000) Sample.started = Ret s'
    /\ status s' = GAMEOVER
    /\ activeBlock s' = Some Sample.firstBlock
    /\ stack s' = stack Sample.started.
Proof.
  apply (placeBlock_miss_ends_session engineReady (Sample.env 4000)
           Sample.started Sample.firstBlock Sample.foundation);
    try (vm_compute; reflexivity).
  - vm_compute. discriminate.
  - vm_compute. intros [Hx _]. discriminate.
Defined.

Lemma placeBlock_miss_safety_net_witness :
  exists s' b,
    placeBlock engineReady (Sample.env 5000) Sample.continued = Ret s'
    /\ status s' = PLAYING
    /\ combo s' = 0%Z
    /\ uses (safetyNet (activePowerUps s')) = 0%Z
    /\ safetyNet_active (safetyNet (activePowerUps s')) = false
    /\ stack s' = [Sample.foundation]
    /\ activeBlock s' = Some b
    /\ vy (position b) == 3 # 2.
Proof.
  destruct (placeBlock_miss_safety_net engineReady (Sample.env 5000)
              Sample.continued Sample.firstBlock Sample.foundation
              ltac:(by_compute) ltac:(by_compute) ltac:(by_compute)
              ltac:(by_compute) ltac:(by_compute) ltac:(by_compute)
              ltac:(by_compute) ltac:(by_compute))
    as (s' & b & Hret & Hst & Hcombo & Huses & Hact & Hstack & Hb & Hy & _).
  exists s', b. rewrite Huses in Hact. splits; assumption.
Defined.

(** ** A cut *)

Section Cut.

Variables (g : Engine) (e : Env) (s : GameState) (active prev : Block).
Hypothesis Hactive : activeBlock s = Some active.
Hypothesis Hgrace : inGracePeriod (now e) s = false.
Hypothesis Hprev : last (stack s) = Some prev.
Hypothesis Hlow : 0.05 < overlapOf s active prev.
Hypothesis Hhigh : overlapOf s active prev < sizeOn (axis s) active.



Hypothesis Hscene : scene g = true.
Hypothesis Hinst : rubbleInstances g = true.
Hypothesis Hslot :
  forall idx : nat,
    last (rubbleFree s) = Some idx -> is_Some (rubbleData s !! idx).


End Cut.



(** ** The mercy scenario *)

(** The amended form of claim C6: on medium difficulty with a stack of
    three (within the mercy count 5), combo 0 and the active block 0.2
    off the block below on axis x, placeBlock rounds the offset to 0
    under the 0.35 threshold and places the block perfectly, snapped
    onto the block below; afterwards combo is 1 and the score is one
    more than before, which is 3 when the score counts the blocks above
    the foundation. *)
Theorem placeBlock_mercy_scenario
    (g : Engine) (e : Env) (s : GameState) (active prev : Block) :
  difficulty s = medium ->
  length (stack s) = 3%nat ->
  combo s = 0%Z ->
  axis s = AxisX ->
  activeBlock s = Some active ->
  inGracePeriod (now e) s = false ->
  last (stack s) = Some prev ->
  vx (position active) - vx (position prev) == 0.2 ->
  0.05 < width active ->
  let s' := stateOf (placeBlock g e s) in
  mercyThreshold s = 0.35
  /\ roundedDelta s active prev = 0
  /\ stack s' = stack s ++ [snappedBlock s active prev]
  /\ vx (position (snappedBlock s active prev)) = vx (position prev)
  /\ combo s' = 1%Z
  /\ score s' = (score s + 1)%Z
  /\ ((score s + 1)%Z = Z.of_nat (length (stack s)) -> score s' = 3%Z).
Proof.
  intros Hdiff Hlen Hcombo Haxis Hactive Hgrace Hprev Hdelta Hwidth s'.
  assert (Hth : mercyThreshold s = 0.35).
  { unfold mercyThreshold. rewrite Hdiff, Hlen. reflexivity. }
  assert (Hround : roundedDelta s active prev = 0).
  { unfold roundedDelta. rewrite Hth, Haxis. cbn [vget].
    assert (Hlt : Qltb (Qabs (vx (position active) - vx (position prev)))
                    0.35 = true).
    { apply Qltb_true. rewrite Hdelta. reflexivity. }
    rewrite Hlt. reflexivity. }
  assert (Hov : Qle_bool (overlapOf s active prev) 0.05 = false).
  { apply Qle_bool_false. unfold overlapOf. rewrite Hround, Haxis.
    cbn [sizeOn]. change (Qabs 0) with 0. lra. }
  assert (Hsnap : vx (position (snappedBlock s active prev))
                  = vx (position prev)).
  { unfold snappedBlock. rewrite Haxis. reflexivity. }
  assert (Hscore : stack s' = stack s ++ [snappedBlock s active prev]
                   /\ combo s' = 1%Z /\ score s' = (score s + 1)%Z).
  { subst s'. unfold placeBlock.
    rewrite Hactive, Hgrace, Hprev. cbv zeta. rewrite Hov, Hround.
    change (Qeq_bool 0 0) with true. cbv iota.
    unfold triggerPerfectFeedback, triggerShake, decrementSuperSize,
      pushPlaced, spawnNewBlock.
    cbn. rewrite Hcombo.
    change (0 + 1)%Z with 1%Z. change (5 <=? 1)%Z with false. cbn [andb].
    repeat (case_if; cbn; rewrite ?last_snoc); splits; reflexivity. }
  destruct Hscore as (Hstack & Hc & Hsc).
  splits; try assumption.
  intros Hinv. rewrite Hsc, Hinv, Hlen. reflexivity.
Qed.

Lemma placeBlock_mercy_scenario_witness :
  combo (stateOf (placeBlock engineReady (Sample.env 4000) Sample.scenario))
  = 1%Z
  /\ score (stateOf (placeBlock engineReady (Sample.env 4000) Sample.scenario))
     = 3%Z
  /\ length
       (stack
          (stateOf (placeBlock engineReady (Sample.env 4000) Sample.scenario)))
     = 4%nat.
Proof.
  destruct (placeBlock_mercy_scenario engineReady (Sample.env 4000)
              Sample.scenario Sample.scenarioBlock Sample.scenarioTop
              ltac:(by_compute) ltac:(by_compute) ltac:(by_compute)
              ltac:(by_compute) ltac:(by_compute) ltac:(by_compute)
              ltac:(by_compute) ltac:(by_compute) ltac:(by_compute))
    as (_ & _ & Hstack & _ & Hc & _ & Hsc).
  splits.
  - exact Hc.
  - apply Hsc. by_compute.
  - rewrite Hstack, length_app. reflexivity.
Defined.

(** Claim C6 as stated fails: the score after the placement is the score
    before plus one, and that is 3, not 4, on a stack of three. *)
Lemma placeBlock_mercy_scenario_score :
  ~ (forall (g : Engine) (e : Env) (s : GameState) (active prev : Block),
       difficulty s = medium ->
       length (stack s) = 3%nat ->
       combo s = 0%Z ->
       axis s = AxisX ->
       activeBlock s = Some active ->
       inGracePeriod (now e) s = false ->
       last (stack s) = Some prev ->
       vx (position active) - vx (position prev) == 0.2 ->
       0.05 < width active ->
       combo (stateOf (placeBlock g e s)) = 1%Z
       /\ score (stateOf (placeBlock g e s)) = 4%Z).
Proof.
  intros H.
  destruct (H engineReady (Sample.env 4000) Sample.scenario
              Sample.scenarioBlock Sample.scenarioTop
              ltac:(by_compute) ltac:(by_compute) ltac:(by_compute)
              ltac:(by_compute) ltac:(by_compute) ltac:(by_compute)
              ltac:(by_compute) ltac:(by_compute) ltac:(by_compute))
    as [_ Hscore].
  vm_compute in Hscore. discriminate.
Qed.

(** ** The frame callback *)

Lemma sign_bound (p : Q) : 13 < Qabs p -> Qabs (13 * sign p) == 13.
Proof.
  intros H. unfold sign.
  destruct (Qltb 0 p) eqn:Hpos; [reflexivity |].
  destruct (Qltb p 0) eqn:Hneg; [reflexivity |].
  apply Qltb_false in Hpos, Hneg.
  assert (Hz : p == 0) by lra. rewrite Hz in H. discriminate H.
Qed.

Lemma vget_vset (a : Axis) (q : Q) (v : Vector3) : vget a (vset a q v) = q.
Proof. destruct a; reflexivity. Qed.

Lemma updatePowerUpTimers_frame (dt : Q) (s : GameState) :
  exists m, updatePowerUpTimers dt s = set_slowMo m s.
Proof.
  unfold updatePowerUpTimers.
  repeat case_if; eauto.
  all: exists (slowMo (activePowerUps s)); destruct s as [];
    destruct activePowerUps0; reflexivity.
Qed.

(** One movement update: the block stays the active block, its
    coordinate on the motion axis is within 13 of the origin, and past
    13 it is put on the boundary and the direction is negated. *)
Lemma moveActiveBlock_step (dt : Q) (s : GameState) (b : Block) :
  status s = PLAYING ->
  activeBlock s = Some b ->
  exists b',
    activeBlock (moveActiveBlock dt s) = Some b'
    /\ status (moveActiveBlock dt s) = PLAYING
    /\ axis (moveActiveBlock dt s) = axis s
    /\ Qabs (vget (axis s) (position b')) <= 13
    /\ (13 < Qabs (advanced dt s b) ->
        vget (axis s) (position b') = 13 * sign (advanced dt s b)
        /\ Qabs (vget (axis s) (position b')) == 13
        /\ direction (moveActiveBlock dt s) = direction s * -1)
    /\ (Qabs (advanced dt s b) <= 13 ->
        vget (axis s) (position b') = advanced dt s b
        /\ direction (moveActiveBlock dt s) = direction s).
Proof.
  intros Hst Hb. unfold moveActiveBlock. rewrite Hst, Hb. cbv zeta.
  destruct (updatePowerUpTimers_frame dt s) as [m ->].
  destruct (Qltb 13 (Qabs (advanced dt s b))) eqn:Hout.
  - apply Qltb_true in Hout. eexists. split; [reflexivity |].
    cbn. rewrite vget_vset.
    splits; try reflexivity; try assumption.
    + rewrite sign_bound by assumption. discriminate.
    + intros _. splits; [reflexivity | apply sign_bound; assumption
                        | reflexivity].
    + intros Hin. lra.
  - apply Qltb_false in Hout. eexists. split; [reflexivity |].
    cbn. rewrite vget_vset.
    splits; try reflexivity; try assumption.
    + intros Hin. lra.
    + intros _. split; reflexivity.
Qed.

(** The rubble loop writes the pool and nothing else. *)
Lemma rubbleStep_pool (g : Engine) (dt : Q) (a : nat) (s : GameState) :
  exists d f l, stateOf (rubbleStep g dt a s) = withPool d f l s.
Proof.
  assert (Hid : s = withPool (rubbleData s) (rubbleFree s) (rubbleActive s) s)
    by (destruct s; reflexivity).
  unfold rubbleStep.
  destruct (rubbleActive s !! a) as [i |]; [| eauto].
  destruct (rubbleData s !! i) as [r |]; [| eauto].
  cbv zeta. repeat case_if; cbn [stateOf]; eexists _, _, _; reflexivity.
Qed.

Lemma rubbleLoop_pool (g : Engine) (dt : Q) (k : nat) (s : GameState) :
  exists d f l, stateOf (rubbleLoop g dt k s) = withPool d f l s.
Proof.
  revert s. induction k as [| a IH]; intros s.
  - exists (rubbleData s), (rubbleFree s), (rubbleActive s).
    destruct s; reflexivity.
  - cbn [rubbleLoop].
    destruct (rubbleStep_pool g dt a s) as (d & f & l & Hstep).
    destruct (rubbleStep g dt a s) as [s1 | s1]; cbn [andThen stateOf] in *.
    + destruct (IH s1) as (d' & f' & l' & Hloop).
      rewrite Hloop, Hstep. eexists _, _, _. reflexivity.
    + eauto.
Qed.

(** What a frame does before it moves the block leaves the block, the
    status and the motion parameters alone. *)
Lemma animate_unfold (g : Engine) (time : Q) (s : GameState) :
  exists s0 d f l,
    stateOf (animate g time s)
    = withPool d f l (moveActiveBlock (frameDt time s) s0)
    /\ status s0 = status s /\ activeBlock s0 = activeBlock s
    /\ axis s0 = axis s.
Proof.
  unfold animate, updateRubble. cbv zeta.
  match goal with
  | |- context [moveActiveBlock ?dt ?s0] =>
      destruct (rubbleLoop_pool g (frameDt time s)
                  (length (rubbleActive (moveActiveBlock dt s0)))
                  (moveActiveBlock dt s0)) as (d & f & l & Hloop);
      exists s0, d, f, l
  end.
  split; [exact Hloop |].
  unfold applyFlash, applyShake. repeat case_if; splits; reflexivity.
Qed.

(** The multiplier a movement update of time step [dt] applies: one
    half while slow-mo is on and outlasts the step, one otherwise. *)
Lemma multiplier_after_timers (dt : Q) (s : GameState) :
  getSpeedMultiplier (updatePowerUpTimers dt s)
  = let sm := slowMo (activePowerUps s) in
    if slowMo_active sm && Qltb 0 (duration sm) && Qltb dt (duration sm)
    then 0.5 else 1.
Proof.
  unfold getSpeedMultiplier, updatePowerUpTimers. cbv zeta.
  destruct (slowMo_active (slowMo (activePowerUps s))) eqn:Hon;
    cbn [andb]; [| rewrite Hon; reflexivity].
  destruct (Qltb 0 (duration (slowMo (activePowerUps s)))) eqn:Hpos;
    cbn [andb]; [| rewrite Hon, Hpos; reflexivity].
  destruct (Qle_bool (duration (slowMo (activePowerUps s)) - dt) 0) eqn:Hend.
  - apply Qle_bool_iff in Hend.
    replace (Qltb dt (duration (slowMo (activePowerUps s)))) with false
      by (symmetry; apply Qltb_false; lra).
    destruct s as []. match goal with a : ActivePowerUps |- _ => destruct a end.
    reflexivity.
  - apply Qle_bool_false in Hend.
    assert (Hlt : Qltb dt (duration (slowMo (activePowerUps s))) = true)
      by (apply Qltb_true; lra).
    rewrite Hlt.
    assert (Hrest : Qltb 0 (duration (slowMo (activePowerUps s)) - dt) = true)
      by (apply Qltb_true; lra).
    destruct s as []. match goal with a : ActivePowerUps |- _ => destruct a end.
    cbn in *. rewrite Hrest. reflexivity.
Qed.

Lemma moveActiveBlock_speed (dt : Q) (s : GameState) :
  speed (moveActiveBlock dt s) = speed s.
Proof.
  unfold moveActiveBlock.
  destruct (status s); try reflexivity.
  destruct (activeBlock s); [| reflexivity]. cbv zeta.
  destruct (updatePowerUpTimers_frame dt s) as [m ->].
  case_if; reflexivity.
Qed.

(** One movement update, with the step spelled out. *)
Lemma moveActiveBlock_law (dt : Q) (s : GameState) (b : Block) :
  status s = PLAYING ->
  activeBlock s = Some b ->
  let sm := slowMo (activePowerUps s) in
  let m :=
    if slowMo_active sm && Qltb 0 (duration sm) && Qltb dt (duration sm)
    then 0.5 else 1 in
  let p := vget (axis s) (position b) + direction s * speed s * m * (dt * 60) in
  exists b',
    activeBlock (moveActiveBlock dt s) = Some b'
    /\ status (moveActiveBlock dt s) = PLAYING
    /\ axis (moveActiveBlock dt s) = axis s
    /\ speed (moveActiveBlock dt s) = speed s
    /\ Qabs (vget (axis s) (position b')) <= 13
    /\ (Qabs p <= 13 ->
        vget (axis s) (position b') = p
        /\ direction (moveActiveBlock dt s) = direction s)
    /\ (13 < Qabs p ->
        vget (axis s) (position b') = 13 * sign p
        /\ Qabs (vget (axis s) (position b')) == 13
        /\ direction (moveActiveBlock dt s) = direction s * -1).
Proof.
  intros Hst Hb sm m p.
  assert (Hp : advanced dt s b = p).
  { unfold advanced. rewrite multiplier_after_timers. reflexivity. }
  destruct (moveActiveBlock_step dt s b Hst Hb)
    as (b' & Hb' & Hst' & Hax & Hle & Hout & Hin).
  rewrite Hp in Hout, Hin.
  exists b'. splits; try assumption.
  apply moveActiveBlock_speed.
Qed.

Lemma Qabs_gt_13 (p : Q) : 13 < Qabs p -> 13 < p \/ p < -13.
Proof. apply Qabs_case; intros; lra. Qed.

Lemma Qabs_le_13 (p : Q) : Qabs p <= 13 <-> -13 <= p <= 13.
Proof. apply Qabs_case; intros; split; intros; lra. Qed.

Lemma moves_nil (s : GameState) : moves [] s = s.
Proof. reflexivity. Qed.

Lemma moves_cons (dt : Q) (dts : list Q) (s : GameState) :
  moves (dt :: dts) s = moves dts (moveActiveBlock dt s).
Proof. reflexivity. Qed.

Lemma sign_pos (p : Q) : 0 < p -> sign p = 1.
Proof. intros H. unfold sign. apply Qltb_true in H. rewrite H. reflexivity. Qed.

Lemma sign_neg (p : Q) : p < 0 -> sign p = -1.
Proof.
  intros H. unfold sign.
  replace (Qltb 0 p) with false by (symmetry; apply Qltb_false; lra).
  apply Qltb_true in H. rewrite H. reflexivity.
Qed.

(** Moving at speed [v > 0] in steps of at least [eps > 0], a block
    that is [k] minimal steps away from the boundary ahead is put on it,
    and turned, within [k + 1] updates. *)
Lemma turn_within (eps : Q) (k : nat) :
  0 < eps ->
  forall (s : GameState) (b : Block) (dts : list Q),
    status s = PLAYING ->
    activeBlock s = Some b ->
    direction s == 1 \/ direction s == -1 ->
    0 < speed s ->
    Qabs (vget (axis s) (position b)) <= 13 ->
    13 - direction s * vget (axis s) (position b)
    <= inject_Z (Z.of_nat k) * (30 * speed s * eps) ->
    (k < length dts)%nat ->
    Forall (fun dt => eps <= dt) dts ->
    exists (n : nat) (b' : Block),
      (0 < n <= S k)%nat
      /\ activeBlock (moves (take n dts) s) = Some b'
      /\ status (moves (take n dts) s) = PLAYING
      /\ axis (moves (take n dts) s) = axis s
      /\ speed (moves (take n dts) s) = speed s
      /\ vget (axis s) (position b') == 13 * direction s
      /\ direction (moves (take n dts) s) == - direction s.
Proof.
  intros Heps. induction k as [| k IH];
    intros s b dts Hst Hb Hdir Hv Hx Hgap Hlen Hall.
  all: destruct dts as [| dt rest]; [cbn in Hlen; lia |].
  all: apply Forall_cons in Hall as [Hdt Hrest].
  all: destruct (moveActiveBlock_law dt s b Hst Hb)
         as (b1 & Hb1 & Hst1 & Hax1 & Hv1 & Hle1 & Hin & Hout).
  all: cbv zeta in Hin, Hout.
  all: set (m := if slowMo_active (slowMo (activePowerUps s))
                    && Qltb 0 (duration (slowMo (activePowerUps s)))
                    && Qltb dt (duration (slowMo (activePowerUps s)))
                 then 0.5 else 1) in *.
  all: assert (Hm : m = 0.5 \/ m = 1) by (subst m; case_if; auto).
  all: set (x := vget (axis s) (position b)) in *.
  all: set (v := speed s) in *.
  all: apply Qabs_le_13 in Hx.
  all: assert (Hstep : 30 * v * eps <= v * m * (dt * 60))
         by (destruct Hm as [-> | ->]; nra).
  all: assert (Hmin : 0 < 30 * v * eps) by nra.
  all: assert (Hq : direction s * v * m * (dt * 60)
                   == direction s * (v * m * (dt * 60))) by ring.
  all: remember (v * m * (dt * 60)) as w eqn:Hw.
  all: remember (x + direction s * v * m * (dt * 60)) as p eqn:Hp.
  all: assert (Hpw : p == x + direction s * w) by (rewrite Hp, Hq; reflexivity).
  all: destruct (Qlt_le_dec 13 (Qabs p)) as [Hpast | Hwithin].
  (* past the boundary: the turn *)
  1, 3: exists 1%nat, b1; cbn [take]; rewrite moves_cons, moves_nil;
        destruct (Hout Hpast) as (Hpos & _ & Hd);
        splits; [lia | lia | assumption | assumption | assumption
                | assumption | |];
        [ rewrite Hpos; apply Qabs_gt_13 in Hpast;
          destruct Hdir as [Hd1 | Hd1]; rewrite Hd1 in Hpw |- *;
          [ rewrite sign_pos by (destruct Hpast; lra); reflexivity
          | rewrite sign_neg by (destruct Hpast; lra); reflexivity ]
        | rewrite Hd; ring ].
  - (* no step to spare, and yet within: impossible *)
    exfalso. apply Qabs_le_13 in Hwithin.
    change (inject_Z (Z.of_nat 0)) with 0 in Hgap.
    destruct Hdir as [Hd1 | Hd1]; rewrite Hd1 in Hpw, Hgap; lra.
  - (* within: one step nearer *)
    destruct (Hin Hwithin) as [Hpos Hd].
    apply Qabs_le_13 in Hwithin.
    assert (Hgap1 :
      13 - direction (moveActiveBlock dt s)
           * vget (axis (moveActiveBlock dt s)) (position b1)
      <= inject_Z (Z.of_nat k) * (30 * speed (moveActiveBlock dt s) * eps)).
    { rewrite Hax1, Hpos, Hd, Hv1. fold v.
      rewrite Nat2Z.inj_succ in Hgap. unfold Z.succ in Hgap.
      rewrite inject_Z_plus in Hgap. change (inject_Z 1) with 1 in Hgap.
      rewrite Hpw.
      destruct Hdir as [Hd1 | Hd1]; rewrite Hd1 in Hgap |- *; lra. }
    destruct (IH (moveActiveBlock dt s) b1 rest Hst1 Hb1
                ltac:(rewrite Hd; exact Hdir)
                ltac:(rewrite Hv1; exact Hv)
                ltac:(rewrite Hax1; exact Hle1)
                Hgap1 ltac:(cbn in Hlen; lia) Hrest)
      as (n & b' & Hn & Hb' & Hst' & Hax' & Hv' & Hpos' & Hd').
    exists (S n), b'. cbn [take]. rewrite moves_cons.
    rewrite Hax1, Hd in Hpos'. rewrite Hd in Hd'.
    rewrite Hax1 in Hax'. rewrite Hv1 in Hv'.
    splits; [lia | lia | assumption ..].
Qed.

Lemma steps_cover (gap delta : Q) :
  0 <= gap -> 0 < delta ->
  gap <= inject_Z (Z.of_nat (Z.to_nat (Qceiling (gap / delta)))) * delta.
Proof.
  intros Hgap Hdelta.
  assert (Hq : 0 <= gap / delta).
  { apply Qle_shift_div_l; [exact Hdelta | lra]. }
  assert (Hc : (0 <= Qceiling (gap / delta))%Z).
  { change 0%Z with (Qceiling 0). apply Qceiling_resp_le. exact Hq. }
  rewrite Z2Nat.id by exact Hc.
  pose proof (Qle_ceiling (gap / delta)) as Hle.
  apply (Qmult_le_compat_r _ _ delta) in Hle; [| lra].
  assert (Heq : gap / delta * delta == gap) by (field; lra).
  rewrite Heq in Hle. exact Hle.
Qed.

(** Claim C10: while the status is Playing and there is an active
    block, a movement update of time step dt carries the block's
    coordinate on the motion axis from x to
    p = x + direction * speed * m * (dt * 60), m being 1/2 while
    slow-mo is on and outlasts the step and 1 otherwise, when p is
    within 13 of the origin, the direction staying as it is; when p is
    past 13 it puts the coordinate at 13 or -13, on the side of p, and
    negates the direction; either way the coordinate is within 13
    afterwards, and so it is after any run of frames. The block goes
    back and forth for ever: with direction 1 or -1, a positive speed
    and time steps of at least eps > 0, from anywhere within 13 a
    bounded number of updates puts the block on the boundary ahead and
    turns it, in a state that is again within 13 with direction 1 or
    -1 and the same speed. *)
Theorem active_block_stays_within_13 :
  (forall (dt : Q) (s : GameState) (b : Block),
     status s = PLAYING ->
     activeBlock s = Some b ->
     let sm := slowMo (activePowerUps s) in
     let m :=
       if slowMo_active sm && Qltb 0 (duration sm) && Qltb dt (duration sm)
       then 0.5 else 1 in
     let p :=
       vget (axis s) (position b) + direction s * speed s * m * (dt * 60) in
     exists b',
       activeBlock (moveActiveBlock dt s) = Some b'
       /\ status (moveActiveBlock dt s) = PLAYING
       /\ axis (moveActiveBlock dt s) = axis s
       /\ speed (moveActiveBlock dt s) = speed s
       /\ Qabs (vget (axis s) (position b')) <= 13
       /\ (Qabs p <= 13 ->
           vget (axis s) (position b') = p
           /\ direction (moveActiveBlock dt s) = direction s)
       /\ (13 < Qabs p ->
           vget (axis s) (position b') = 13 * sign p
           /\ Qabs (vget (axis s) (position b')) == 13
           /\ direction (moveActiveBlock dt s) = direction s * -1))
  /\ (forall (g : Engine) (times : list Q) (s : GameState) (b : Block),
        status s = PLAYING ->
        activeBlock s = Some b ->
        times <> [] ->
        exists b',
          activeBlock (frames g times s) = Some b'
          /\ status (frames g times s) = PLAYING
          /\ Qabs (vget (axis s) (position b')) <= 13)
  /\ (forall (eps : Q) (s : GameState) (b : Block),
        0 < eps ->
        status s = PLAYING ->
        activeBlock s = Some b ->
        direction s == 1 \/ direction s == -1 ->
        0 < speed s ->
        Qabs (vget (axis s) (position b)) <= 13 ->
        exists N : nat,
          forall dts : list Q,
            (N <= length dts)%nat ->
            Forall (fun dt => eps <= dt) dts ->
            exists (n : nat) (b' : Block),
              (0 < n <= N)%nat
              /\ activeBlock (moves (take n dts) s) = Some b'
              /\ status (moves (take n dts) s) = PLAYING
              /\ axis (moves (take n dts) s) = axis s
              /\ speed (moves (take n dts) s) = speed s
              /\ vget (axis s) (position b') == 13 * direction s
              /\ direction (moves (take n dts) s) == - direction s).
Proof.
  splits.
  - exact moveActiveBlock_law.
  - intros g times. induction times as [| t ts IH]; intros s b Hst Hb Hne.
    + congruence.
    + cbn [frames fold_left].
      destruct (animate_unfold g t s) as (s0 & d & f & l & Hs & H1 & H2 & H3).
      rewrite <- H1 in Hst. rewrite <- H2 in Hb.
      destruct (moveActiveBlock_step (frameDt t s) s0 b Hst Hb)
        as (b1 & Hb1 & Hst1 & Hax1 & Hle & _).
      set (s1 := stateOf (animate g t s)) in *.
      assert (Hb1' : activeBlock s1 = Some b1) by (rewrite Hs; exact Hb1).
      assert (Hst1' : status s1 = PLAYING) by (rewrite Hs; exact Hst1).
      assert (Hax1' : axis s1 = axis s)
        by (rewrite Hs; cbn; rewrite Hax1; exact H3).
      destruct ts as [| t' ts'].
      * exists b1. rewrite <- H3. splits; assumption.
      * destruct (IH s1 b1 Hst1' Hb1' ltac:(discriminate))
          as (b' & Hb' & Hst' & Hle').
        exists b'. rewrite <- Hax1'. splits; assumption.
  - intros eps s b Heps Hst Hb Hdir Hv Hx.
    set (gap := 13 - direction s * vget (axis s) (position b)).
    set (delta := 30 * speed s * eps).
    assert (Hdelta : 0 < delta) by (unfold delta; nra).
    assert (Hgap : 0 <= gap).
    { unfold gap. apply Qabs_le_13 in Hx.
      destruct Hdir as [Hd | Hd]; rewrite Hd; lra. }
    exists (S (Z.to_nat (Qceiling (gap / delta)))). intros dts Hlen Hall.
    apply (turn_within eps (Z.to_nat (Qceiling (gap / delta))) Heps
             s b dts Hst Hb Hdir Hv Hx);
      [apply steps_cover; assumption | lia | exact Hall].
Qed.

(** ** The rubble pool *)

Lemma poolWf_poolInv (s : GameState) : poolWf s -> poolInv s.
Proof.
  intros (_ & Hperm & _). split.
  - rewrite <- length_app, Hperm. apply length_seq.
  - assert (Hnd : NoDup (rubbleFree s ++ rubbleActive s)).
    { rewrite Hperm. apply NoDup_seq. }
    apply NoDup_app in Hnd as (_ & Hdisj & _). exact Hdisj.
Qed.

Lemma poolWf_index (s : GameState) (i : nat) :
  poolWf s -> i ∈ rubbleFree s ++ rubbleActive s ->
  (i < length (rubbleData s))%nat.
Proof.
  intros (Hlen & Hperm & _) Hin. rewrite Hperm in Hin.
  apply elem_of_seq in Hin. rewrite Hlen. lia.
Qed.

Lemma poolWf_active_NoDup (s : GameState) : poolWf s -> NoDup (rubbleActive s).
Proof.
  intros (_ & Hperm & _).
  assert (Hnd : NoDup (rubbleFree s ++ rubbleActive s)).
  { rewrite Hperm. apply NoDup_seq. }
  apply NoDup_app in Hnd as (_ & _ & Hnd). exact Hnd.
Qed.

(** Removing position [a] by moving the last element into it. *)
Lemma swapRemove_perm (a i : nat) (l : list nat) :
  l !! a = Some i -> i :: swapRemove a l ≡ₚ l.
Proof.
  intros Ha. unfold swapRemove.
  destruct l as [| y l0 _] using rev_ind; [discriminate |].
  rewrite last_snoc, removelast_last.
  destruct (a <? length l0)%nat eqn:Hlt.
  - apply Nat.ltb_lt in Hlt. rewrite lookup_app_l in Ha by exact Hlt.
    rewrite insert_take_drop by exact Hlt.
    rewrite <- (take_drop_middle l0 a i Ha) at 3.
    rewrite <- !app_assoc. cbn [app].
    rewrite (Permutation_middle (take a l0) _ i).
    apply Permutation_app_head. constructor.
    apply Permutation_cons_append.
  - apply Nat.ltb_ge in Hlt.
    assert (Hlen : (a < length (l0 ++ [y]))%nat)
      by (eapply lookup_lt_Some; exact Ha).
    rewrite length_app in Hlen. cbn in Hlen.
    assert (a = length l0) by lia. subst a.
    rewrite list_lookup_middle in Ha by reflexivity.
    injection Ha as ->. apply Permutation_cons_append.
Qed.

Lemma swapRemove_length (a : nat) (l : list nat) :
  (length l <= S (length (swapRemove a l)))%nat.
Proof.
  unfold swapRemove. destruct l as [| y l0 _] using rev_ind; [cbn; lia |].
  rewrite last_snoc, removelast_last, length_app. cbn.
  case_if; rewrite ?length_insert; lia.
Qed.

(** One iteration of the frame's rubble loop keeps the pool well formed
    and does not throw. *)
Lemma rubbleStep_poolWf (dt : Q) (a : nat) (s : GameState) :
  poolWf s ->
  (a < length (rubbleActive s))%nat ->
  exists s',
    rubbleStep engineReady dt a s = Ret s'
    /\ poolWf s'
    /\ (a <= length (rubbleActive s'))%nat.
Proof.
  intros Hwf Ha.
  destruct (lookup_lt_is_Some_2 _ _ Ha) as [i Hi].
  assert (Hin : i ∈ rubbleActive s) by (eapply list_elem_of_lookup_2; eauto).
  pose proof (poolWf_active_NoDup s Hwf) as Hnd.
  destruct Hwf as (Hlen & Hperm & Hflag).
  destruct (proj1 (Forall_forall _ _) Hflag i Hin) as (r & Hr & Hon).
  unfold rubbleStep. rewrite Hi, Hr, Hon. cbv zeta. cbn [negb].
  pose proof (swapRemove_perm a i _ Hi) as Hsw.
  assert (Hout : i ∉ swapRemove a (rubbleActive s)).
  { rewrite <- Hsw in Hnd. apply NoDup_cons in Hnd as [Hni _]. exact Hni. }
  case_if; cbn [rubbleInstances engineReady]; eexists;
    (split; [reflexivity |]); cbn; (split; [| try lia]).
  - unfold poolWf. cbn. splits.
    + rewrite length_insert. exact Hlen.
    + etrans; [| exact Hperm]. rewrite <- app_assoc. cbn [app].
      apply Permutation_app_head. exact Hsw.
    + apply Forall_forall. intros j Hj.
      assert (Hji : j <> i) by (intros ->; contradiction).
      rewrite list_lookup_insert_ne by congruence.
      apply (proj1 (Forall_forall _ _) Hflag).
      rewrite <- Hsw. right. exact Hj.
  - pose proof (swapRemove_length a (rubbleActive s)). lia.
  - unfold poolWf. cbn. splits.
    + rewrite length_insert. exact Hlen.
    + exact Hperm.
    + apply Forall_forall. intros j Hj.
      destruct (decide (j = i)) as [-> | Hji].
      * rewrite list_lookup_insert_eq by (eapply lookup_lt_Some; eauto).
        eauto.
      * rewrite list_lookup_insert_ne by congruence.
        apply (proj1 (Forall_forall _ _) Hflag). exact Hj.
Qed.

Lemma rubbleLoop_poolWf (dt : Q) (k : nat) (s : GameState) :
  poolWf s ->
  (k <= length (rubbleActive s))%nat ->
  exists s', rubbleLoop engineReady dt k s = Ret s' /\ poolWf s'.
Proof.
  revert s. induction k as [| a IH]; intros s Hwf Hk.
  - exists s. split; [reflexivity | exact Hwf].
  - cbn [rubbleLoop].
    destruct (rubbleStep_poolWf dt a s Hwf ltac:(lia)) as (s1 & -> & Hwf1 & Ha).
    cbn [andThen]. apply IH; assumption.
Qed.

(** A pool-only change of state carries the invariant with it. *)
Lemma poolWf_ext (s s' : GameState) :
  rubbleData s' = rubbleData s ->
  rubbleFree s' = rubbleFree s ->
  rubbleActive s' = rubbleActive s ->
  poolWf s -> poolWf s'.
Proof. unfold poolWf. intros -> -> ->. trivial. Qed.

(** A whole frame keeps the pool well formed and does not throw. *)
Lemma animate_poolWf (time : Q) (s : GameState) :
  poolWf s -> exists s', animate engineReady time s = Ret s' /\ poolWf s'.
Proof.
  intros Hwf. unfold animate, updateRubble. cbv zeta.
  apply rubbleLoop_poolWf; [| lia].
  eapply poolWf_ext; [| | | exact Hwf];
    unfold moveActiveBlock, applyFlash, applyShake;
    repeat first
      [ case_if
      | match goal with
        | |- context [match ?x with _ => _ end] => destruct x
        end ];
    try reflexivity;
    match goal with
    | |- context [updatePowerUpTimers ?dt ?s0] =>
        destruct (updatePowerUpTimers_frame dt s0) as [m ->]; reflexivity
    end.
Qed.

(** ** The continue cap *)

Lemma keeps_refl (s : GameState) : keeps s s.
Proof. split; auto. Qed.

Lemma keeps_trans (s0 s1 s2 : GameState) :
  keeps s0 s1 -> keeps s1 s2 -> keeps s0 s2.
Proof. intros [H1 H2] [H3 H4]. split; [congruence | auto]. Qed.

(** A step that writes neither the count nor the screen. *)
Lemma keeps_same (s0 s s' : GameState) :
  continuesUsed s' = continuesUsed s -> ui s' = ui s ->
  keeps s0 s -> keeps s0 s'.
Proof.
  intros Hc Hu [H1 H2]. split; [congruence |].
  intros H. specialize (H2 H). unfold uiSound in *. rewrite Hu, Hc. exact H2.
Qed.

Lemma keeps_render (s0 s : GameState) : keeps s0 s -> keeps s0 (render s).
Proof.
  intros [H1 H2]. split; [exact H1 |]. intros _.
  unfold uiSound, render. cbn.
  destruct (status s); try exact I.
  destruct (continuesUsed s <? 1)%Z eqn:Hlt; [| exact I].
  apply Z.ltb_lt. exact Hlt.
Qed.

Lemma keeps_let_state (s0 x : GameState) (b : GameState -> GameState) :
  keeps s0 x ->
  (forall s, keeps s0 s -> keeps s0 (b s)) ->
  keeps s0 (let s := x in b s).
Proof. intros Hx Hb. cbv zeta. auto. Qed.

Lemma keeps_let_outcome (s0 x : GameState) (b : GameState -> Outcome) :
  keeps s0 x ->
  (forall s, keeps s0 s -> keeps s0 (stateOf (b s))) ->
  keeps s0 (stateOf (let s := x in b s)).
Proof. intros Hx Hb. cbv zeta. auto. Qed.

Lemma keeps_andThen (s0 : GameState) (o : Outcome)
    (k : GameState -> Outcome) :
  keeps s0 (stateOf o) ->
  (forall s, keeps s0 s -> keeps s0 (stateOf (k s))) ->
  keeps s0 (stateOf (andThen o k)).
Proof. intros Ho Hk. destruct o; cbn in *; auto. Qed.

(** Progress through a body made of field assignments, renders, tests
    and calls already shown to keep the count. A state bound by [let]
    is forgotten up to [keeps]; other bindings are substituted. *)
Ltac keeps_step :=
  match goal with
  | |- keeps ?a ?b => constr_eq a b; apply keeps_refl
  | H : keeps ?a ?c |- keeps ?b ?d => constr_eq a b; constr_eq c d; exact H
  | |- keeps ?s0 (let s := ?x in @?b s) =>
      first
        [ apply (keeps_let_state s0 x b); [| intros ? ?]
        | change (keeps s0 (b x)); cbv beta ]
  | |- keeps ?s0 (stateOf (let s := ?x in @?b s)) =>
      first
        [ apply (keeps_let_outcome s0 x b); [| intros ? ?]
        | change (keeps s0 (stateOf (b x))); cbv beta ]
  | |- keeps _ (stateOf (Ret _)) => cbn [stateOf]
  | |- keeps _ (stateOf (Exn _)) => cbn [stateOf]
  | |- keeps _ (tryCatch _) => unfold tryCatch
  | |- keeps _ (stateOf (andThen _ _)) =>
      apply keeps_andThen; [| intros ? ?]
  | |- keeps _ (if ?c then _ else _) => destruct c
  | |- keeps _ (stateOf (if ?c then _ else _)) => destruct c
  | |- keeps _ (match ?x with _ => _ end) => destruct x
  | |- keeps _ (stateOf (match ?x with _ => _ end)) => destruct x
  | |- keeps _ (render _) => apply keeps_render
  | |- keeps ?s0 (?f ?s) => apply (keeps_same s0 s (f s) eq_refl eq_refl)
  end.

Ltac keeps_auto := repeat keeps_step.

Lemma keeps_triggerShake (amp dur : Q) (s0 s : GameState) :
  keeps s0 s -> keeps s0 (triggerShake amp dur s).
Proof. intros H. cbv delta [triggerShake]. cbv beta. keeps_auto. Qed.

Lemma keeps_awardPowerUp (rnd : Q) (s0 s : GameState) :
  keeps s0 s -> keeps s0 (awardPowerUp rnd s).
Proof. intros H. cbv delta [awardPowerUp]. cbv beta. keeps_auto. Qed.

Lemma keeps_decrementSuperSize (s0 s : GameState) :
  keeps s0 s -> keeps s0 (decrementSuperSize s).
Proof. intros H. cbv delta [decrementSuperSize set_superSize]. cbv beta. keeps_auto. Qed.

Lemma keeps_updatePowerUpTimers (dt : Q) (s0 s : GameState) :
  keeps s0 s -> keeps s0 (updatePowerUpTimers dt s).
Proof. intros H. cbv delta [updatePowerUpTimers set_slowMo]. cbv beta. keeps_auto. Qed.

Lemma keeps_activatePowerUp (i : nat) (s0 s : GameState) :
  keeps s0 s -> keeps s0 (activatePowerUp i s).
Proof.
  intros H.
  cbv delta [activatePowerUp set_slowMo set_safetyNet set_superSize]. cbv beta.
  keeps_auto.
Qed.

Lemma keeps_createFoundation (g : Engine) (s0 s : GameState) :
  keeps s0 s -> keeps s0 (stateOf (createFoundation g s)).
Proof. intros H. cbv delta [createFoundation]. cbv beta. keeps_auto. Qed.

Lemma keeps_spawnNewBlock (g : Engine) (t rnd : Q) (s0 s : GameState) :
  keeps s0 s -> keeps s0 (stateOf (spawnNewBlock g t rnd s)).
Proof. intros H. cbv delta [spawnNewBlock]. cbv beta. keeps_auto. Qed.

Lemma keeps_spawnRubble (g : Engine) (rnd : Spin) (s0 s : GameState)
    (active prev : Block) (a : Axis) (delta overlap : Q) :
  keeps s0 s ->
  keeps s0 (stateOf (spawnRubble g rnd s active prev a delta overlap)).
Proof. intros H. cbv delta [spawnRubble]. cbv beta. keeps_auto. Qed.

Lemma keeps_gameOver (s0 s : GameState) : keeps s0 s -> keeps s0 (gameOver s).
Proof.
  intros H. cbv delta [gameOver triggerCrashFeedback]. cbv beta.
  repeat first
    [ match goal with
      | |- keeps _ (triggerShake _ _ _) => apply keeps_triggerShake
      end
    | keeps_step ].
Qed.

Ltac keeps_call :=
  match goal with
  | |- keeps _ (triggerShake _ _ _) => apply keeps_triggerShake
  | |- keeps _ (awardPowerUp _ _) => apply keeps_awardPowerUp
  | |- keeps _ (decrementSuperSize _) => apply keeps_decrementSuperSize
  | |- keeps _ (updatePowerUpTimers _ _) => apply keeps_updatePowerUpTimers
  | |- keeps _ (activatePowerUp _ _) => apply keeps_activatePowerUp
  | |- keeps _ (gameOver _) => apply keeps_gameOver
  | |- keeps _ (stateOf (createFoundation _ _)) => apply keeps_createFoundation
  | |- keeps _ (stateOf (spawnNewBlock _ _ _ _)) => apply keeps_spawnNewBlock
  | |- keeps _ (stateOf (spawnRubble _ _ _ _ _ _ _ _)) =>
      apply keeps_spawnRubble
  end.

Ltac keeps_body := repeat first [ keeps_call | keeps_step ].

Lemma keeps_pushPlaced (g : Engine) (e : Env) (b : Block)
    (s0 s : GameState) :
  keeps s0 s -> keeps s0 (stateOf (pushPlaced g e b s)).
Proof.
  intros H. cbv delta [pushPlaced]. cbv beta. keeps_body.
Qed.

Lemma keeps_placeBlock (g : Engine) (e : Env) (s0 s : GameState) :
  keeps s0 s -> keeps s0 (stateOf (placeBlock g e s)).
Proof.
  intros H. cbv delta [placeBlock triggerPerfectFeedback set_safetyNet].
  cbv beta.
  repeat first [ apply keeps_pushPlaced | keeps_body ].
Qed.

Lemma keeps_resetRubble (n i : nat) (s0 s : GameState) :
  keeps s0 s -> keeps s0 (stateOf (resetRubble n i s)).
Proof.
  revert i s. induction n as [| n IH]; intros i s H; cbn [resetRubble].
  - exact H.
  - destruct (rubbleData s !! i); [| exact H].
    cbv zeta. apply IH. keeps_body.
Qed.

Lemma keeps_cleanup (g : Engine) (s0 s : GameState) :
  keeps s0 s -> keeps s0 (stateOf (cleanup g s)).
Proof.
  intros H. cbv delta [cleanup]. cbv beta.
  repeat first [ apply keeps_resetRubble | keeps_step ].
Qed.

Lemma keeps_startGame (g : Engine) (t rnd : Q) (s0 s : GameState) :
  keeps s0 s -> keeps s0 (stateOf (startGame g t rnd s)).
Proof.
  intros H. cbv delta [startGame]. cbv beta.
  repeat first
    [ keeps_call
    | apply keeps_cleanup
    | keeps_step ].
Qed.

Lemma keeps_backToMenu (g : Engine) (s0 s : GameState) :
  keeps s0 s -> keeps s0 (stateOf (backToMenu g s)).
Proof.
  intros H. cbv delta [backToMenu]. cbv beta.
  repeat first
    [ apply keeps_cleanup
    | keeps_step ].
Qed.

Lemma keeps_resumeGame (t : Q) (s0 s : GameState) :
  keeps s0 s -> keeps s0 (resumeGame t s).
Proof. intros H. cbv delta [resumeGame]. cbv beta. keeps_body. Qed.

Lemma keeps_pauseGame (s0 s : GameState) :
  keeps s0 s -> keeps s0 (pauseGame s).
Proof. intros H. cbv delta [pauseGame]. cbv beta. keeps_body. Qed.

Lemma keeps_withPool (d : list RubbleSlot) (f a : list nat)
    (s0 s : GameState) :
  keeps s0 s -> keeps s0 (withPool d f a s).
Proof. intros H. cbv delta [withPool]. cbv beta. keeps_body. Qed.

Lemma keeps_animate (g : Engine) (time : Q) (s0 s : GameState) :
  keeps s0 s -> keeps s0 (stateOf (animate g time s)).
Proof.
  intros H. cbv delta [animate updateRubble]. cbv beta. cbv zeta.
  match goal with
  | |- context [rubbleLoop g ?dt ?k ?s1] =>
      destruct (rubbleLoop_pool g dt k s1) as (d & f & l & ->)
  end.
  apply keeps_withPool.
  cbv delta [moveActiveBlock applyFlash applyShake]. cbv beta. keeps_body.
Qed.

Lemma keeps_handleInput (g : Engine) (t : Q) (e : Env) (s0 s : GameState) :
  keeps s0 s -> keeps s0 (stateOf (handleInput g t e s)).
Proof.
  intros H. cbv delta [handleInput]. cbv beta.
  repeat first [ apply keeps_placeBlock | keeps_step ].
Qed.

Lemma keeps_handleVRInput (g : Engine) (c : Controller) (t : Q) (e : Env)
    (s0 s : GameState) :
  keeps s0 s -> keeps s0 (stateOf (handleVRInput g c t e s)).
Proof.
  intros H. cbv delta [handleVRInput]. cbv beta.
  repeat first [ apply keeps_placeBlock | keeps_step ].
Qed.

Lemma keeps_setDifficulty (d : Difficulty) (s0 s : GameState) :
  keeps s0 s -> keeps s0 (setDifficulty d s).
Proof. intros H. cbv delta [setDifficulty]. cbv beta. keeps_body. Qed.

(** Every handler but the rewarded continue keeps the count. *)
Lemma keeps_handle (g : Engine) (ev : Event) (s : GameState) :
  (forall rewarded, ev <> GameContinueWithAd rewarded) ->
  keeps s (handle g ev s).
Proof.
  intros Hev. destruct ev; cbn [handle];
    first
      [ apply keeps_startGame | apply keeps_resumeGame | apply keeps_pauseGame
      | apply keeps_backToMenu | apply keeps_setDifficulty
      | apply keeps_render | apply keeps_activatePowerUp
      | apply keeps_handleInput | apply keeps_handleVRInput
      | apply keeps_animate | idtac ];
    try apply keeps_refl.
  exfalso. eapply Hev. reflexivity.
Qed.

Lemma boot_continuesUsed (best streak : Z) (d : Difficulty) :
  continuesUsed (boot best streak d) = 0%Z /\ uiSound (boot best streak d).
Proof.
  assert (Hk : keeps initialState
                 (set_status START
                    (stateOf
                       (initEngine
                          (set_difficulty d
                             (set_bestStreak streak
                                (set_bestScore best initialState))))))).
  { cbv delta [initEngine createFoundation]. cbv beta.
    assert (Hinit : forall n i s,
               keeps initialState s -> keeps initialState (initRubble n i s)).
    { induction n as [| n IH]; intros i s H; cbn [initRubble];
        [exact H |]. cbv zeta. apply IH. keeps_body. }
    repeat first
      [ match goal with
        | |- keeps _ (initRubble _ _ _) => apply Hinit
        end
      | keeps_step ]. }
  apply keeps_render in Hk. destruct Hk as [Hc Hu].
  split; [exact Hc | apply Hu; exact I].
Qed.

(** With the reward answered at the press, at most one continue is
    used in any state the application reaches, and once it is used the
    game-over screen no longer has the continue button. *)
Theorem continue_at_most_once (s : GameState) :
  reachable s ->
  (0 <= continuesUsed s <= 1)%Z
  /\ (continuesUsed s = 1%Z ->
      forall rewarded : bool, offered (GameContinueWithAd rewarded) s = false).
Proof.
  intros Hreach.
  assert (Hinv : (0 <= continuesUsed s <= 1)%Z /\ uiSound s).
  { induction Hreach as [best streak d | ev s Hreach [Hrange Hui] Hoff].
    - destruct (boot_continuesUsed best streak d) as [-> Hu].
      split; [lia | exact Hu].
    - destruct ev;
        try (match goal with
             | |- context [handle engineReady ?ev s] =>
                 destruct (keeps_handle engineReady ev s
                             ltac:(intros ?; discriminate)) as [Hc Hu]
             end;
             rewrite Hc; split; [exact Hrange | exact (Hu Hui)]).
      cbn [handle]. destruct rewarded; [| split; assumption].
      unfold offered in Hoff. unfold uiSound in Hui.
      destruct (ui s) as [| | | [|] |]; try discriminate Hoff.
      split; [cbn; lia | exact I]. }
  destruct Hinv as [Hrange Hui]. split; [exact Hrange |].
  intros Hone rewarded. unfold offered. unfold uiSound in Hui.
  destruct (ui s) as [| | | [|] |]; try reflexivity. lia.
Qed.

Lemma replayed_reachable : reachable Sample.replayed.
Proof.
  unfold Sample.replayed, Sample.replay. cbn [fold_left].
  repeat (apply reach_step; [| vm_compute; reflexivity]).
  apply reach_boot.
Qed.

Lemma continue_at_most_once_witness :
  status Sample.replayed = GAMEOVER
  /\ continuesUsed Sample.replayed = 1%Z
  /\ offered (GameContinueWithAd true) Sample.replayed = false.
Proof.
  destruct (continue_at_most_once Sample.replayed replayed_reachable)
    as [_ Hoff].
  splits; [by_compute | by_compute |].
  apply Hoff. by_compute.
Defined.

(** ** The rewarded continue through the SDK *)

Lemma rewardHandlers_admob (n : nat) (a : App) :
  Rewarded.admob (ads (Nat.iter n rewardHandler a)) = Rewarded.admob (ads a).
Proof.
  induction n as [| n IH]; [reflexivity |].
  rewrite Nat.iter_succ. exact IH.
Qed.

Lemma closeHandlers_admob (n : nat) (a : App) :
  Rewarded.admob (ads (Nat.iter n closeHandler a)) = Rewarded.admob (ads a).
Proof.
  induction n as [| n IH]; [reflexivity |].
  rewrite Nat.iter_succ. exact IH.
Qed.

Lemma continueGame_continuesUsed (s : GameState) :
  continuesUsed (continueGame s) = (continuesUsed s + 1)%Z.
Proof. reflexivity. Qed.

(** The callback of every pending press runs when the reward arrives. *)
Lemma rewardHandlers_continuesUsed (n : nat) (a : App) :
  continuesUsed (game (Nat.iter n rewardHandler a))
  = (continuesUsed (game a) + Z.of_nat n)%Z.
Proof.
  induction n as [| n IH].
  - cbn. lia.
  - rewrite Nat.iter_succ. unfold rewardHandler at 1. cbn [game].
    rewrite continueGame_continuesUsed, IH. lia.
Qed.

(** Without the SDK the application is the one of [reachable]: the
    reward is granted at the press, and no listener is ever added. *)
Lemma appReachable_without_sdk (a : App) :
  appReachable a -> Rewarded.admob (ads a) = false ->
  reachable (game a) /\ Rewarded.listeners (ads a) = 0%nat.
Proof.
  induction 1 as [best streak d sdk ready | ev a Hreach IH Hoff].
  - cbn. intros _. split; [apply reach_boot | reflexivity].
  - destruct ev as [ev | | | ok]; cbn [appHandle appOffered] in *.
    + destruct ev; cbn [ads game];
        try (intros Hsdk; destruct (IH Hsdk) as [Hr Hl];
             split; [apply reach_step; assumption | exact Hl]).
      unfold showRewarded.
      destruct (Rewarded.admob (ads a)) eqn:Hsdk; cbn [negb orb].
      * destruct (Rewarded.rewardedReady (ads a)); cbn; intros Hf;
          congruence.
      * cbn. intros _. destruct (IH eq_refl) as [Hr Hl].
        split; [| exact Hl].
        apply (reach_step (GameContinueWithAd true)); assumption.
    + rewrite rewardHandlers_admob. intros Hsdk.
      rewrite Hsdk in Hoff. cbn in Hoff. discriminate Hoff.
    + rewrite closeHandlers_admob. intros Hsdk.
      rewrite Hsdk in Hoff. cbn in Hoff. discriminate Hoff.
    + unfold prepareRewarded.
      destruct (Rewarded.admob (ads a)) eqn:Hsdk; [| discriminate Hoff].
      cbn. intros Hf. discriminate Hf.
Qed.

(** Without the SDK the cap of one continue holds. *)
Lemma continue_at_most_once_without_sdk (a : App) :
  appReachable a -> Rewarded.admob (ads a) = false ->
  (0 <= continuesUsed (game a) <= 1)%Z.
Proof.
  intros Hreach Hsdk.
  destruct (appReachable_without_sdk a Hreach Hsdk) as [Hr _].
  exact (proj1 (continue_at_most_once (game a) Hr)).
Qed.

Lemma sampleApp_rewarded_reachable : appReachable SampleApp.rewarded.
Proof.
  unfold SampleApp.rewarded, SampleApp.pressedTwice, SampleApp.over.
  cbn [fold_left].
  repeat (apply app_step; [| vm_compute; reflexivity]).
  apply app_boot.
Qed.

(** Claim C5 against the code: with the ad SDK there and a video ready,
    the continue button stays on the game-over screen while the video
    of a first press is pending, a second press adds a second reward
    listener, and when the reward arrives continueGame runs once for
    each: within one session two continues are used, and the session
    is back in Playing with the consolation rewards. *)
Theorem continue_runs_twice_with_sdk :
  appReachable SampleApp.rewarded
  /\ status (game SampleApp.over) = GAMEOVER
  /\ continuesUsed (game SampleApp.over) = 0%Z
  /\ offered (GameContinueWithAd true) (game SampleApp.over) = true
  /\ game SampleApp.pressedTwice = game SampleApp.over
  /\ Rewarded.listeners (ads SampleApp.pressedTwice) = 2%nat
  /\ status (game SampleApp.rewarded) = PLAYING
  /\ continuesUsed (game SampleApp.rewarded) = 2%Z
  /\ safetyNet (activePowerUps (game SampleApp.rewarded)) = mkSafetyNet true 1
  /\ slowMo (activePowerUps (game SampleApp.rewarded)) = mkSlowMo true 5.0
  /\ ~ (continuesUsed (game SampleApp.rewarded) <= 1)%Z.
Proof.
  split; [exact sampleApp_rewarded_reachable |].
  splits; try by_compute.
  vm_compute. intros H. apply H. reflexivity.
Qed.

(** ** resetGameState *)

Lemma resetGameState_rubbleFree (s : GameState) :
  rubbleFree (resetGameState s) = rubbleFree s.
Proof. reflexivity. Qed.

Lemma resetGameState_rubbleActive (s : GameState) :
  rubbleActive (resetGameState s) = [].
Proof. reflexivity. Qed.

(** What resetGameState writes: score, combo, stack and power-up state
    are cleared and the active list of the pool is replaced by an empty
    list; the per-slot data and the free list are not touched. *)
Theorem resetGameState_effect (s : GameState) :
  score (resetGameState s) = 0%Z
  /\ combo (resetGameState s) = 0%Z
  /\ maxSessionCombo (resetGameState s) = 0%Z
  /\ stack (resetGameState s) = []
  /\ activeBlock (resetGameState s) = None
  /\ powerUps (resetGameState s) = [None; None; None]
  /\ activePowerUps (resetGameState s) = noActivePowerUps
  /\ lastComboMilestone (resetGameState s) = 0%Z
  /\ continuesUsed (resetGameState s) = 0%Z
  /\ rubbleActive (resetGameState s) = []
  /\ rubbleData (resetGameState s) = rubbleData s
  /\ rubbleFree (resetGameState s) = rubbleFree s.
Proof. splits; reflexivity. Qed.

(** Claim C8 against the code: called with a fragment in flight (slot
    79 on the active list and flagged active, the other 79 on the free
    list), resetGameState does not leave the pool as it was: it empties
    the active list, and as it touches neither the free list nor the
    flag, slot 79 is on neither list and still flagged. cleanup on the
    same state returns all 80 slots to the free list and clears the
    flag. *)
Theorem resetGameState_leaks_slot :
  rubbleFree Sample.cut = seq 0 79
  /\ rubbleActive Sample.cut = [79%nat]
  /\ (isActive <$> rubbleData Sample.cut !! 79%nat) = Some true
  /\ rubbleFree (resetGameState Sample.cut) = seq 0 79
  /\ rubbleActive (resetGameState Sample.cut) = []
  /\ (isActive <$> rubbleData (resetGameState Sample.cut) !! 79%nat)
     = Some true
  /\ rubbleActive (resetGameState Sample.cut) <> rubbleActive Sample.cut
  /\ exists s' : GameState,
       cleanup engineReady Sample.cut = Ret s'
       /\ rubbleFree s' = seq 0 80
       /\ rubbleActive s' = []
       /\ (isActive <$> rubbleData s' !! 79%nat) = Some false.
Proof.
  splits; try by_compute.
  exists (stateOf (cleanup engineReady Sample.cut)). splits; by_compute.
Qed.

(** Claim C4 on resetGameState: called with a slot in flight it leaves
    79 indices on the free list and none on the active list, so the
    pool invariant, which held before, no longer holds. *)
Theorem resetGameState_breaks_pool :
  poolInv Sample.cut
  /\ length (rubbleFree (resetGameState Sample.cut)) = 79%nat
  /\ length (rubbleActive (resetGameState Sample.cut)) = 0%nat
  /\ ~ poolInv (resetGameState Sample.cut).
Proof.
  assert (Hfree : rubbleFree Sample.cut = seq 0 79) by by_compute.
  assert (Hact : rubbleActive Sample.cut = [79%nat]) by by_compute.
  splits.
  - split.
    + rewrite Hfree, Hact. reflexivity.
    + intros i. rewrite Hfree, Hact, elem_of_seq, list_elem_of_singleton.
      lia.
  - rewrite resetGameState_rubbleFree, Hfree. reflexivity.
  - reflexivity.
  - intros [Hlen _]. rewrite resetGameState_rubbleFree, Hfree in Hlen.
    rewrite resetGameState_rubbleActive in Hlen. discriminate Hlen.
Qed.

(** ** cleanup *)

Lemma setInactive_idemp (r : RubbleSlot) :
  setInactive (setInactive r) = setInactive r.
Proof. reflexivity. Qed.

Lemma withPool_id (s : GameState) :
  withPool (rubbleData s) (rubbleFree s) (rubbleActive s) s = s.
Proof. destruct s; reflexivity. Qed.

(** The reset loop in closed form: started at the index where [d2]
    begins, it clears the flags of the first [n] slots of [d2], appends
    their indices to the free list, and throws if [d2] is shorter. *)
Lemma resetRubble_spec (n : nat) :
  forall (d1 d2 : list RubbleSlot) (s : GameState),
    rubbleData s = d1 ++ d2 ->
    resetRubble n (length d1) s
    = (if (n <=? length d2)%nat then Ret else Exn)
        (withPool (d1 ++ map setInactive (take n d2) ++ drop n d2)
           (rubbleFree s ++ seq (length d1) (Nat.min n (length d2)))
           (rubbleActive s) s).
Proof.
  induction n as [| n IH]; intros d1 d2 s Hd.
  - rewrite take_0, drop_0. cbn [resetRubble Nat.leb map Nat.min seq app].
    rewrite app_nil_r, <- Hd, withPool_id. reflexivity.
  - cbn [resetRubble]. rewrite Hd.
    destruct d2 as [| r d2].
    + rewrite app_nil_r, lookup_ge_None_2 by lia.
      rewrite take_nil, drop_nil.
      cbn [length Nat.leb map Nat.min seq app].
      rewrite !app_nil_r, <- (app_nil_r d1), <- Hd, withPool_id. reflexivity.
    + rewrite list_lookup_middle by reflexivity. cbv zeta.
      rewrite insert_app_r_alt by lia.
      rewrite Nat.sub_diag. cbn [insert list_insert].
      specialize
        (IH (d1 ++ [setInactive r]) d2
           (set_rubbleFree (rubbleFree s ++ [length d1])
              (set_rubbleData (d1 ++ setInactive r :: d2) s))).
      rewrite length_app, Nat.add_1_r in IH. cbn [length] in IH.
      change (rubbleFree (set_rubbleData (d1 ++ setInactive r :: d2) s))
        with (rubbleFree s).
      rewrite IH by (cbn; rewrite <- app_assoc; reflexivity).
      rewrite firstn_cons, skipn_cons.
      cbn [length Nat.leb map Nat.min seq].
      cbn [rubbleFree rubbleActive set_rubbleFree set_rubbleData].
      rewrite <- !app_assoc. cbn [app].
      destruct (n <=? length d2)%nat; reflexivity.
Qed.

(** cleanup with a scene, the instanced mesh and a pool that has slots. *)
Lemma cleanup_spec (g : Engine) (s : GameState) :
  scene g = true -> rubbleInstances g = true ->
  (0 < length (rubbleData s))%nat ->
  cleanup g s
  = (if (CONFIG.MAX_RUBBLE <=? length (rubbleData s))%nat then Ret else Exn)
      (withPool
         (map setInactive (take CONFIG.MAX_RUBBLE (rubbleData s))
          ++ drop CONFIG.MAX_RUBBLE (rubbleData s))
         (seq 0 (Nat.min CONFIG.MAX_RUBBLE (length (rubbleData s)))) []
         (set_activeBlock None (set_stack [] s))).
Proof.
  intros Hscene Hinst Hlen. unfold cleanup.
  rewrite Hscene, Hinst. cbn [negb andb].
  apply Nat.ltb_lt in Hlen. cbv zeta.
  cbn [rubbleData set_activeBlock set_stack]. rewrite Hlen.
  rewrite (resetRubble_spec CONFIG.MAX_RUBBLE [] (rubbleData s)) by reflexivity.
  reflexivity.
Qed.

Lemma cleaned_data_length (d : list RubbleSlot) (n : nat) :
  length (map setInactive (take n d) ++ drop n d) = length d.
Proof.
  rewrite length_app, length_map, <- length_app, take_drop. reflexivity.
Qed.

Lemma cleaned_data_idemp (d : list RubbleSlot) (n : nat) :
  let d' := map setInactive (take n d) ++ drop n d in
  map setInactive (take n d') ++ drop n d' = d'.
Proof.
  cbv zeta. destruct (Nat.le_gt_cases (length d) n) as [Hle | Hgt].
  - rewrite (take_ge d n), (drop_ge d n), app_nil_r by exact Hle.
    rewrite take_ge, drop_ge, app_nil_r by (rewrite length_map; exact Hle).
    rewrite map_map. reflexivity.
  - assert (Hn : length (map setInactive (take n d)) = n)
      by (rewrite length_map, length_take; lia).
    rewrite take_app_length', drop_app_length' by (symmetry; exact Hn).
    rewrite map_map. reflexivity.
Qed.

(** The amended form of claim C7: cleanup is idempotent on every state,
    outcome included; it leaves the stack and the active block empty;
    with no scene it returns without failure and touches nothing else;
    with the scene, the instanced rubble mesh and the 80 slots that
    initEngine creates, it returns with all 80 slots inactive and on
    the free list and the active list empty. *)
Theorem cleanup_idempotent (g : Engine) (s : GameState) :
  cleanup g (stateOf (cleanup g s)) = cleanup g s
  /\ stack (stateOf (cleanup g s)) = []
  /\ activeBlock (stateOf (cleanup g s)) = None
  /\ (scene g = false ->
      cleanup g s = Ret (set_activeBlock None (set_stack [] s)))
  /\ (scene g = true -> rubbleInstances g = true ->
      length (rubbleData s) = CONFIG.MAX_RUBBLE ->
      exists s',
        cleanup g s = Ret s'
        /\ rubbleFree s' = seq 0 CONFIG.MAX_RUBBLE
        /\ rubbleActive s' = []
        /\ length (rubbleData s') = CONFIG.MAX_RUBBLE
        /\ Forall (fun r => isActive r = false) (rubbleData s')).
Proof.
  destruct (scene g) eqn:Hscene.
  - destruct (rubbleInstances g && (0 <? length (rubbleData s))%nat)
      eqn:Hpool.
    + apply andb_true_iff in Hpool as [Hinst Hlen].
      apply Nat.ltb_lt in Hlen.
      rewrite (cleanup_spec g s Hscene Hinst Hlen).
      set (d' := map setInactive (take CONFIG.MAX_RUBBLE (rubbleData s))
                 ++ drop CONFIG.MAX_RUBBLE (rubbleData s)).
      assert (Hlen' : length d' = length (rubbleData s))
        by apply cleaned_data_length.
      splits.
      * set (f := seq 0 (Nat.min CONFIG.MAX_RUBBLE (length (rubbleData s)))).
        set (base := set_activeBlock None (set_stack [] s)).
        assert (Hagain :
                  cleanup g (withPool d' f [] base)
                  = (if (CONFIG.MAX_RUBBLE <=? length (rubbleData s))%nat
                     then Ret else Exn) (withPool d' f [] base)).
        { rewrite cleanup_spec;
            [| exact Hscene | exact Hinst
             | change (rubbleData (withPool d' f [] base)) with d';
               rewrite Hlen'; exact Hlen ].
          change (rubbleData (withPool d' f [] base)) with d'.
          rewrite Hlen'.
          pose proof (cleaned_data_idemp (rubbleData s) CONFIG.MAX_RUBBLE)
            as Hid.
          cbv zeta in Hid. fold d' in Hid. rewrite Hid. fold f.
          reflexivity. }
        destruct (CONFIG.MAX_RUBBLE <=? length (rubbleData s))%nat;
          cbn [stateOf]; exact Hagain.
      * destruct (CONFIG.MAX_RUBBLE <=? length (rubbleData s))%nat;
          reflexivity.
      * destruct (CONFIG.MAX_RUBBLE <=? length (rubbleData s))%nat;
          reflexivity.
      * discriminate.
      * intros _ _ Hfull. rewrite Hfull, Nat.leb_refl, Nat.min_id.
        eexists. split; [reflexivity |]. cbn. splits; try reflexivity.
        -- rewrite cleaned_data_length. exact Hfull.
        -- rewrite drop_ge, app_nil_r by (rewrite Hfull; reflexivity).
           apply Forall_forall. intros r Hr.
           apply list_elem_of_fmap in Hr as (r0 & -> & _). reflexivity.
    + unfold cleanup. rewrite Hscene. cbn [negb]. cbv zeta.
      cbn [rubbleData set_activeBlock set_stack]. rewrite Hpool.
      cbn [stateOf rubbleData set_activeBlock set_stack].
      rewrite Hpool. splits; try reflexivity; try discriminate.
      intros _ Hinst Hfull. rewrite Hinst, Hfull in Hpool. discriminate.
  - unfold cleanup. rewrite Hscene. cbn [negb stateOf].
    splits; try reflexivity; discriminate.
Qed.

(** Claim C7 as stated fails: with no scene cleanup leaves the pool as
    it is, so calling it twice on the state the application starts from
    does not put 80 slots on the free list. *)
Lemma cleanup_without_scene_keeps_pool :
  ~ (forall (g : Engine) (s : GameState),
       cleanup g (stateOf (cleanup g s)) = cleanup g s
       /\ stack (stateOf (cleanup g (stateOf (cleanup g s)))) = []
       /\ activeBlock (stateOf (cleanup g (stateOf (cleanup g s)))) = None
       /\ rubbleFree (stateOf (cleanup g (stateOf (cleanup g s))))
          ≡ₚ seq 0 CONFIG.MAX_RUBBLE
       /\ rubbleActive (stateOf (cleanup g (stateOf (cleanup g s)))) = []
       /\ Forall (fun r => isActive r = false)
            (rubbleData (stateOf (cleanup g (stateOf (cleanup g s)))))).
Proof.
  intros H.
  destruct (H (mkEngine false false) initialState) as (_ & _ & _ & Hfree & _).
  apply Permutation_length in Hfree. vm_compute in Hfree. discriminate.
Qed.

Lemma active_block_stays_within_13_witness :
  (exists b',
     activeBlock (moveActiveBlock 0.04 Sample.beforeTurn) = Some b'
     /\ vget AxisZ (position Sample.turningBlock) == -12.624
     /\ vget AxisZ (position b') = -13
     /\ direction Sample.beforeTurn = -1
     /\ direction (moveActiveBlock 0.04 Sample.beforeTurn) = 1)
  /\ (exists b',
        activeBlock (frames engineReady Sample.longRun Sample.started)
        = Some b'
        /\ status (frames engineReady Sample.longRun Sample.started) = PLAYING
        /\ Qabs (vget (axis Sample.started) (position b')) <= 13).
Proof.
  split.
  - destruct (proj1 active_block_stays_within_13 0.04 Sample.beforeTurn
                Sample.turningBlock ltac:(by_compute) ltac:(by_compute))
      as (b' & Hb' & _ & _ & _ & _ & _ & Hout).
    destruct (Hout ltac:(by_compute)) as (Hpos & _ & Hdir).
    assert (Hax : axis Sample.beforeTurn = AxisZ) by by_compute.
    assert (Hd : direction Sample.beforeTurn = -1) by by_compute.
    rewrite Hax in Hpos. rewrite Hd in Hdir.
    exists b'. split; [exact Hb' |]. split; [by_compute |].
    split; [rewrite Hpos; by_compute |].
    split; [exact Hd | rewrite Hdir; reflexivity].
  - apply (proj1 (proj2 active_block_stays_within_13) engineReady
             Sample.longRun Sample.started Sample.firstBlock); by_compute.
Defined.

(** The turn at the boundary, on the sample: after 58 moving frames the
    block sits at -13 and the direction has changed sign. *)
Example frames_turn_at_boundary :
  let s := frames engineReady (take 59 Sample.longRun) Sample.started in
  (vz <$> (position <$> activeBlock s)) = Some (-13 # 1)
  /\ direction Sample.started == -1
  /\ direction s == 1.
Proof. vm_compute. splits; reflexivity. Qed.

(** ** The pool invariant through set-up, acquisition and cleanup *)

Lemma initRubble_spec (n : nat) :
  forall (i : nat) (s : GameState),
    length (rubbleData s) = i ->
    initRubble n i s
    = withPool (rubbleData s ++ replicate n freshSlot)
        (rubbleFree s ++ seq i n) (rubbleActive s) s.
Proof.
  induction n as [| n IH]; intros i s Hi.
  - cbn [initRubble replicate seq]. rewrite !app_nil_r, withPool_id.
    reflexivity.
  - cbn [initRubble]. cbv zeta. rewrite IH.
    + cbn [rubbleData rubbleFree rubbleActive set_rubbleData set_rubbleFree].
      unfold assignAt. rewrite Hi, Nat.ltb_irrefl.
      rewrite <- !app_assoc. reflexivity.
    + cbn [rubbleData set_rubbleData set_rubbleFree]. unfold assignAt.
      rewrite Hi, Nat.ltb_irrefl, length_app. cbn. lia.
Qed.

(** initEngine establishes the invariant on the state the application
    starts from. *)
Lemma initEngine_poolWf (s : GameState) :
  rubbleData s = [] ->
  exists s', initEngine s = Ret s' /\ poolWf s'.
Proof.
  intros Hd. unfold initEngine, createFoundation. cbv zeta.
  rewrite initRubble_spec by (cbn; rewrite Hd; reflexivity).
  cbn [scene engineReady]. eexists. split; [reflexivity |].
  unfold poolWf. cbn. rewrite Hd. splits.
  - reflexivity.
  - reflexivity.
  - constructor.
Qed.

(** spawnRubble keeps the invariant, whether it acquires a slot or
    drops the request, and does not throw. *)
Lemma spawnRubble_poolWf (rnd : Spin) (s : GameState) (active prev : Block)
    (a : Axis) (delta overlap : Q) :
  poolWf s ->
  exists d f l,
    spawnRubble engineReady rnd s active prev a delta overlap
    = Ret (withPool d f l s)
    /\ poolWf (withPool d f l s).
Proof.
  intros Hwf. unfold spawnRubble. cbv zeta.
  destruct (last (rubbleFree s)) as [idx |] eqn:Hlast.
  - apply last_Some in Hlast as [f Hf].
    assert (Hidx : (idx < length (rubbleData s))%nat).
    { apply (poolWf_index s idx Hwf). rewrite Hf.
      rewrite !elem_of_app, list_elem_of_singleton. auto. }
    destruct (lookup_lt_is_Some_2 _ _ Hidx) as [r0 Hr0].
    cbn [rubbleData set_rubbleFree]. rewrite Hr0.
    cbn [rubbleInstances engineReady].
    eexists _, _, _. split; [reflexivity |].
    destruct Hwf as (Hlen & Hperm & Hflag).
    unfold poolWf. cbn. rewrite Hf, removelast_last. splits.
    + rewrite length_insert. exact Hlen.
    + etrans; [| exact Hperm]. rewrite Hf, <- !app_assoc.
      apply Permutation_app_head. apply Permutation_app_comm.
    + apply Forall_app. split.
      * apply Forall_forall. intros j Hj.
        destruct (decide (j = idx)) as [-> | Hne].
        -- rewrite list_lookup_insert_eq by exact Hidx. eauto.
        -- rewrite list_lookup_insert_ne by congruence.
           apply (proj1 (Forall_forall _ _) Hflag). exact Hj.
      * constructor; [| constructor].
        rewrite list_lookup_insert_eq by exact Hidx. eauto.
  - exists (rubbleData s), (rubbleFree s), (rubbleActive s).
    rewrite withPool_id. split; [reflexivity | exact Hwf].
Qed.

(** cleanup re-establishes the invariant from any state whose pool has
    its 80 slots, and does not throw. *)
Lemma cleanup_poolWf (s : GameState) :
  length (rubbleData s) = CONFIG.MAX_RUBBLE ->
  exists s', cleanup engineReady s = Ret s' /\ poolWf s'.
Proof.
  intros Hlen.
  rewrite cleanup_spec
    by (try reflexivity; rewrite Hlen; unfold CONFIG.MAX_RUBBLE; lia).
  rewrite Hlen, Nat.leb_refl, Nat.min_id.
  eexists. split; [reflexivity |]. unfold poolWf. cbn. splits.
  - rewrite cleaned_data_length. exact Hlen.
  - reflexivity.
  - constructor.
Qed.

(** ** Invariants along the handlers *)

Lemma inv_andThen (P : GameState -> Prop) (o : Outcome)
    (k : GameState -> Outcome) :
  P (stateOf o) ->
  (forall s, P s -> P (stateOf (k s))) ->
  P (stateOf (andThen o k)).
Proof. intros Ho Hk. destruct o; cbn in *; auto. Qed.

Lemma inv_let_state (P : GameState -> Prop) (x : GameState)
    (b : GameState -> GameState) :
  P x -> (forall s, P s -> P (b s)) -> P (let s := x in b s).
Proof. intros Hx Hb. cbv zeta. auto. Qed.

Lemma inv_let_outcome (P : GameState -> Prop) (x : GameState)
    (b : GameState -> Outcome) :
  P x -> (forall s, P s -> P (stateOf (b s))) ->
  P (stateOf (let s := x in b s)).
Proof. intros Hx Hb. cbv zeta. auto. Qed.

(** One step through a body for an invariant [P]: [same] closes a field
    assignment that [P] does not read, [call] a call already shown to
    keep [P]. *)
Ltac inv_step same call :=
  match goal with
  | H : ?P ?a |- ?Q ?b => constr_eq P Q; constr_eq a b; exact H
  | |- ?P (let s := ?x in @?b s) =>
      first
        [ apply (inv_let_state P x b); [| intros ? ?]
        | change (P (b x)); cbv beta ]
  | |- ?P (stateOf (let s := ?x in @?b s)) =>
      first
        [ apply (inv_let_outcome P x b); [| intros ? ?]
        | change (P (stateOf (b x))); cbv beta ]
  | |- ?P (stateOf (Ret _)) => cbn [stateOf]
  | |- ?P (stateOf (Exn _)) => cbn [stateOf]
  | |- ?P (tryCatch _) => unfold tryCatch
  | |- ?P (stateOf (andThen ?o ?k)) =>
      apply (inv_andThen P o k); [| intros ? ?]
  | |- ?P (if ?c then _ else _) => destruct c eqn:?
  | |- ?P (stateOf (if ?c then _ else _)) => destruct c eqn:?
  | |- ?P (match ?x with _ => _ end) => destruct x eqn:?
  | |- ?P (stateOf (match ?x with _ => _ end)) => destruct x eqn:?
  | |- _ => call tt
  | |- ?P (?f ?s) => same P f s
  end.

(** *** The pool *)

Ltac pool_same P f s :=
  apply (poolWf_ext s (f s) eq_refl eq_refl eq_refl).

(** The operations that write the pool, as calls. *)
Ltac pool_call0 _ :=
  match goal with
  | |- poolWf (stateOf (spawnRubble engineReady ?r ?s ?a ?p ?x ?d ?o)) =>
      let H := fresh in
      assert (H : poolWf s);
      [| destruct (spawnRubble_poolWf r s a p x d o H)
           as (? & ? & ? & -> & ?); cbn [stateOf]; assumption ]
  | |- poolWf (stateOf (cleanup engineReady ?s)) =>
      let H := fresh in
      assert (H : poolWf s);
      [| destruct (cleanup_poolWf s (proj1 H)) as (? & -> & ?);
         cbn [stateOf]; assumption ]
  | |- poolWf (stateOf (animate engineReady ?t ?s)) =>
      let H := fresh in
      assert (H : poolWf s);
      [| destruct (animate_poolWf t s H) as (? & -> & ?);
         cbn [stateOf]; assumption ]
  end.

Lemma poolWf_triggerShake (amp dur : Q) (s : GameState) :
  poolWf s -> poolWf (triggerShake amp dur s).
Proof.
  intros H. cbv delta [triggerShake]. cbv beta.
  repeat inv_step pool_same pool_call0.
Qed.

Ltac pool_call1 _ :=
  match goal with
  | |- poolWf (triggerShake _ _ _) => apply poolWf_triggerShake
  | |- _ => pool_call0 tt
  end.

Lemma poolWf_awardPowerUp (rnd : Q) (s : GameState) :
  poolWf s -> poolWf (awardPowerUp rnd s).
Proof.
  intros H. cbv delta [awardPowerUp]. cbv beta.
  repeat inv_step pool_same pool_call1.
Qed.

Ltac pool_call2 _ :=
  match goal with
  | |- poolWf (awardPowerUp _ _) => apply poolWf_awardPowerUp
  | |- _ => pool_call1 tt
  end.

Lemma poolWf_decrementSuperSize (s : GameState) :
  poolWf s -> poolWf (decrementSuperSize s).
Proof.
  intros H. cbv delta [decrementSuperSize set_superSize]. cbv beta.
  repeat inv_step pool_same pool_call2.
Qed.

Ltac pool_call3 _ :=
  match goal with
  | |- poolWf (decrementSuperSize _) => apply poolWf_decrementSuperSize
  | |- _ => pool_call2 tt
  end.

Lemma poolWf_updatePowerUpTimers (dt : Q) (s : GameState) :
  poolWf s -> poolWf (updatePowerUpTimers dt s).
Proof.
  intros H. cbv delta [updatePowerUpTimers set_slowMo]. cbv beta.
  repeat inv_step pool_same pool_call3.
Qed.

Ltac pool_call4 _ :=
  match goal with
  | |- poolWf (updatePowerUpTimers _ _) => apply poolWf_updatePowerUpTimers
  | |- _ => pool_call3 tt
  end.

Lemma poolWf_activatePowerUp (i : nat) (s : GameState) :
  poolWf s -> poolWf (activatePowerUp i s).
Proof.
  intros H. cbv delta [activatePowerUp set_slowMo set_safetyNet set_superSize]. cbv beta.
  repeat inv_step pool_same pool_call4.
Qed.

Ltac pool_call5 _ :=
  match goal with
  | |- poolWf (activatePowerUp _ _) => apply poolWf_activatePowerUp
  | |- _ => pool_call4 tt
  end.

Lemma poolWf_render (s : GameState) :
  poolWf s -> poolWf (render s).
Proof.
  intros H. cbv delta [render]. cbv beta.
  repeat inv_step pool_same pool_call5.
Qed.

Ltac pool_call6 _ :=
  match goal with
  | |- poolWf (render _) => apply poolWf_render
  | |- _ => pool_call5 tt
  end.

Lemma poolWf_gameOver (s : GameState) :
  poolWf s -> poolWf (gameOver s).
Proof.
  intros H. cbv delta [gameOver triggerCrashFeedback]. cbv beta.
  repeat inv_step pool_same pool_call6.
Qed.

Ltac pool_call7 _ :=
  match goal with
  | |- poolWf (gameOver _) => apply poolWf_gameOver
  | |- _ => pool_call6 tt
  end.

Lemma poolWf_continueGame (s : GameState) :
  poolWf s -> poolWf (continueGame s).
Proof.
  intros H. cbv delta [continueGame set_slowMo set_safetyNet]. cbv beta.
  repeat inv_step pool_same pool_call7.
Qed.

Ltac pool_call8 _ :=
  match goal with
  | |- poolWf (continueGame _) => apply poolWf_continueGame
  | |- _ => pool_call7 tt
  end.

Lemma poolWf_resumeGame (t : Q) (s : GameState) :
  poolWf s -> poolWf (resumeGame t s).
Proof.
  intros H. cbv delta [resumeGame]. cbv beta.
  repeat inv_step pool_same pool_call8.
Qed.

Ltac pool_call9 _ :=
  match goal with
  | |- poolWf (resumeGame _ _) => apply poolWf_resumeGame
  | |- _ => pool_call8 tt
  end.

Lemma poolWf_pauseGame (s : GameState) :
  poolWf s -> poolWf (pauseGame s).
Proof.
  intros H. cbv delta [pauseGame]. cbv beta.
  repeat inv_step pool_same pool_call9.
Qed.

Ltac pool_call10 _ :=
  match goal with
  | |- poolWf (pauseGame _) => apply poolWf_pauseGame
  | |- _ => pool_call9 tt
  end.

Lemma poolWf_setDifficulty (d : Difficulty) (s : GameState) :
  poolWf s -> poolWf (setDifficulty d s).
Proof.
  intros H. cbv delta [setDifficulty]. cbv beta.
  repeat inv_step pool_same pool_call10.
Qed.

Ltac pool_call11 _ :=
  match goal with
  | |- poolWf (setDifficulty _ _) => apply poolWf_setDifficulty
  | |- _ => pool_call10 tt
  end.

Lemma poolWf_createFoundation (g : Engine) (s : GameState) :
  poolWf s -> poolWf (stateOf (createFoundation g s)).
Proof.
  intros H. cbv delta [createFoundation]. cbv beta.
  repeat inv_step pool_same pool_call11.
Qed.

Ltac pool_call12 _ :=
  match goal with
  | |- poolWf (stateOf (createFoundation _ _)) => apply poolWf_createFoundation
  | |- _ => pool_call11 tt
  end.

Lemma poolWf_spawnNewBlock (g : Engine) (t rnd : Q) (s : GameState) :
  poolWf s -> poolWf (stateOf (spawnNewBlock g t rnd s)).
Proof.
  intros H. cbv delta [spawnNewBlock]. cbv beta.
  repeat inv_step pool_same pool_call12.
Qed.

Ltac pool_call13 _ :=
  match goal with
  | |- poolWf (stateOf (spawnNewBlock _ _ _ _)) => apply poolWf_spawnNewBlock
  | |- _ => pool_call12 tt
  end.

Lemma poolWf_pushPlaced (g : Engine) (e : Env) (b : Block) (s : GameState) :
  poolWf s -> poolWf (stateOf (pushPlaced g e b s)).
Proof.
  intros H. cbv delta [pushPlaced]. cbv beta.
  repeat inv_step pool_same pool_call13.
Qed.

Ltac pool_call14 _ :=
  match goal with
  | |- poolWf (stateOf (pushPlaced _ _ _ _)) => apply poolWf_pushPlaced
  | |- _ => pool_call13 tt
  end.

Lemma poolWf_placeBlock (e : Env) (s : GameState) :
  poolWf s -> poolWf (stateOf (placeBlock engineReady e s)).
Proof.
  intros H. cbv delta [placeBlock triggerPerfectFeedback set_safetyNet]. cbv beta.
  repeat inv_step pool_same pool_call14.
Qed.

Ltac pool_call15 _ :=
  match goal with
  | |- poolWf (stateOf (placeBlock engineReady _ _)) => apply poolWf_placeBlock
  | |- _ => pool_call14 tt
  end.

Lemma poolWf_startGame (t rnd : Q) (s : GameState) :
  poolWf s -> poolWf (stateOf (startGame engineReady t rnd s)).
Proof.
  intros H. cbv delta [startGame]. cbv beta.
  repeat inv_step pool_same pool_call15.
Qed.

Ltac pool_call16 _ :=
  match goal with
  | |- poolWf (stateOf (startGame engineReady _ _ _)) => apply poolWf_startGame
  | |- _ => pool_call15 tt
  end.

Lemma poolWf_backToMenu (s : GameState) :
  poolWf s -> poolWf (stateOf (backToMenu engineReady s)).
Proof.
  intros H. cbv delta [backToMenu]. cbv beta.
  repeat inv_step pool_same pool_call16.
Qed.

Ltac pool_call17 _ :=
  match goal with
  | |- poolWf (stateOf (backToMenu engineReady _)) => apply poolWf_backToMenu
  | |- _ => pool_call16 tt
  end.

Lemma poolWf_handleInput (t : Q) (e : Env) (s : GameState) :
  poolWf s -> poolWf (stateOf (handleInput engineReady t e s)).
Proof.
  intros H. cbv delta [handleInput]. cbv beta.
  repeat inv_step pool_same pool_call17.
Qed.

Ltac pool_call18 _ :=
  match goal with
  | |- poolWf (stateOf (handleInput engineReady _ _ _)) => apply poolWf_handleInput
  | |- _ => pool_call17 tt
  end.

Lemma poolWf_handleVRInput (c : Controller) (t : Q) (e : Env) (s : GameState) :
  poolWf s -> poolWf (stateOf (handleVRInput engineReady c t e s)).
Proof.
  intros H. cbv delta [handleVRInput]. cbv beta.
  repeat inv_step pool_same pool_call18.
Qed.

Ltac pool_call19 _ :=
  match goal with
  | |- poolWf (stateOf (handleVRInput engineReady _ _ _ _)) => apply poolWf_handleVRInput
  | |- _ => pool_call18 tt
  end.

Lemma poolWf_handle (ev : Event) (s : GameState) :
  poolWf s -> poolWf (handle engineReady ev s).
Proof.
  intros H. destruct ev; cbn [handle]; repeat inv_step pool_same pool_call19.
Qed.

(** The pool invariant holds in every state the application reaches. *)
Lemma reachable_poolWf (s : GameState) : reachable s -> poolWf s.
Proof.
  induction 1 as [best streak d | ev s _ IH _].
  - unfold boot. cbv zeta.
    destruct (initEngine_poolWf
                (set_difficulty d
                   (set_bestStreak streak (set_bestScore best initialState)))
                eq_refl) as (s' & -> & Hwf).
    cbn [stateOf]. repeat inv_step pool_same pool_call0.
  - apply poolWf_handle. exact IH.
Qed.

Lemma reachable_poolInv (s : GameState) : reachable s -> poolInv s.
Proof. intros H. apply poolWf_poolInv, reachable_poolWf, H. Qed.

(** * The rubble pool over a run of the application *)

(** X1: In every state the application reaches (boot, then any sequence of
    the bound handlers and frames, with scene and rubble mesh present) the
    rubble pool has its 80 slot records, the free list and the active list
    together hold each index 0..79 exactly once, so that their lengths add
    up to 80, and every slot on the active list is flagged active. *)
Theorem pool_invariant_reachable (s : GameState) :
  reachable s ->
  length (rubbleData s) = CONFIG.MAX_RUBBLE
  /\ (length (rubbleFree s) + length (rubbleActive s))%nat = CONFIG.MAX_RUBBLE
  /\ NoDup (rubbleFree s ++ rubbleActive s)
  /\ (forall i : nat,
        i ∈ rubbleFree s ++ rubbleActive s <-> (i < CONFIG.MAX_RUBBLE)%nat)
  /\ (forall i : nat,
        i ∈ rubbleActive s ->
        exists r, rubbleData s !! i = Some r /\ isActive r = true).
Proof.
  intros Hreach. pose proof (reachable_poolWf s Hreach) as Hwf.
  destruct Hwf as (Hlen & Hperm & Hflag).
  splits.
  - exact Hlen.
  - rewrite <- length_app, Hperm, length_seq. reflexivity.
  - rewrite Hperm. apply NoDup_seq.
  - intros i. rewrite Hperm, elem_of_seq. lia.
  - intros i Hi. exact (proj1 (Forall_forall _ _) Hflag i Hi).
Qed.

Lemma pool_invariant_reachable_witness :
  (length (rubbleFree Sample.replayed)
   + length (rubbleActive Sample.replayed))%nat = CONFIG.MAX_RUBBLE.
Proof.
  exact (proj1 (proj2
    (pool_invariant_reachable Sample.replayed replayed_reachable))).
Defined.

(** X2: On a well-formed pool, with scene and rubble mesh present,
    spawnRubble either finds the free list empty and returns with the
    state unchanged, or takes the last index of the free list, appends it
    to the active list and writes that slot: flagged active, its extent on
    the cut axis the block's size minus the overlap, its velocity (0, -10,
    0). Either way the pool is well formed afterwards. *)
Theorem spawnRubble_acquires_or_drops (rnd : Spin) (s : GameState)
    (active prev : Block) (a : Axis) (delta overlap : Q) :
  poolWf s ->
  match last (rubbleFree s) with
  | None =>
      spawnRubble engineReady rnd s active prev a delta overlap = Ret s
  | Some idx =>
      exists slot : RubbleSlot,
        spawnRubble engineReady rnd s active prev a delta overlap
        = Ret (withPool (<[idx := slot]> (rubbleData s))
                 (removelast (rubbleFree s)) (rubbleActive s ++ [idx]) s)
        /\ isActive slot = true
        /\ vget a (scale slot) = sizeOn a active - overlap
        /\ velocity slot = mkVector3 0 (-10) 0
  end
  /\ poolWf (stateOf (spawnRubble engineReady rnd s active prev a delta overlap)).
Proof.
  intros Hwf. split.
  - unfold spawnRubble. cbv zeta.
    destruct (last (rubbleFree s)) as [idx |] eqn:Hlast; [| reflexivity].
    apply last_Some in Hlast as [f Hf].
    assert (Hidx : (idx < length (rubbleData s))%nat).
    { apply (poolWf_index s idx Hwf). rewrite Hf.
      rewrite !elem_of_app, list_elem_of_singleton. auto. }
    destruct (lookup_lt_is_Some_2 _ _ Hidx) as [r0 Hr0].
    cbn [rubbleData set_rubbleFree]. rewrite Hr0.
    cbn [rubbleInstances engineReady].
    eexists. split; [reflexivity |].
    destruct a; splits; reflexivity.
  - destruct (spawnRubble_poolWf rnd s active prev a delta overlap Hwf)
      as (d & f & l & -> & Hwf').
    exact Hwf'.
Qed.

Lemma spawnRubble_acquires_or_drops_witness :
  poolWf
    (stateOf
       (spawnRubble engineReady (mkSpin 0.5 0.5 0.5) Sample.replayed
          Sample.firstBlock Sample.foundation AxisZ 1 3)).
Proof.
  destruct
    (spawnRubble_acquires_or_drops (mkSpin 0.5 0.5 0.5) Sample.replayed
       Sample.firstBlock Sample.foundation AxisZ 1 3
       (reachable_poolWf Sample.replayed replayed_reachable)) as [_ H].
  exact H.
Defined.

(** X3: With scene and rubble mesh present and a pool of at least one but
    fewer than 80 slot records, cleanup throws inside its reset loop, at
    the first missing record: by then the stack and the active block are
    cleared, the active list is empty, and exactly the existing slots are
    switched off and listed, in order, on the free list. *)
Theorem cleanup_short_pool_throws (g : Engine) (s : GameState) :
  scene g = true -> rubbleInstances g = true ->
  (0 < length (rubbleData s) < CONFIG.MAX_RUBBLE)%nat ->
  exists s' : GameState,
    cleanup g s = Exn s'
    /\ stack s' = [] /\ activeBlock s' = None
    /\ rubbleFree s' = seq 0 (length (rubbleData s))
    /\ rubbleActive s' = []
    /\ rubbleData s' = map setInactive (rubbleData s).
Proof.
  intros Hscene Hinst [Hpos Hlt].
  rewrite (cleanup_spec g s Hscene Hinst Hpos).
  replace (CONFIG.MAX_RUBBLE <=? length (rubbleData s))%nat with false
    by (symmetry; apply Nat.leb_gt; exact Hlt).
  eexists. split; [reflexivity |].
  rewrite Nat.min_r by lia.
  rewrite take_ge, drop_ge, app_nil_r by lia.
  splits; reflexivity.
Qed.

Lemma cleanup_short_pool_throws_witness :
  exists s' : GameState,
    cleanup engineReady (set_rubbleData [freshSlot; freshSlot] initialState)
    = Exn s'
    /\ rubbleFree s' = [0%nat; 1%nat].
Proof.
  destruct (cleanup_short_pool_throws engineReady
              (set_rubbleData [freshSlot; freshSlot] initialState)
              eq_refl eq_refl ltac:(cbn; unfold CONFIG.MAX_RUBBLE; lia))
    as (s' & Heq & _ & _ & Hfree & _).
  exists s'. split; [exact Heq | exact Hfree].
Defined.

(** ** Every fragment in flight is stepped once per frame *)

Lemma swapRemove_take (a : nat) (l : list nat) :
  (a < length l)%nat -> take a (swapRemove a l) = take a l.
Proof.
  intros Ha. unfold swapRemove.
  destruct l as [| y l0 _] using rev_ind; [cbn in Ha; lia |].
  rewrite last_snoc, removelast_last.
  rewrite length_app in Ha. cbn in Ha.
  destruct (a <? length l0)%nat eqn:Hlt.
  - apply Nat.ltb_lt in Hlt.
    rewrite take_insert_ge by lia. rewrite take_app_le by lia. reflexivity.
  - apply Nat.ltb_ge in Hlt. rewrite take_app_le by lia. reflexivity.
Qed.

Lemma swapRemove_drop (a i : nat) (l : list nat) :
  l !! a = Some i -> drop a (swapRemove a l) ≡ₚ drop (S a) l.
Proof.
  intros Ha.
  assert (Hlt : (a < length l)%nat) by (eapply lookup_lt_Some; exact Ha).
  pose proof (swapRemove_perm a i l Ha) as Hp.
  rewrite <- (take_drop a (swapRemove a l)) in Hp.
  rewrite swapRemove_take in Hp by exact Hlt.
  rewrite <- (take_drop_middle l a i Ha) in Hp at 3.
  rewrite Permutation_middle in Hp.
  apply Permutation_app_inv_l in Hp.
  apply Permutation_cons_inv in Hp. exact Hp.
Qed.

(** One iteration on a well-formed pool. *)
Lemma rubbleStep_fall (dt : Q) (a i : nat) (r : RubbleSlot) (s : GameState) :
  rubbleActive s !! a = Some i ->
  rubbleData s !! i = Some r ->
  isActive r = true ->
  rubbleStep engineReady dt a s
  = Ret (if isActive (rubbleFall dt r)
         then set_rubbleData (<[i := rubbleFall dt r]> (rubbleData s)) s
         else
           set_rubbleActive (swapRemove a (rubbleActive s))
             (set_rubbleFree (rubbleFree s ++ [i])
                (set_rubbleData (<[i := rubbleFall dt r]> (rubbleData s)) s))).
Proof.
  intros Ha Hr Hon. unfold rubbleStep. rewrite Ha, Hr, Hon. cbv zeta.
  cbn [negb rubbleInstances engineReady]. unfold rubbleFall. cbv zeta.
  cbn [isActive]. case_if; reflexivity.
Qed.

Lemma rubbleLoop_fall (dt : Q) (k : nat) :
  forall s : GameState,
    poolWf s ->
    (k <= length (rubbleActive s))%nat ->
    exists s',
      rubbleLoop engineReady dt k s = Ret s'
      /\ poolWf s'
      /\ (forall (i : nat) (r : RubbleSlot),
            i ∈ take k (rubbleActive s) -> rubbleData s !! i = Some r ->
            rubbleData s' !! i = Some (rubbleFall dt r))
      /\ (forall i : nat,
            i ∉ take k (rubbleActive s) ->
            rubbleData s' !! i = rubbleData s !! i)
      /\ (forall i : nat,
            i ∈ rubbleActive s'
            <-> i ∈ drop k (rubbleActive s)
                \/ (i ∈ take k (rubbleActive s)
                    /\ exists r, rubbleData s !! i = Some r
                                 /\ isActive (rubbleFall dt r) = true)).
Proof.
  induction k as [| a IH]; intros s Hwf Hk.
  - exists s. rewrite take_0, drop_0. splits; try assumption.
    + reflexivity.
    + intros i r Hi. apply elem_of_nil in Hi. destruct Hi.
    + reflexivity.
    + intros i. split; [auto |]. intros [H | [H _]]; [exact H |].
      apply elem_of_nil in H. destruct H.
  - assert (Ha : (a < length (rubbleActive s))%nat) by lia.
    destruct (lookup_lt_is_Some_2 _ _ Ha) as [i Hi].
    assert (Hin : i ∈ rubbleActive s) by (eapply list_elem_of_lookup_2; eauto).
    pose proof (poolWf_active_NoDup s Hwf) as Hnd.
    destruct (proj1 (Forall_forall _ _) (proj2 (proj2 Hwf)) i Hin)
      as (r & Hr & Hon).
    assert (Hilt : (i < length (rubbleData s))%nat)
      by (eapply lookup_lt_Some; exact Hr).
    destruct (rubbleStep_poolWf dt a s Hwf Ha) as (s1 & Hs1 & Hwf1 & Hlen1).
    pose proof (rubbleStep_fall dt a i r s Hi Hr Hon) as Hfall.
    remember (isActive (rubbleFall dt r)) as alive eqn:Halive.
    rewrite Hs1 in Hfall. injection Hfall as Hfall.
    cbn [rubbleLoop]. rewrite Hs1. cbn [andThen].
    destruct (IH s1 Hwf1 Hlen1) as (s' & Hloop & Hwf' & Hdata & Hrest & Hact).
    exists s'. split; [exact Hloop |]. split; [exact Hwf' |].
    (* the split of the active list at [a] *)
    pose proof (take_drop_middle _ _ _ Hi) as Hmid.
    rewrite <- Hmid in Hnd.
    apply NoDup_app in Hnd as (_ & Hnd1 & Hnd2).
    apply NoDup_cons in Hnd2 as [Hnd2 _].
    assert (Hni : i ∉ take a (rubbleActive s)).
    { intros Hc. apply (Hnd1 i Hc). left. }
    rewrite (take_S_r _ _ _ Hi).
    assert (Hdata1 : rubbleData s1 = <[i := rubbleFall dt r]> (rubbleData s))
      by (rewrite Hfall; case_if; reflexivity).
    assert (Htake1 : take a (rubbleActive s1) = take a (rubbleActive s)).
    { rewrite Hfall. case_if; cbn [rubbleActive set_rubbleActive
        set_rubbleFree set_rubbleData]; [reflexivity |].
      apply swapRemove_take. exact Ha. }
    rewrite Htake1 in Hdata, Hrest, Hact. rewrite Hdata1 in Hdata, Hrest, Hact.
    splits.
    + intros j rj Hj Hrj. apply elem_of_app in Hj as [Hj | Hj].
      * apply (Hdata j rj Hj).
        rewrite list_lookup_insert_ne by (intros ->; contradiction).
        exact Hrj.
      * apply list_elem_of_singleton in Hj. subst j.
        rewrite (Hrest i Hni), list_lookup_insert_eq by exact Hilt.
        congruence.
    + intros j Hj. rewrite not_elem_of_app, list_elem_of_singleton in Hj.
      destruct Hj as [Hj1 Hj2].
      rewrite (Hrest j Hj1), list_lookup_insert_ne by congruence.
      reflexivity.
    + intros j. rewrite (Hact j). clear Hact.
      assert (Hdrop : j ∈ drop a (rubbleActive s1)
                      <-> j ∈ drop (S a) (rubbleActive s)
                          \/ (j = i /\ alive = true)).
      { rewrite Hfall. destruct alive;
          cbn [rubbleActive set_rubbleActive set_rubbleFree set_rubbleData].
        - rewrite (drop_S _ _ _ Hi), elem_of_cons. tauto.
        - rewrite (swapRemove_drop a i _ Hi).
          split; [auto | intros [H | [_ H]]; [exact H | discriminate]]. }
      rewrite Hdrop, elem_of_app, list_elem_of_singleton.
      split.
      * intros [[H | [-> H]] | [H (rj & Hrj & Hrja)]].
        -- auto.
        -- right. split; [right; reflexivity |].
           exists r. split; [exact Hr | congruence].
        -- right. split; [left; exact H |].
           rewrite list_lookup_insert_ne in Hrj by (intros ->; contradiction).
           eauto.
      * intros [H | [[H | ->] (rj & Hrj & Hrja)]].
        -- auto.
        -- right. split; [exact H |].
           exists rj. rewrite list_lookup_insert_ne by (intros ->; contradiction).
           auto.
        -- left. right. split; [reflexivity |]. congruence.
Qed.

(** What a frame does before the rubble loop leaves the pool alone. *)
Lemma frame_pool_before (dt time : Q) (s : GameState) :
  let st :=
    moveActiveBlock dt (applyFlash dt (applyShake dt (set_lastTime time s))) in
  rubbleData st = rubbleData s /\ rubbleFree st = rubbleFree s
  /\ rubbleActive st = rubbleActive s.
Proof.
  cbv zeta.
  splits;
    unfold moveActiveBlock, applyFlash, applyShake;
    repeat first
      [ case_if
      | match goal with
        | |- context [match ?x with _ => _ end] => destruct x
        end ];
    try reflexivity;
    match goal with
    | |- context [updatePowerUpTimers ?dt ?s0] =>
        destruct (updatePowerUpTimers_frame dt s0) as [m ->]; reflexivity
    end.
Qed.

(** X4: One frame on a well-formed pool returns normally and applies one
    physics step of the frame's time step to every fragment on the active
    list, exactly once each, leaving all other slots untouched; a fragment
    stays on the active list exactly when its new height is not below -120
    and otherwise moves to the free list, which loses nothing; afterwards
    every listed fragment is flagged active and at height -120 or above. *)
Theorem frame_steps_each_fragment_once (time : Q) (s : GameState) :
  poolWf s ->
  exists s' : GameState,
    animate engineReady time s = Ret s'
    /\ (forall (i : nat) (r : RubbleSlot),
          i ∈ rubbleActive s -> rubbleData s !! i = Some r ->
          rubbleData s' !! i = Some (rubbleFall (frameDt time s) r))
    /\ (forall i : nat,
          i ∉ rubbleActive s -> rubbleData s' !! i = rubbleData s !! i)
    /\ (forall i : nat,
          i ∈ rubbleActive s'
          <-> i ∈ rubbleActive s
              /\ exists r, rubbleData s !! i = Some r
                           /\ isActive (rubbleFall (frameDt time s) r) = true)
    /\ (forall i : nat,
          i ∈ rubbleFree s'
          <-> i ∈ rubbleFree s
              \/ (i ∈ rubbleActive s
                  /\ exists r, rubbleData s !! i = Some r
                               /\ isActive (rubbleFall (frameDt time s) r)
                                  = false))
    /\ (forall (i : nat) (r' : RubbleSlot),
          i ∈ rubbleActive s' -> rubbleData s' !! i = Some r' ->
          isActive r' = true /\ -120 <= vy (rposition r')).
Proof.
  intros Hwf. unfold animate, updateRubble. cbv zeta.
  destruct (frame_pool_before (frameDt time s) time s) as (Ed & Ef & Ea).
  cbv zeta in Ed, Ef, Ea.
  match goal with
  | |- context [rubbleLoop engineReady ?dt ?k ?st] =>
      assert (Hwf0 : poolWf st)
        by (eapply poolWf_ext; [exact Ed | exact Ef | exact Ea | exact Hwf]);
      destruct (rubbleLoop_fall dt k st Hwf0 ltac:(lia))
        as (s' & Hloop & Hwf' & Hdata & Hrest & Hact)
  end.
  rewrite Ea in Hdata, Hrest, Hact. rewrite Ed in Hdata, Hrest, Hact.
  rewrite take_ge in Hdata, Hrest, Hact by lia.
  rewrite drop_ge in Hact by lia.
  exists s'. split; [exact Hloop |].
  assert (Hact' : forall i : nat,
            i ∈ rubbleActive s'
            <-> i ∈ rubbleActive s
                /\ exists r, rubbleData s !! i = Some r
                             /\ isActive (rubbleFall (frameDt time s) r) = true).
  { intros i. rewrite (Hact i). split; [| auto].
    intros [H | H]; [apply elem_of_nil in H; destruct H | exact H]. }
  splits.
  - exact Hdata.
  - exact Hrest.
  - exact Hact'.
  - intros i.
    destruct Hwf as (_ & Hperm & Hflag). destruct Hwf' as (_ & Hperm' & _).
    assert (Hnd : NoDup (rubbleFree s ++ rubbleActive s))
      by (rewrite Hperm; apply NoDup_seq).
    assert (Hnd' : NoDup (rubbleFree s' ++ rubbleActive s'))
      by (rewrite Hperm'; apply NoDup_seq).
    apply NoDup_app in Hnd as (_ & Hdisj & _).
    apply NoDup_app in Hnd' as (_ & Hdisj' & _).
    assert (Hsame : i ∈ rubbleFree s' ++ rubbleActive s'
                    <-> i ∈ rubbleFree s ++ rubbleActive s)
      by (rewrite Hperm, Hperm'; reflexivity).
    rewrite !elem_of_app in Hsame. specialize (Hact' i).
    split.
    + intros Hfree. pose proof (Hdisj' i Hfree) as Hna.
      destruct (proj1 Hsame (or_introl Hfree)) as [H | H]; [auto |].
      right. split; [exact H |].
      destruct (proj1 (Forall_forall _ _) Hflag i H) as (r & Hr & _).
      exists r. split; [exact Hr |].
      destruct (isActive (rubbleFall (frameDt time s) r)) eqn:Hal;
        [| reflexivity].
      exfalso. apply Hna. apply Hact'. eauto.
    + intros [Hfree | [Hin (r & Hr & Hdead)]].
      * destruct (proj2 Hsame (or_introl Hfree)) as [H | H]; [exact H |].
        exfalso. apply Hact' in H as [H _]. exact (Hdisj i Hfree H).
      * destruct (proj2 Hsame (or_intror Hin)) as [H | H]; [exact H |].
        exfalso. apply Hact' in H as (_ & r2 & Hr2 & Hal). congruence.
  - intros i r' Hi Hr'. apply Hact' in Hi as (Hin & r & Hr & Hal).
    rewrite (Hdata i r Hin Hr) in Hr'. injection Hr' as <-.
    split; [exact Hal |].
    unfold rubbleFall in *. cbv zeta in *. cbn [isActive rposition vy] in *.
    apply negb_true_iff, Qltb_false in Hal. exact Hal.
Qed.

Lemma frames_poolWf (times : list Q) :
  forall s : GameState, poolWf s -> poolWf (frames engineReady times s).
Proof.
  induction times as [| t ts IH]; intros s Hwf; [exact Hwf |].
  cbn [frames fold_left]. apply IH.
  destruct (animate_poolWf t s Hwf) as (s' & -> & Hwf'). exact Hwf'.
Qed.

Lemma cut_poolWf : poolWf Sample.cut.
Proof.
  unfold Sample.cut, Sample.moved, Sample.started.
  apply poolWf_placeBlock, frames_poolWf, poolWf_startGame.
  apply reachable_poolWf, reach_boot.
Qed.

Lemma frame_steps_each_fragment_once_witness :
  exists s' : GameState,
    animate engineReady 4040 Sample.cut = Ret s'
    /\ rubbleActive Sample.cut = [79%nat]
    /\ rubbleData s' !! 79%nat
       = Some (rubbleFall (frameDt 4040 Sample.cut) Sample.cutFragment)
    /\ vy (rposition (rubbleFall (frameDt 4040 Sample.cut) Sample.cutFragment))
       == vy (rposition Sample.cutFragment) - 2
    /\ 79%nat ∈ rubbleActive s'.
Proof.
  destruct (frame_steps_each_fragment_once 4040 Sample.cut cut_poolWf)
    as (s' & Hret & Hstep & _ & Hact & _).
  assert (Hin : 79%nat ∈ rubbleActive Sample.cut).
  { replace (rubbleActive Sample.cut) with [79%nat] by by_compute.
    apply list_elem_of_singleton. reflexivity. }
  assert (Hr : rubbleData Sample.cut !! 79%nat = Some Sample.cutFragment)
    by by_compute.
  exists s'. splits.
  - exact Hret.
  - by_compute.
  - exact (Hstep 79%nat Sample.cutFragment Hin Hr).
  - by_compute.
  - apply Hact. split; [exact Hin |].
    exists Sample.cutFragment. split; [exact Hr | by_compute].
Defined.

(** * Power-ups *)

(** ** The power-up inventory *)

Lemma findIndex_Some {A : Type} (p : A -> bool) (l : list A) (i : nat) :
  findIndex p l = Some i ->
  (exists x, l !! i = Some x /\ p x = true)
  /\ forall j x, (j < i)%nat -> l !! j = Some x -> p x = false.
Proof.
  revert i. induction l as [| y l IH]; intros i; cbn [findIndex].
  - discriminate.
  - destruct (p y) eqn:Hy.
    + intros [= <-]. split; [exists y; auto | intros j x Hj; lia].
    + destruct (findIndex p l) as [k |]; cbn; [| discriminate].
      intros [= <-]. destruct (IH k eq_refl) as [Hk Hbefore]. split.
      * exact Hk.
      * intros [| j] x Hj; cbn.
        -- intros [= <-]. exact Hy.
        -- apply Hbefore. lia.
Qed.

Lemma findIndex_None {A : Type} (p : A -> bool) (l : list A) :
  findIndex p l = None <-> Forall (fun x => p x = false) l.
Proof.
  induction l as [| y l IH]; cbn [findIndex].
  - split; [constructor | reflexivity].
  - destruct (p y) eqn:Hy.
    + split; [discriminate |]. intros H. inversion H; congruence.
    + destruct (findIndex p l) as [k |]; cbn.
      * split; [discriminate |]. intros H. inversion H as [| ? ? _ Hl].
        apply IH in Hl. discriminate.
      * split; [| reflexivity]. intros _. constructor; [exact Hy |].
        apply IH. reflexivity.
Qed.

(** A draw in [0, 1) picks one of the four kinds. *)
Lemma randomType_Some (rnd : Q) :
  0 <= rnd < 1 -> exists k : Kind.t, randomType rnd = Some k.
Proof.
  intros [H0 H1]. unfold randomType.
  assert (Hlo : (0 <= Qfloor (rnd * 4))%Z).
  { change 0%Z with (Qfloor 0). apply Qfloor_resp_le. lra. }
  assert (Hhi : (Qfloor (rnd * 4) < 4)%Z).
  { rewrite Zlt_Qlt. apply Qle_lt_trans with (rnd * 4); [apply Qfloor_le |].
    change (inject_Z 4) with 4. lra. }
  assert (Hn : (Z.to_nat (Qfloor (rnd * 4)) < 4)%nat) by lia.
  destruct (Z.to_nat (Qfloor (rnd * 4))) as [| [| [| [| n]]]];
    [cbn; eauto .. | lia].
Qed.

(** X5: For a random draw in [0, 1), awardPowerUp keeps the length of the
    inventory and every filled slot; with no empty slot it changes
    nothing; otherwise it writes one power-up kind into the first empty
    slot and changes nothing else of the state. *)
Theorem awardPowerUp_fills_first_empty (rnd : Q) (s : GameState) :
  0 <= rnd < 1 ->
  length (powerUps (awardPowerUp rnd s)) = length (powerUps s)
  /\ (forall (i : nat) (k : Kind.t),
        powerUps s !! i = Some (Some k) ->
        powerUps (awardPowerUp rnd s) !! i = Some (Some k))
  /\ (Forall (fun slot => slot <> None) (powerUps s) -> awardPowerUp rnd s = s)
  /\ (forall i : nat,
        powerUps s !! i = Some None ->
        (forall (j : nat) (slot : option Kind.t),
           (j < i)%nat -> powerUps s !! j = Some slot -> slot <> None) ->
        exists k : Kind.t,
          awardPowerUp rnd s
          = set_powerUps (<[i := Some k]> (powerUps s)) s).
Proof.
  intros Hrnd. destruct (randomType_Some rnd Hrnd) as [k Hk].
  unfold awardPowerUp. rewrite Hk.
  destruct (findIndex isNull (powerUps s)) as [e |] eqn:Hfind.
  - destruct (findIndex_Some _ _ _ Hfind) as [(x & Hx & Hnull) Hbefore].
    destruct x as [x |]; [discriminate |]. splits.
    + cbn [powerUps set_powerUps]. apply length_insert.
    + intros i k' Hi. cbn [powerUps set_powerUps].
      rewrite list_lookup_insert_ne; [exact Hi | congruence].
    + intros Hfull. apply (proj1 (Forall_lookup _ _) Hfull) in Hx.
      congruence.
    + intros i Hi Hfirst. exists k.
      destruct (Nat.lt_trichotomy i e) as [Hlt | [-> | Hgt]].
      * specialize (Hbefore i None Hlt Hi). discriminate.
      * reflexivity.
      * specialize (Hfirst e None Hgt Hx). congruence.
  - apply findIndex_None in Hfind. splits.
    + reflexivity.
    + auto.
    + reflexivity.
    + intros i Hi _. apply (proj1 (Forall_lookup _ _) Hfind) in Hi.
      discriminate.
Qed.

Lemma awardPowerUp_fills_first_empty_witness :
  powerUps (awardPowerUp 0.3 Sample.started) !! 0%nat
  = Some (Some Kind.safetyNet)
  /\ length (powerUps (awardPowerUp 0.3 Sample.started))
     = length (powerUps Sample.started).
Proof.
  split; [reflexivity |].
  exact (proj1 (awardPowerUp_fills_first_empty 0.3 Sample.started
                  ltac:(split; [discriminate | reflexivity]))).
Defined.

Lemma length_removelast_snoc {A : Type} (l : list A) (x y : A) :
  last l = Some y -> length (removelast l ++ [x]) = length l.
Proof.
  intros H. apply last_Some in H as [l' ->].
  rewrite removelast_last, !length_app. reflexivity.
Qed.

(** X6: activatePowerUp does nothing unless the status is PLAYING and the
    slot holds a power-up; then it empties exactly that slot, keeps
    status, score, combo and stack height, and starts the effect: slow-mo
    on for 10 seconds, the safety net on with one use, super size on for
    two placements (each leaving the other effects, the stack and the
    moving block alone), or reset-size, which restores the top block to 4
    by 4 centred on the tower at its height and the moving block to 4 by 4
    with its off-axis coordinate 0, keeping the rest of the stack. *)
Theorem activatePowerUp_consumes_slot (i : nat) (s : GameState) :
  (status s <> PLAYING \/ powerUps s !! i = None \/ powerUps s !! i = Some None ->
   activatePowerUp i s = s)
  /\ (forall k : Kind.t,
        status s = PLAYING -> powerUps s !! i = Some (Some k) ->
        let s' := activatePowerUp i s in
        powerUps s' = <[i := None]> (powerUps s)
        /\ status s' = PLAYING
        /\ score s' = score s /\ combo s' = combo s
        /\ length (stack s') = length (stack s)
        /\ match k with
           | Kind.slowMo =>
               slowMo (activePowerUps s') = mkSlowMo true 10
               /\ safetyNet (activePowerUps s') = safetyNet (activePowerUps s)
               /\ superSize (activePowerUps s') = superSize (activePowerUps s)
               /\ stack s' = stack s /\ activeBlock s' = activeBlock s
           | Kind.safetyNet =>
               safetyNet (activePowerUps s') = mkSafetyNet true 1
               /\ slowMo (activePowerUps s') = slowMo (activePowerUps s)
               /\ superSize (activePowerUps s') = superSize (activePowerUps s)
               /\ stack s' = stack s /\ activeBlock s' = activeBlock s
           | Kind.superSize =>
               superSize (activePowerUps s') = mkSuperSize true 2
               /\ slowMo (activePowerUps s') = slowMo (activePowerUps s)
               /\ safetyNet (activePowerUps s') = safetyNet (activePowerUps s)
               /\ stack s' = stack s /\ activeBlock s' = activeBlock s
           | Kind.resetSize =>
               activePowerUps s' = activePowerUps s
               /\ (stack s = [] -> stack s' = [] /\ activeBlock s' = activeBlock s)
               /\ (forall top : Block,
                     last (stack s) = Some top ->
                     last (stack s')
                     = Some (mkBlock (mkVector3 0 (vy (position top)) 0)
                               4 1 4 4 4)
                     /\ removelast (stack s') = removelast (stack s)
                     /\ match activeBlock s with
                        | None => activeBlock s' = None
                        | Some b =>
                            exists b' : Block,
                              activeBlock s' = Some b'
                              /\ width b' = 4 /\ depth b' = 4
                              /\ baseWidth b' = 4 /\ baseDepth b' = 4
                              /\ vget (axis s) (position b')
                                 = vget (axis s) (position b)
                              /\ vy (position b') = vy (position b)
                              /\ vget (otherAxis (axis s)) (position b') = 0
                        end)
           end).
Proof.
  split.
  - unfold activatePowerUp. intros [Hst | [Hslot | Hslot]].
    + destruct (status s); try reflexivity. congruence.
    + rewrite Hslot. destruct (status s); reflexivity.
    + rewrite Hslot. destruct (status s); reflexivity.
  - intros k Hst Hslot s'. subst s'. unfold activatePowerUp.
    rewrite Hst, Hslot. cbv zeta.
    destruct k.
    + cbn. splits; try reflexivity; exact Hst.
    + cbn. splits; try reflexivity; exact Hst.
    + cbn. splits; try reflexivity; exact Hst.
    + destruct (last (stack s)) as [top |] eqn:Htop.
      * assert (Hlen : length (removelast (stack s)
                         ++ [mkBlock (mkVector3 0 (vy (position top)) 0)
                               CONFIG.INITIAL_SIZE CONFIG.BLOCK_HEIGHT
                               CONFIG.INITIAL_SIZE CONFIG.INITIAL_SIZE
                               CONFIG.INITIAL_SIZE]) = length (stack s))
          by (eapply length_removelast_snoc; exact Htop).
        cbn [activeBlock set_stack axis].
        destruct (activeBlock s) as [b |] eqn:Hb.
        -- cbn. splits; try reflexivity; try exact Hlen; try exact Hst.
           ++ intros Hnil. rewrite Hnil in Htop. discriminate Htop.
           ++ intros top' [= <-]. rewrite last_snoc, removelast_last.
              splits; try reflexivity.
              eexists. split; [reflexivity |].
              destruct (axis s); splits; reflexivity.
        -- cbn. splits; try reflexivity; try exact Hlen; try exact Hst.
           ++ intros Hnil. rewrite Hnil in Htop. discriminate Htop.
           ++ intros top' [= <-]. rewrite last_snoc, removelast_last.
              splits; try reflexivity; exact Hb.
      * cbn. splits; try reflexivity; try exact Hst.
        -- intros Hnil. split; [exact Hnil | reflexivity].
        -- intros top [=].
Qed.

(** * Placing and spawning *)

(** The window for a perfect placement is never narrower than 0.15. *)
Lemma mercyThreshold_bounds (s : GameState) :
  0.15 <= mercyThreshold s <= 0.45.
Proof.
  unfold mercyThreshold. cbv zeta.
  destruct (difficulty s); cbn [DIFFICULTIES mercy threshold];
    case_if; split; by_compute.
Qed.

(** ** What the helpers of placeBlock write *)

Lemma set_superSize_id (s : GameState) :
  set_superSize (superSize (activePowerUps s)) s = s.
Proof.
  destruct s as [].
  match goal with a : ActivePowerUps |- _ => destruct a end.
  reflexivity.
Qed.

Lemma decrementSuperSize_frame (s : GameState) :
  exists m, decrementSuperSize s = set_superSize m s.
Proof.
  unfold decrementSuperSize. cbv zeta. case_if; [eauto |].
  exists (superSize (activePowerUps s)). symmetry. apply set_superSize_id.
Qed.

Lemma awardPowerUp_frame (rnd : Q) (s : GameState) :
  exists l, awardPowerUp rnd s = set_powerUps l s.
Proof.
  unfold awardPowerUp. destruct (findIndex isNull (powerUps s)); [eauto |].
  exists (powerUps s). destruct s; reflexivity.
Qed.

(** spawnNewBlock with a scene and a block to build on. *)
Lemma spawnNewBlock_Ret (g : Engine) (t rnd : Q) (s : GameState)
    (prev : Block) :
  scene g = true ->
  last (stack s) = Some prev ->
  exists (mesh : Block) (dir : Q),
    spawnNewBlock g t rnd s
    = Ret (set_lastSpawnTime t
             (set_activeBlock (Some mesh)
                (set_direction dir (set_axis (otherAxis (axis s)) s))))
    /\ (dir = 1 /\ vget (otherAxis (axis s)) (position mesh) = -12
        \/ dir = -1 /\ vget (otherAxis (axis s)) (position mesh) = 12)
    /\ vget (axis s) (position mesh) = vget (axis s) (position prev)
    /\ vy (position mesh)
       = inject_Z (Z.of_nat (length (stack s))) * CONFIG.BLOCK_HEIGHT
         + CONFIG.BLOCK_HEIGHT / 2
    /\ baseWidth mesh = js_or (baseWidth prev) (width prev)
    /\ baseDepth mesh = js_or (baseDepth prev) (depth prev)
    /\ (width mesh = baseWidth mesh /\ depth mesh = baseDepth mesh
        \/ width mesh = baseWidth mesh * 1.3
           /\ depth mesh = baseDepth mesh * 1.3).
Proof.
  intros Hscene Hprev. unfold spawnNewBlock. rewrite Hprev. cbv zeta.
  rewrite Hscene. cbn [axis set_axis set_direction stack activePowerUps].
  eexists _, _. split; [reflexivity |].
  destruct (Qltb 0.5 rnd);
    [change (Qltb 0 12) with true | change (Qltb 0 (-12)) with false];
    cbv iota;
    (destruct (axis s); cbn [otherAxis vget vset position vx vy vz width depth
                             baseWidth baseDepth];
     case_if; splits; auto).
Qed.



(** X9: spawnNewBlock flips the axis first. With an empty stack it throws
    having changed only the axis; with a stack but no scene it throws
    leaving active block, stack and spawn time as they were; otherwise it
    returns with a new active block at distance 12 from the centre on the
    new axis, the direction of travel pointing back towards the centre,
    aligned with the top block on the other axis, one level above the
    stack, and records the spawn time. *)
Theorem spawnNewBlock_spawns_inward (g : Engine) (t rnd : Q) (s : GameState) :
  (stack s = [] ->
   spawnNewBlock g t rnd s = Exn (set_axis (otherAxis (axis s)) s))
  /\ (forall prev : Block,
        last (stack s) = Some prev -> scene g = false ->
        exists s' : GameState,
          spawnNewBlock g t rnd s = Exn s'
          /\ activeBlock s' = activeBlock s /\ stack s' = stack s
          /\ lastSpawnTime s' = lastSpawnTime s
          /\ axis s' = otherAxis (axis s))
  /\ (forall prev : Block,
        last (stack s) = Some prev -> scene g = true ->
        exists (s' : GameState) (b : Block),
          spawnNewBlock g t rnd s = Ret s'
          /\ activeBlock s' = Some b
          /\ axis s' = otherAxis (axis s)
          /\ lastSpawnTime s' = t
          /\ stack s' = stack s /\ score s' = score s
          /\ Qabs (vget (axis s') (position b)) = 12
          /\ direction s' * vget (axis s') (position b) = -12
          /\ vget (axis s) (position b) = vget (axis s) (position prev)
          /\ vy (position b)
             = inject_Z (Z.of_nat (length (stack s))) * CONFIG.BLOCK_HEIGHT
               + CONFIG.BLOCK_HEIGHT / 2).
Proof.
  splits.
  - intros Hnil. unfold spawnNewBlock. rewrite Hnil. reflexivity.
  - intros prev Hprev Hscene. unfold spawnNewBlock.
    rewrite Hprev. cbv zeta. rewrite Hscene.
    eexists. split; [reflexivity |]. splits; reflexivity.
  - intros prev Hprev Hscene.
    destruct (spawnNewBlock_Ret g t rnd s prev Hscene Hprev)
      as (mesh & dir & -> & Hdir & Hother & Hy & _).
    eexists _, mesh. split; [reflexivity |].
    cbn [activeBlock axis lastSpawnTime stack score direction
         set_lastSpawnTime set_activeBlock set_direction set_axis].
    splits; try reflexivity; try assumption.
    + destruct Hdir as [[_ ->] | [_ ->]]; reflexivity.
    + destruct Hdir as [[-> ->] | [-> ->]]; reflexivity.
Qed.

(** * Frames, pause and input *)

(** X11: A frame in a state that is not PLAYING, or that has no active
    block, leaves the active block, the direction, the power-up effects,
    the status, the stack, score, combo and the screen as they are, and
    records the frame's time stamp, whether or not the frame runs to its
    end. *)
Theorem animate_freezes_block_outside_play (g : Engine) (time : Q)
    (s : GameState) :
  status s <> PLAYING \/ activeBlock s = None ->
  let s' := stateOf (animate g time s) in
  activeBlock s' = activeBlock s
  /\ direction s' = direction s
  /\ activePowerUps s' = activePowerUps s
  /\ status s' = status s
  /\ stack s' = stack s /\ score s' = score s /\ combo s' = combo s
  /\ ui s' = ui s
  /\ lastTime s' = time.
Proof.
  intros Hidle s'. subst s'. unfold animate, updateRubble. cbv zeta.
  match goal with
  | |- context [rubbleLoop g ?dt ?k ?st] =>
      destruct (rubbleLoop_pool g dt k st) as (d & f & l & ->)
  end.
  assert (Hmove : forall dt s0,
            status s0 = status s -> activeBlock s0 = activeBlock s ->
            moveActiveBlock dt s0 = s0).
  { intros dt s0 Hst Hb. unfold moveActiveBlock. rewrite Hst, Hb.
    destruct Hidle as [Hidle | ->].
    - destruct (status s); try reflexivity. congruence.
    - destruct (status s); reflexivity. }
  rewrite Hmove.
  - unfold withPool, applyFlash, applyShake.
    repeat case_if; splits; reflexivity.
  - unfold applyFlash, applyShake. repeat case_if; reflexivity.
  - unfold applyFlash, applyShake. repeat case_if; reflexivity.
Qed.

Lemma animate_freezes_block_outside_play_witness :
  activeBlock (stateOf (animate engineReady 5000 Sample.over))
  = activeBlock Sample.over.
Proof.
  exact (proj1 (animate_freezes_block_outside_play engineReady 5000
                  Sample.over ltac:(left; by_compute))).
Defined.

(** X12: From a PLAYING state showing the HUD, pauseGame gives status
    PAUSED with the pause screen, and resumeGame at time t then restores
    the state exactly as it was, except that lastTime is t. *)
Theorem pause_resume_round_trip (t : Q) (s : GameState) :
  status s = PLAYING -> ui s = ScreenHUD ->
  status (pauseGame s) = PAUSED
  /\ ui (pauseGame s) = ScreenPaused
  /\ resumeGame t (pauseGame s) = set_lastTime t s.
Proof.
  intros Hst Hui. unfold pauseGame, resumeGame. rewrite Hst.
  cbn. splits; try reflexivity.
  destruct s; cbn in *; subst; reflexivity.
Qed.

Lemma pause_resume_round_trip_witness :
  resumeGame 7000 (pauseGame Sample.started) = set_lastTime 7000 Sample.started.
Proof.
  exact (proj2 (proj2
    (pause_resume_round_trip 7000 Sample.started eq_refl eq_refl))).
Defined.

Lemma placeBlock_in_grace (g : Engine) (e : Env) (s : GameState) :
  inGracePeriod (now e) s = true -> placeBlock g e s = Ret s.
Proof.
  intros H. unfold placeBlock. rewrite H.
  destruct (activeBlock s); reflexivity.
Qed.

Lemma inGracePeriod_true (t : Q) (s : GameState) :
  ~ lastSpawnTime s == 0 -> t - lastSpawnTime s < 2000 ->
  inGracePeriod t s = true.
Proof.
  intros Hne Hlt. unfold inGracePeriod.
  apply Qeq_bool_false in Hne. apply Qltb_true in Hlt.
  rewrite Hne, Hlt. reflexivity.
Qed.

(** X13: While a spawn time is recorded (not 0) and less than 2000 ms have
    passed since it, a tap or a controller press places nothing:
    handleInput returns the state unchanged or with only lastInputTime
    updated, handleVRInput returns it unchanged or with only that
    controller's cooldown updated. *)
Theorem input_ignored_within_grace (g : Engine) (c : Controller) (t : Q)
    (e : Env) (s : GameState) :
  ~ lastSpawnTime s == 0 -> now e - lastSpawnTime s < 2000 ->
  (handleInput g t e s = Ret s
   \/ handleInput g t e s = Ret (set_lastInputTime t s))
  /\ (handleVRInput g c t e s = Ret s
      \/ handleVRInput g c t e s
         = Ret (set_controllerInputCooldown
                  (setCooldown c t (controllerInputCooldown s)) s)).
Proof.
  intros Hne Hlt.
  pose proof (inGracePeriod_true (now e) s Hne Hlt) as Hgrace.
  split.
  - unfold handleInput. destruct (status s); auto.
    repeat case_if; auto.
    right. apply placeBlock_in_grace. exact Hgrace.
  - unfold handleVRInput. destruct (status s); auto.
    repeat case_if; auto.
    right. apply placeBlock_in_grace. exact Hgrace.
Qed.

Lemma input_ignored_within_grace_witness :
  handleInput engineReady 2500 (Sample.env 2500) Sample.started
  = Ret (set_lastInputTime 2500 Sample.started).
Proof.
  destruct (input_ignored_within_grace engineReady Controller0 2500
              (Sample.env 2500) Sample.started
              ltac:(by_compute) ltac:(by_compute)) as [[H | H] _].
  - exfalso. revert H. by_compute.
  - exact H.
Defined.

(** * Effects and motion over a run *)

(** *** Power-up effects and motion parameters *)

Lemma playInv_ext (s s' : GameState) :
  powerUps s' = powerUps s -> activePowerUps s' = activePowerUps s ->
  direction s' = direction s -> speed s' = speed s ->
  playInv s -> playInv s'.
Proof.
  unfold playInv, effectsSound, motionSound. intros -> -> -> ->. trivial.
Qed.

Lemma playInv_set_powerUps (l : list (option Kind.t)) (s : GameState) :
  length l = 3%nat -> playInv s -> playInv (set_powerUps l s).
Proof.
  intros Hl ((_ & Hfx) & Hm). split; [split |]; assumption.
Qed.

Lemma playInv_set_slowMo (v : SlowMo) (s : GameState) :
  slowMo_active v = true /\ 0 < duration v \/ v = mkSlowMo false 0 ->
  playInv s -> playInv (set_slowMo v s).
Proof.
  intros Hv ((Hl & _ & Hsn & Hss) & Hm). split; [| exact Hm].
  unfold effectsSound. cbn. auto.
Qed.

Lemma playInv_set_safetyNet (v : SafetyNet) (s : GameState) :
  v = mkSafetyNet true 1 \/ v = mkSafetyNet false 0 ->
  playInv s -> playInv (set_safetyNet v s).
Proof.
  intros Hv ((Hl & Hsm & _ & Hss) & Hm). split; [| exact Hm].
  unfold effectsSound. cbn. auto.
Qed.

Lemma playInv_set_superSize (v : SuperSize) (s : GameState) :
  v = mkSuperSize true 2 \/ v = mkSuperSize true 1 \/ v = mkSuperSize false 0 ->
  playInv s -> playInv (set_superSize v s).
Proof.
  intros Hv ((Hl & Hsm & Hsn & _) & Hm). split; [| exact Hm].
  unfold effectsSound. cbn. auto.
Qed.

Lemma playInv_set_activePowerUps (s : GameState) :
  playInv s -> playInv (set_activePowerUps noActivePowerUps s).
Proof.
  intros ((Hl & _) & Hm). split; [| exact Hm].
  unfold effectsSound. cbv zeta.
  splits;
    [ exact Hl | right; reflexivity | right; reflexivity
    | right; right; reflexivity ].
Qed.

Lemma playInv_set_direction (v : Q) (s : GameState) :
  v = 1 \/ v = -1 -> playInv s -> playInv (set_direction v s).
Proof. intros Hv (He & _ & Hsp). split; [exact He | split; assumption]. Qed.

Lemma playInv_set_speed (v : Q) (s : GameState) :
  0.12 <= v <= 0.7 -> playInv s -> playInv (set_speed v s).
Proof. intros Hv (He & Hd & _). split; [exact He | split; assumption]. Qed.

Lemma DIFFICULTIES_bounds (d : Difficulty) :
  0.12 <= initial (DIFFICULTIES d) <= 0.7
  /\ 0.12 <= max (DIFFICULTIES d) <= 0.7
  /\ 0 <= inc (DIFFICULTIES d).
Proof. destruct d; splits; by_compute. Qed.

(** A field assignment that the invariant reads. *)
Ltac play_write :=
  match goal with
  | |- playInv (set_powerUps (<[_ := _]> _) _) =>
      apply playInv_set_powerUps;
      [ rewrite length_insert;
        match goal with H : playInv _ |- _ => exact (proj1 (proj1 H)) end |]
  | |- playInv (set_powerUps [None; None; None] _) =>
      apply playInv_set_powerUps; [reflexivity |]
  | |- playInv (set_activePowerUps noActivePowerUps _) =>
      apply playInv_set_activePowerUps
  | |- playInv (set_slowMo (mkSlowMo true ?d) _) =>
      apply playInv_set_slowMo;
      [ left; split; [reflexivity | first [ by_compute | cbn [duration];
          match goal with
          | H : Qle_bool _ 0 = false |- _ => apply Qle_bool_false in H; exact H
          end ] ] |]
  | |- playInv (set_slowMo (mkSlowMo false 0) _) =>
      apply playInv_set_slowMo; [right; reflexivity |]
  | |- playInv (set_safetyNet (mkSafetyNet true 1) _) =>
      apply playInv_set_safetyNet; [left; reflexivity |]
  | |- playInv (set_superSize (mkSuperSize true 2) _) =>
      apply playInv_set_superSize; [left; reflexivity |]
  | H : playInv ?s
    |- playInv (set_safetyNet (mkSafetyNet _ (uses (safetyNet (activePowerUps ?s)) - 1)) ?s) =>
      apply playInv_set_safetyNet; [| exact H];
      destruct H as ((_ & _ & [Hn | Hn] & _) & _);
      rewrite Hn in *; cbn in *; first [ discriminate | auto ]
  | H : playInv ?s
    |- playInv (set_superSize (mkSuperSize _ (count (superSize (activePowerUps ?s)) - 1)) ?s) =>
      apply playInv_set_superSize; [| exact H];
      destruct H as ((_ & _ & _ & [Hn | [Hn | Hn]]) & _);
      rewrite Hn in *; cbn in *; first [ discriminate | auto ]
  | |- playInv (set_direction (if _ then -1 else 1) _) =>
      apply playInv_set_direction; [case_if; auto |]
  | H : playInv ?s |- playInv (set_direction (direction ?s * -1) ?s) =>
      apply playInv_set_direction; [| exact H];
      destruct H as (_ & [Hd | Hd] & _); rewrite Hd; [right | left];
      reflexivity
  | |- playInv (set_speed (initial (DIFFICULTIES ?d)) _) =>
      apply playInv_set_speed; [exact (proj1 (DIFFICULTIES_bounds d)) |]
  | H : playInv ?s
    |- playInv (set_speed (Qmin (max (DIFFICULTIES ?d)) (speed ?s + inc (DIFFICULTIES ?d))) ?s) =>
      apply playInv_set_speed; [| exact H];
      destruct (DIFFICULTIES_bounds d) as (_ & [Hlo Hhi] & Hinc);
      destruct H as (_ & _ & [Hslo Hshi]);
      split;
      [ apply Q.min_glb; [exact Hlo | lra]
      | eapply Qle_trans; [apply Q.le_min_l | exact Hhi] ]
  end.

Ltac play_same P f s :=
  first
    [ apply (playInv_ext s (f s) eq_refl eq_refl eq_refl eq_refl)
    | play_write ].

Ltac play_call0 _ := fail.

Lemma playInv_triggerShake (amp dur : Q) (s : GameState) :
  playInv s -> playInv (triggerShake amp dur s).
Proof.
  intros H. cbv delta [triggerShake]. cbv beta.
  repeat inv_step play_same play_call0.
Qed.

Ltac play_call1 _ :=
  match goal with
  | |- playInv (triggerShake _ _ _) => apply playInv_triggerShake
  | |- _ => play_call0 tt
  end.

Lemma playInv_awardPowerUp (rnd : Q) (s : GameState) :
  playInv s -> playInv (awardPowerUp rnd s).
Proof.
  intros H. cbv delta [awardPowerUp]. cbv beta.
  repeat inv_step play_same play_call1.
Qed.

Ltac play_call2 _ :=
  match goal with
  | |- playInv (awardPowerUp _ _) => apply playInv_awardPowerUp
  | |- _ => play_call1 tt
  end.

Lemma playInv_decrementSuperSize (s : GameState) :
  playInv s -> playInv (decrementSuperSize s).
Proof.
  intros H. cbv delta [decrementSuperSize]. cbv beta.
  repeat inv_step play_same play_call2.
Qed.

Ltac play_call3 _ :=
  match goal with
  | |- playInv (decrementSuperSize _) => apply playInv_decrementSuperSize
  | |- _ => play_call2 tt
  end.

Lemma playInv_updatePowerUpTimers (dt : Q) (s : GameState) :
  playInv s -> playInv (updatePowerUpTimers dt s).
Proof.
  intros H. cbv delta [updatePowerUpTimers]. cbv beta.
  repeat inv_step play_same play_call3.
Qed.

Ltac play_call4 _ :=
  match goal with
  | |- playInv (updatePowerUpTimers _ _) => apply playInv_updatePowerUpTimers
  | |- _ => play_call3 tt
  end.

Lemma playInv_activatePowerUp (i : nat) (s : GameState) :
  playInv s -> playInv (activatePowerUp i s).
Proof.
  intros H. cbv delta [activatePowerUp]. cbv beta.
  repeat inv_step play_same play_call4.
Qed.

Ltac play_call5 _ :=
  match goal with
  | |- playInv (activatePowerUp _ _) => apply playInv_activatePowerUp
  | |- _ => play_call4 tt
  end.

Lemma playInv_render (s : GameState) :
  playInv s -> playInv (render s).
Proof.
  intros H. cbv delta [render]. cbv beta.
  repeat inv_step play_same play_call5.
Qed.

Ltac play_call6 _ :=
  match goal with
  | |- playInv (render _) => apply playInv_render
  | |- _ => play_call5 tt
  end.

Lemma playInv_gameOver (s : GameState) :
  playInv s -> playInv (gameOver s).
Proof.
  intros H. cbv delta [gameOver triggerCrashFeedback]. cbv beta.
  repeat inv_step play_same play_call6.
Qed.

Ltac play_call7 _ :=
  match goal with
  | |- playInv (gameOver _) => apply playInv_gameOver
  | |- _ => play_call6 tt
  end.

Lemma playInv_continueGame (s : GameState) :
  playInv s -> playInv (continueGame s).
Proof.
  intros H. cbv delta [continueGame]. cbv beta.
  repeat inv_step play_same play_call7.
Qed.

Ltac play_call8 _ :=
  match goal with
  | |- playInv (continueGame _) => apply playInv_continueGame
  | |- _ => play_call7 tt
  end.

Lemma playInv_resumeGame (t : Q) (s : GameState) :
  playInv s -> playInv (resumeGame t s).
Proof.
  intros H. cbv delta [resumeGame]. cbv beta.
  repeat inv_step play_same play_call8.
Qed.

Ltac play_call9 _ :=
  match goal with
  | |- playInv (resumeGame _ _) => apply playInv_resumeGame
  | |- _ => play_call8 tt
  end.

Lemma playInv_pauseGame (s : GameState) :
  playInv s -> playInv (pauseGame s).
Proof.
  intros H. cbv delta [pauseGame]. cbv beta.
  repeat inv_step play_same play_call9.
Qed.

Ltac play_call10 _ :=
  match goal with
  | |- playInv (pauseGame _) => apply playInv_pauseGame
  | |- _ => play_call9 tt
  end.

Lemma playInv_setDifficulty (d : Difficulty) (s : GameState) :
  playInv s -> playInv (setDifficulty d s).
Proof.
  intros H. cbv delta [setDifficulty]. cbv beta.
  repeat inv_step play_same play_call10.
Qed.

Ltac play_call11 _ :=
  match goal with
  | |- playInv (setDifficulty _ _) => apply playInv_setDifficulty
  | |- _ => play_call10 tt
  end.

Lemma playInv_createFoundation (g : Engine) (s : GameState) :
  playInv s -> playInv (stateOf (createFoundation g s)).
Proof.
  intros H. cbv delta [createFoundation]. cbv beta.
  repeat inv_step play_same play_call11.
Qed.

Ltac play_call12 _ :=
  match goal with
  | |- playInv (stateOf (createFoundation _ _)) => apply playInv_createFoundation
  | |- _ => play_call11 tt
  end.

Lemma playInv_spawnNewBlock (g : Engine) (t rnd : Q) (s : GameState) :
  playInv s -> playInv (stateOf (spawnNewBlock g t rnd s)).
Proof.
  intros H. cbv delta [spawnNewBlock]. cbv beta.
  repeat inv_step play_same play_call12.
Qed.

Ltac play_call13 _ :=
  match goal with
  | |- playInv (stateOf (spawnNewBlock _ _ _ _)) => apply playInv_spawnNewBlock
  | |- _ => play_call12 tt
  end.

Lemma playInv_spawnRubble (g : Engine) (rnd : Spin) (active prev : Block) (a : Axis) (delta overlap : Q) (s : GameState) :
  playInv s -> playInv (stateOf (spawnRubble g rnd s active prev a delta overlap)).
Proof.
  intros H. cbv delta [spawnRubble]. cbv beta.
  repeat inv_step play_same play_call13.
Qed.

Ltac play_call14 _ :=
  match goal with
  | |- playInv (stateOf (spawnRubble _ _ _ _ _ _ _ _)) => apply playInv_spawnRubble
  | |- _ => play_call13 tt
  end.

Lemma playInv_pushPlaced (g : Engine) (e : Env) (b : Block) (s : GameState) :
  playInv s -> playInv (stateOf (pushPlaced g e b s)).
Proof.
  intros H. cbv delta [pushPlaced]. cbv beta.
  repeat inv_step play_same play_call14.
Qed.

Ltac play_call15 _ :=
  match goal with
  | |- playInv (stateOf (pushPlaced _ _ _ _)) => apply playInv_pushPlaced
  | |- _ => play_call14 tt
  end.

Lemma playInv_placeBlock (g : Engine) (e : Env) (s : GameState) :
  playInv s -> playInv (stateOf (placeBlock g e s)).
Proof.
  intros H. cbv delta [placeBlock triggerPerfectFeedback]. cbv beta.
  repeat inv_step play_same play_call15.
Qed.

Ltac play_call16 _ :=
  match goal with
  | |- playInv (stateOf (placeBlock _ _ _)) => apply playInv_placeBlock
  | |- _ => play_call15 tt
  end.

Lemma playInv_cleanup (g : Engine) (s : GameState) :
  playInv s -> playInv (stateOf (cleanup g s)).
Proof.
  intros H.
  assert (Hr : forall n i s0, playInv s0 -> playInv (stateOf (resetRubble n i s0))).
  { induction n as [| n IH]; intros i s0 H0; cbn [resetRubble].
    - exact H0.
    - repeat inv_step play_same play_call16. apply IH. assumption. }
  cbv delta [cleanup]. cbv beta.
  repeat first
    [ match goal with
      | |- playInv (stateOf (resetRubble _ _ _)) => apply Hr
      end
    | inv_step play_same play_call16 ].
Qed.

Ltac play_call17 _ :=
  match goal with
  | |- playInv (stateOf (cleanup _ _)) => apply playInv_cleanup
  | |- _ => play_call16 tt
  end.

Lemma playInv_startGame (g : Engine) (t rnd : Q) (s : GameState) :
  playInv s -> playInv (stateOf (startGame g t rnd s)).
Proof.
  intros H. cbv delta [startGame]. cbv beta.
  repeat inv_step play_same play_call17.
Qed.

Ltac play_call18 _ :=
  match goal with
  | |- playInv (stateOf (startGame _ _ _ _)) => apply playInv_startGame
  | |- _ => play_call17 tt
  end.

Lemma playInv_backToMenu (g : Engine) (s : GameState) :
  playInv s -> playInv (stateOf (backToMenu g s)).
Proof.
  intros H. cbv delta [backToMenu]. cbv beta.
  repeat inv_step play_same play_call18.
Qed.

Ltac play_call19 _ :=
  match goal with
  | |- playInv (stateOf (backToMenu _ _)) => apply playInv_backToMenu
  | |- _ => play_call18 tt
  end.

Lemma playInv_animate (g : Engine) (time : Q) (s : GameState) :
  playInv s -> playInv (stateOf (animate g time s)).
Proof.
  intros H. cbv delta [animate updateRubble]. cbv beta. cbv zeta.
  match goal with
  | |- context [rubbleLoop g ?dt ?k ?st] =>
      destruct (rubbleLoop_pool g dt k st) as (d & f & l & ->)
  end.
  cbv delta [withPool moveActiveBlock applyFlash applyShake]. cbv beta.
  repeat inv_step play_same play_call19.
Qed.

Ltac play_call20 _ :=
  match goal with
  | |- playInv (stateOf (animate _ _ _)) => apply playInv_animate
  | |- _ => play_call19 tt
  end.

Lemma playInv_handleInput (g : Engine) (t : Q) (e : Env) (s : GameState) :
  playInv s -> playInv (stateOf (handleInput g t e s)).
Proof.
  intros H. cbv delta [handleInput]. cbv beta.
  repeat inv_step play_same play_call20.
Qed.

Ltac play_call21 _ :=
  match goal with
  | |- playInv (stateOf (handleInput _ _ _ _)) => apply playInv_handleInput
  | |- _ => play_call20 tt
  end.

Lemma playInv_handleVRInput (g : Engine) (c : Controller) (t : Q) (e : Env) (s : GameState) :
  playInv s -> playInv (stateOf (handleVRInput g c t e s)).
Proof.
  intros H. cbv delta [handleVRInput]. cbv beta.
  repeat inv_step play_same play_call21.
Qed.

Ltac play_call22 _ :=
  match goal with
  | |- playInv (stateOf (handleVRInput _ _ _ _ _)) => apply playInv_handleVRInput
  | |- _ => play_call21 tt
  end.

Lemma playInv_handle (g : Engine) (ev : Event) (s : GameState) :
  playInv s -> playInv (handle g ev s).
Proof.
  intros H. destruct ev; cbn [handle]; repeat inv_step play_same play_call22.
Qed.

Ltac play_call23 _ :=
  match goal with
  | |- playInv (handle _ _ _) => apply playInv_handle
  | |- _ => play_call22 tt
  end.

Lemma reachable_playInv (s : GameState) : reachable s -> playInv s.
Proof.
  induction 1 as [best streak d | ev s _ IH _].
  - assert (H0 : playInv initialState).
    { split; [| split; [left; reflexivity | split; by_compute]].
      unfold effectsSound. cbv zeta.
      splits;
        [ reflexivity | right; reflexivity | right; reflexivity
        | right; right; reflexivity ]. }
    assert (Hr : forall n i s0, playInv s0 -> playInv (initRubble n i s0)).
    { induction n as [| n IHn]; intros i s0 Hs0; cbn [initRubble].
      - exact Hs0.
      - repeat inv_step play_same play_call0. apply IHn. assumption. }
    cbv delta [boot initEngine]. cbv beta.
    repeat first
      [ match goal with |- playInv (initRubble _ _ _) => apply Hr end
      | inv_step play_same play_call23 ].
  - apply playInv_handle. exact IH.
Qed.

(** * The course of a session *)

(** ** The shape of what a handler leaves *)

Lemma spawnNewBlock_spawned (g : Engine) (t rnd : Q) (s : GameState)
    (prev : Block) :
  scene g = true ->
  last (stack s) = Some prev ->
  exists (mesh : Block) (dir : Q),
    spawnNewBlock g t rnd s = Ret (spawnedWith t mesh dir s)
    /\ (dir = 1 \/ dir = -1)
    /\ vy (position mesh) = levelOf (length (stack s)).
Proof.
  intros Hscene Hprev.
  destruct (spawnNewBlock_Ret g t rnd s prev Hscene Hprev)
    as (mesh & dir & Heq & Hdir & _ & Hy & _).
  exists mesh, dir. splits.
  - exact Heq.
  - destruct Hdir as [[-> _] | [-> _]]; auto.
  - exact Hy.
Qed.

Lemma pushPlaced_pushed (g : Engine) (e : Env) (placed : Block)
    (s : GameState) :
  scene g = true ->
  exists (mesh : Block) (dir : Q),
    pushPlaced g e placed s
    = Ret (spawnedWith (spawnNow e) mesh dir (pushedWith placed s))
    /\ (dir = 1 \/ dir = -1)
    /\ vy (position mesh) = levelOf (S (length (stack s))).
Proof.
  intros Hscene.
  destruct (spawnNewBlock_spawned g (spawnNow e) (rndSpawn e)
              (pushedWith placed s) placed Hscene)
    as (mesh & dir & Heq & Hdir & Hy).
  { cbn. apply last_snoc. }
  exists mesh, dir. splits.
  - exact Heq.
  - exact Hdir.
  - rewrite Hy. cbn [pushedWith render stack set_ui set_speed set_score
                     set_activeBlock set_stack].
    rewrite length_app, Nat.add_1_r. reflexivity.
Qed.

Lemma spawnRubble_frame (g : Engine) (rnd : Spin) (s : GameState)
    (active prev : Block) (a : Axis) (delta overlap : Q) :
  exists d f l,
    stateOf (spawnRubble g rnd s active prev a delta overlap)
    = withPool d f l s.
Proof.
  unfold spawnRubble. cbv zeta.
  destruct (last (rubbleFree s)) as [idx |].
  - cbn [rubbleData set_rubbleFree].
    destruct (rubbleData s !! idx).
    + case_if; eexists _, _, _; reflexivity.
    + exists (rubbleData s), (removelast (rubbleFree s)), (rubbleActive s).
      destruct s; reflexivity.
  - exists (rubbleData s), (rubbleFree s), (rubbleActive s).
    symmetry. apply withPool_id.
Qed.

(** The five ways a call of placeBlock can go when the scene exists:
    a guard returns, there is no block to build on, the safety net
    absorbs a miss, a miss ends the session, or the block is placed
    (perfectly, or cut, where taking a rubble slot can throw). *)
Lemma placeBlock_cases (g : Engine) (e : Env) (s : GameState) :
  scene g = true ->
  placeBlock g e s = Ret s
  \/ (exists active,
        activeBlock s = Some active /\ stack s = []
        /\ placeBlock g e s = Exn s)
  \/ (exists active prev net mesh dir,
        activeBlock s = Some active /\ last (stack s) = Some prev
        /\ (dir = 1 \/ dir = -1)
        /\ vy (position mesh) = levelOf (length (stack s))
        /\ placeBlock g e s
           = Ret (spawnedWith (spawnNow e) mesh dir
                    (set_activeBlock None
                       (set_flash 0.3 (set_combo 0%Z (set_safetyNet net s))))))
  \/ (exists active prev,
        activeBlock s = Some active /\ last (stack s) = Some prev
        /\ placeBlock g e s = Ret (gameOver s))
  \/ (exists active prev placed mesh dir m (aw : GameState -> GameState),
        activeBlock s = Some active /\ last (stack s) = Some prev
        /\ vy (position placed) = vy (position active)
        /\ (dir = 1 \/ dir = -1)
        /\ vy (position mesh) = levelOf (S (length (stack s)))
        /\ (aw = (fun x => x)
            \/ exists l,
                 aw = (fun x =>
                         set_powerUps l
                           (set_lastComboMilestone (combo s + 1)%Z x)))
        /\ placeBlock g e s
           = Ret (spawnedWith (spawnNow e) mesh dir
                    (pushedWith placed
                       (set_superSize m
                          (aw
                             (triggerPerfectFeedback
                                (set_flash 0.5
                                   (set_maxSessionCombo
                                      (Z.max (maxSessionCombo s)
                                         (combo s + 1))
                                      (set_combo (combo s + 1)%Z s)))))))))
  \/ (exists active prev placed d f a,
        activeBlock s = Some active /\ last (stack s) = Some prev
        /\ vy (position placed) = vy (position active)
        /\ (placeBlock g e s = Exn (withPool d f a (set_combo 0%Z s))
            /\ (exists ax dl ov,
                  spawnRubble g (rndSpin e) (set_combo 0%Z s) active prev
                    ax dl ov
                  = Exn (withPool d f a (set_combo 0%Z s)))
            \/ exists mesh dir m,
                 (dir = 1 \/ dir = -1)
                 /\ vy (position mesh) = levelOf (S (length (stack s)))
                 /\ placeBlock g e s
                    = Ret (spawnedWith (spawnNow e) mesh dir
                             (pushedWith placed
                                (set_superSize m
                                   (withPool d f a (set_combo 0%Z s))))))).
Proof.
  intros Hscene. unfold placeBlock.
  destruct (activeBlock s) as [active |] eqn:Hactive; [| auto].
  destruct (inGracePeriod (now e) s); [auto |].
  destruct (last (stack s)) as [prev |] eqn:Hprev.
  2: { right. left. exists active. apply last_None in Hprev. auto. }
  cbv zeta.
  destruct (Qle_bool (overlapOf s active prev) 0.05).
  - destruct (safetyNet_active (safetyNet (activePowerUps s))
              && (0 <? uses (safetyNet (activePowerUps s)))%Z).
    + right. right. left. rewrite Hscene.
      match goal with
      | |- context [spawnNewBlock g ?t ?r ?st] =>
          destruct (spawnNewBlock_spawned g t r st prev Hscene Hprev)
            as (mesh & dir & -> & Hdir & Hy)
      end.
      eexists active, prev, _, mesh, dir.
      splits; [reflexivity | reflexivity | exact Hdir | exact Hy | reflexivity].
    + right. right. right. left. exists active, prev. auto.
  - destruct (Qeq_bool (roundedDelta s active prev) 0).
    + right. right. right. right. left.
      assert (Hmax :
        (if (maxSessionCombo (set_combo (combo s + 1) s)
             <? combo (set_combo (combo s + 1) s))%Z
         then set_maxSessionCombo (combo (set_combo (combo s + 1) s))
                (set_combo (combo s + 1) s)
         else set_combo (combo s + 1) s)
        = set_maxSessionCombo (Z.max (maxSessionCombo s) (combo s + 1))
            (set_combo (combo s + 1) s)).
      { cbn [maxSessionCombo combo set_combo].
        destruct (Z.ltb_spec (maxSessionCombo s) (combo s + 1)).
        - rewrite Z.max_r by lia. reflexivity.
        - rewrite Z.max_l by lia. destruct s; reflexivity. }
      rewrite Hmax.
      match goal with
      | |- context [decrementSuperSize ?x] =>
          destruct (decrementSuperSize_frame x) as [m ->]
      end.
      case_if.
      * match goal with
        | |- context [awardPowerUp ?r ?x] =>
            destruct (awardPowerUp_frame r x) as [l ->]
        end.
        match goal with
        | |- context [pushPlaced g e ?b ?st] =>
            destruct (pushPlaced_pushed g e b st Hscene)
              as (mesh & dir & -> & Hdir & Hy)
        end.
        eexists active, prev, (snappedBlock s active prev), mesh, dir, m,
          (fun x => set_powerUps l (set_lastComboMilestone (combo s + 1)%Z x)).
        splits; [reflexivity | reflexivity | | exact Hdir | exact Hy | |].
        -- unfold snappedBlock. destruct (axis s); reflexivity.
        -- right. exists l. reflexivity.
        -- reflexivity.
      * match goal with
        | |- context [pushPlaced g e ?b ?st] =>
            destruct (pushPlaced_pushed g e b st Hscene)
              as (mesh & dir & -> & Hdir & Hy)
        end.
        eexists active, prev, (snappedBlock s active prev), mesh, dir, m,
          (fun x => x).
        splits; [reflexivity | reflexivity | | exact Hdir | exact Hy | |].
        -- unfold snappedBlock. destruct (axis s); reflexivity.
        -- left. reflexivity.
        -- reflexivity.
    + right. right. right. right. right.
      match goal with
      | |- context [spawnRubble g ?r ?st ?a ?p ?x ?d ?o] =>
          destruct (spawnRubble_frame g r st a p x d o) as (d' & f' & a' & Hr);
          destruct (spawnRubble g r st a p x d o) as [s1 | s1] eqn:Hsp;
          cbn [stateOf andThen] in *; subst s1
      end.
      * match goal with
        | |- context [decrementSuperSize ?x] =>
            destruct (decrementSuperSize_frame x) as [m ->]
        end.
        match goal with
        | |- context [pushPlaced g e ?b ?st] =>
            destruct (pushPlaced_pushed g e b st Hscene)
              as (mesh & dir & -> & Hdir & Hy)
        end.
        eexists active, prev, (trimmedBlock s active prev), d', f', a'.
        splits; [reflexivity | reflexivity | |].
        -- unfold trimmedBlock. cbv zeta. destruct (axis s); reflexivity.
        -- right. exists mesh, dir, m. splits; [exact Hdir | exact Hy |].
           reflexivity.
      * eexists active, prev, (trimmedBlock s active prev), d', f', a'.
        splits; [reflexivity | reflexivity | |].
        -- unfold trimmedBlock. cbv zeta. destruct (axis s); reflexivity.
        -- left. split; [reflexivity |]. eexists _, _, _. exact Hsp.
Qed.

(** startGame on a pool with its 80 slots. *)
Lemma startGame_started (t rnd : Q) (s : GameState) :
  length (rubbleData s) = CONFIG.MAX_RUBBLE ->
  exists (d : list RubbleSlot) (mesh : Block) (dir : Q),
    startGame engineReady t rnd s
    = Ret (spawnedWith t mesh dir
             (render
                (set_stack
                   [mkBlock (mkVector3 0 (CONFIG.BLOCK_HEIGHT / 2) 0)
                      CONFIG.INITIAL_SIZE CONFIG.BLOCK_HEIGHT
                      CONFIG.INITIAL_SIZE CONFIG.INITIAL_SIZE
                      CONFIG.INITIAL_SIZE]
                   (set_lastComboMilestone 0%Z
                      (set_activePowerUps noActivePowerUps
                         (set_powerUps [None; None; None]
                            (set_axis AxisX
                               (set_speed
                                  (initial (DIFFICULTIES (difficulty s)))
                                  (set_maxSessionCombo 0%Z
                                     (set_combo 0%Z
                                        (set_score 0%Z
                                           (set_status PLAYING
                                              (withPool d
                                                 (seq 0 CONFIG.MAX_RUBBLE) []
                                                 (set_activeBlock None
                                                    (set_stack []
                                                       (set_continuePending
                                                          (Some false)
                                                          (set_continueUsed
                                                             (Some false) s)))))))))))))))))
    /\ (dir = 1 \/ dir = -1)
    /\ vy (position mesh) = levelOf 1%nat.
Proof.
  intros Hlen. unfold startGame. cbv zeta.
  rewrite (cleanup_spec engineReady _ eq_refl eq_refl)
    by (cbn [rubbleData set_continuePending set_continueUsed];
        rewrite Hlen; unfold CONFIG.MAX_RUBBLE; lia).
  cbn [rubbleData set_continuePending set_continueUsed].
  rewrite Hlen. rewrite Nat.leb_refl, Nat.min_id.
  cbn [andThen]. unfold createFoundation.
  cbn [scene engineReady andThen].
  match goal with
  | |- context [spawnNewBlock engineReady ?t ?r ?st] =>
      destruct (spawnNewBlock_spawned engineReady t r st
                  (mkBlock (mkVector3 0 (CONFIG.BLOCK_HEIGHT / 2) 0)
                      CONFIG.INITIAL_SIZE CONFIG.BLOCK_HEIGHT
                      CONFIG.INITIAL_SIZE CONFIG.INITIAL_SIZE
                      CONFIG.INITIAL_SIZE) eq_refl eq_refl)
        as (mesh & dir & -> & Hdir & Hy)
  end.
  eexists _, mesh, dir. splits; [reflexivity | exact Hdir | exact Hy].
Qed.

Arguments levelOf : simpl never.

(** ** The session invariant *)

Lemma sameLevelOpt_refl (o : option Block) : sameLevelOpt o o.
Proof. destruct o; cbn; [reflexivity | trivial]. Qed.

Lemma Forall2_sameLevel_refl (l : list Block) : Forall2 sameLevel l l.
Proof. induction l; constructor; [reflexivity | assumption]. Qed.

(** The invariant reads the status, the counters, the screen, and of
    the blocks only how many there are and how high each sits. *)
Lemma sessionInv_ext (s s' : GameState) :
  status s' = status s -> score s' = score s ->
  bestScore s' = bestScore s -> bestStreak s' = bestStreak s ->
  combo s' = combo s -> maxSessionCombo s' = maxSessionCombo s ->
  lastComboMilestone s' = lastComboMilestone s ->
  continuesUsed s' = continuesUsed s -> ui s' = ui s ->
  Forall2 sameLevel (stack s) (stack s') ->
  sameLevelOpt (activeBlock s) (activeBlock s') ->
  sessionInv s -> sessionInv s'.
Proof.
  intros Hst Hsc Hbs Hbk Hco Hmx Hlm Hcu Hui Hstack Hact
    (Ht & Hs0 & (Hlv1 & Hlv2) & Hfr & Hbest & Hcombo & Hblk).
  pose proof (Forall2_length _ _ _ Hstack) as Hlen.
  assert (Hnone : activeBlock s' = None -> activeBlock s = None).
  { destruct (activeBlock s), (activeBlock s'); cbn in Hact; try tauto.
    discriminate. }
  unfold sessionInv. splits.
  - unfold tallyInv in *. rewrite Hsc, <- Hlen.
    destruct Ht as [[Hnil Hb] | Ht]; [left | right; exact Ht].
    rewrite Hnil in Hstack. inversion Hstack. split; [reflexivity |].
    rewrite Hb in Hact. destruct (activeBlock s'); [destruct Hact | reflexivity].
  - rewrite Hsc. exact Hs0.
  - split.
    + intros i b' Hi.
      destruct (Forall2_lookup_r _ _ _ _ _ Hstack Hi) as (b & Hb & Hsame).
      unfold sameLevel in Hsame. rewrite Hsame. exact (Hlv1 i b Hb).
    + intros b' Hb'. rewrite <- Hlen. rewrite Hb' in Hact.
      destruct (activeBlock s) as [b |]; [| destruct Hact].
      cbn in Hact. unfold sameLevel in Hact. rewrite Hact.
      apply Hlv2. reflexivity.
  - unfold screenFresh, render in *. cbn [ui set_ui] in *.
    rewrite Hui, Hst, Hcu, <- Hlen. exact Hfr.
  - unfold bestSound in *. rewrite Hst, Hsc, Hbs, Hmx, Hbk. exact Hbest.
  - unfold comboSound in *. rewrite Hco, Hmx, Hsc, Hlm. exact Hcombo.
  - unfold blockInPlay in *. rewrite Hst, <- Hlen. intros Hb. auto.
Qed.

Lemma levelOf_Qeq (y : Q) (n : nat) : y = levelOf n -> y == levelOf n.
Proof. intros ->. reflexivity. Qed.

Lemma tallyInv_nonempty (s : GameState) (prev : Block) :
  tallyInv s -> last (stack s) = Some prev ->
  (score s + 1)%Z = Z.of_nat (length (stack s)).
Proof.
  intros [[Hnil _] | H] Hprev; [| exact H].
  rewrite Hnil in Hprev. discriminate.
Qed.

Lemma levels_snoc (l : list Block) (placed : Block) :
  (forall (i : nat) (b : Block), l !! i = Some b -> vy (position b) == levelOf i) ->
  vy (position placed) == levelOf (length l) ->
  forall (i : nat) (b : Block),
    (l ++ [placed]) !! i = Some b -> vy (position b) == levelOf i.
Proof.
  intros Hl Hp i b Hi.
  apply lookup_app_Some in Hi as [Hi | [Hge Hi]].
  - exact (Hl i b Hi).
  - apply list_lookup_singleton_Some in Hi as [Hi <-].
    replace i with (length l) by lia. exact Hp.
Qed.

Ltac sess_fields :=
  unfold spawnedWith, pushedWith, withPool, continueGame,
    triggerPerfectFeedback, triggerShake, render,
    set_safetyNet, set_superSize, set_slowMo in *;
  cbn [status score bestScore bestStreak combo maxSessionCombo difficulty
       powerUps activePowerUps lastComboMilestone continuesUsed continueUsed
       continuePending axis direction speed stack activeBlock lastTime
       lastInputTime lastSpawnTime flash shakeTime shakeDuration shakeAmp
       rubbleData rubbleFree rubbleActive controllerInputCooldown ui
       set_status set_score set_bestScore set_bestStreak set_combo
       set_maxSessionCombo set_difficulty set_powerUps set_activePowerUps
       set_lastComboMilestone set_continuesUsed set_continueUsed
       set_continuePending set_axis set_direction set_speed set_stack
       set_activeBlock set_lastTime set_lastInputTime set_lastSpawnTime
       set_flash set_shakeTime set_shakeDuration set_shakeAmp set_rubbleData
       set_rubbleFree set_rubbleActive set_controllerInputCooldown set_ui]
    in *.

(** gameOver raises the records to the session's and nothing else of
    the session. *)
Lemma gameOver_form (s : GameState) :
  gameOver s
  = render
      (set_flash (Qmax (flash s) 0.65)
         (set_shakeTime (Qmax (shakeTime s) CONFIG.SHAKE_GAMEOVER_DURATION)
            (set_shakeDuration
               (Qmax (shakeDuration s) CONFIG.SHAKE_GAMEOVER_DURATION)
               (set_shakeAmp (Qmax (shakeAmp s) CONFIG.SHAKE_GAMEOVER_AMP)
                  (set_bestStreak (Z.max (bestStreak s) (maxSessionCombo s))
                     (set_bestScore (Z.max (bestScore s) (score s))
                        (set_continuePending (Some false)
                           (set_status GAMEOVER s)))))))).
Proof.
  unfold gameOver, triggerCrashFeedback, triggerShake. cbv zeta.
  cbn [bestScore score set_continuePending set_status].
  destruct (Z.ltb_spec (bestScore s) (score s)) as [H1 | H1];
    cbn [bestStreak maxSessionCombo set_bestScore set_continuePending
         set_status];
    destruct (Z.ltb_spec (bestStreak s) (maxSessionCombo s)) as [H2 | H2];
    [ rewrite (Z.max_r _ _ (Z.lt_le_incl _ _ H1)),
        (Z.max_r _ _ (Z.lt_le_incl _ _ H2))
    | rewrite (Z.max_r _ _ (Z.lt_le_incl _ _ H1)), (Z.max_l _ _ H2)
    | rewrite (Z.max_l _ _ H1), (Z.max_r _ _ (Z.lt_le_incl _ _ H2))
    | rewrite (Z.max_l _ _ H1), (Z.max_l _ _ H2) ];
    destruct s; reflexivity.
Qed.

Ltac sess_close :=
  first
    [ assumption | reflexivity | lia | discriminate
    | (intros ? [= <-]; apply levelOf_Qeq; rewrite ?Nat.add_1_r; assumption)
    | (intros; discriminate)
    | (intros; congruence)
    | (right; assumption)
    | (right; reflexivity)
    | (right; lia)
    | (left; split; reflexivity) ].

Ltac sess_open :=
  unfold sessionInv, tallyInv, levelsSound, screenFresh, bestSound,
    comboSound, blockInPlay in *;
  sess_fields.

Lemma sessionInv_placeBlock (g : Engine) (e : Env) (s : GameState) :
  scene g = true -> status s = PLAYING ->
  sessionInv s -> sessionInv (stateOf (placeBlock g e s)).
Proof.
  intros Hscene Hst Hinv.
  pose proof Hinv as (Ht & Hs0 & (Hlv1 & Hlv2) & Hfr & Hbest & Hcombo & Hblk).
  destruct (placeBlock_cases g e s Hscene)
    as [-> | [(active & _ & _ & ->)
       | [(active & prev & net & mesh & dir & Ha & Hp & _ & Hy & ->)
       | [(active & prev & Ha & Hp & ->)
       | [(active & prev & placed & mesh & dir & m & aw & Ha & Hp & Hpy & _
           & Hy & Haw & ->)
       | (active & prev & placed & d & f & a & Ha & Hp & Hpy & Hcut)]]]]];
    cbn [stateOf]; try exact Hinv.
  - (* the safety net *)
    pose proof (tallyInv_nonempty s prev Ht Hp) as Hlen.
    sess_open. splits; try solve [sess_close].
  - (* the session ends *)
    rewrite gameOver_form.
    sess_open. splits; try solve [sess_close].
  - (* placed perfectly *)
    pose proof (tallyInv_nonempty s prev Ht Hp) as Hlen.
    pose proof (Hlv2 active Ha) as Hact.
    assert (Hlm : (0 <= lastComboMilestone
                          (aw (triggerPerfectFeedback
                                 (set_flash 0.5
                                    (set_maxSessionCombo
                                       (Z.max (maxSessionCombo s) (combo s + 1))
                                       (set_combo (combo s + 1)%Z s)))))
                   <= Z.max (maxSessionCombo s) (combo s + 1))%Z).
    { destruct Haw as [-> | [l ->]]; sess_fields;
        unfold comboSound in Hcombo; lia. }
    assert (Hframe : forall x,
              let y := aw x in
              status y = status x /\ score y = score x
              /\ bestScore y = bestScore x /\ bestStreak y = bestStreak x
              /\ combo y = combo x /\ maxSessionCombo y = maxSessionCombo x
              /\ continuesUsed y = continuesUsed x /\ stack y = stack x
              /\ difficulty y = difficulty x /\ speed y = speed x).
    { destruct Haw as [-> | [l ->]]; intros x; cbn; splits; reflexivity. }
    match type of Hlm with
    | context [aw ?x] =>
        destruct (Hframe x)
          as (Ef1 & Ef2 & Ef3 & Ef4 & Ef5 & Ef6 & Ef7 & Ef8 & Ef9 & Ef10);
        set (y := aw x) in *
    end.
    clearbody y. clear Hframe.
    sess_open.
    rewrite ?Ef1, ?Ef2, ?Ef3, ?Ef4, ?Ef5, ?Ef6, ?Ef7, ?Ef8.
    sess_fields. rewrite ?length_app. cbn [length].
    splits; try solve [sess_close].
    + apply levels_snoc; [exact Hlv1 |]. rewrite Hpy. exact Hact.
  - (* cut *)
    pose proof (tallyInv_nonempty s prev Ht Hp) as Hlen.
    pose proof (Hlv2 active Ha) as Hact.
    destruct Hcut as [[-> _] | (mesh & dir & m & _ & Hy & ->)]; cbn [stateOf];
      sess_open; rewrite ?length_app; cbn [length];
      splits; try solve [sess_close].
    + apply levels_snoc; [exact Hlv1 |]. rewrite Hpy. exact Hact.
Qed.

Lemma sessionInv_startGame (t rnd : Q) (s : GameState) :
  length (rubbleData s) = CONFIG.MAX_RUBBLE ->
  sessionInv (stateOf (startGame engineReady t rnd s)).
Proof.
  intros Hlen.
  destruct (startGame_started t rnd s Hlen) as (d & mesh & dir & -> & _ & Hy).
  cbn [stateOf]. sess_open. splits; try solve [sess_close].
  intros [| i] b; cbn; [| discriminate].
  intros [= <-]. reflexivity.
Qed.

Lemma sessionInv_backToMenu (s : GameState) :
  length (rubbleData s) = CONFIG.MAX_RUBBLE ->
  sessionInv s -> sessionInv (stateOf (backToMenu engineReady s)).
Proof.
  intros Hlen Hinv.
  pose proof Hinv as (Ht & Hs0 & (Hlv1 & Hlv2) & Hfr & Hbest & Hcombo & Hblk).
  unfold backToMenu. destruct (status s) eqn:Hst.
  5: { rewrite (cleanup_spec engineReady s eq_refl eq_refl)
         by (rewrite Hlen; unfold CONFIG.MAX_RUBBLE; lia).
       rewrite Hlen, Nat.leb_refl. cbn [andThen stateOf].
       sess_open. splits; try solve [sess_close].
       intros _. split; [reflexivity | cbn; lia]. }
  all: cbn [andThen stateOf]; sess_open; splits; try solve [sess_close].
  all: intros Hb; split; [reflexivity | exact (proj2 (Hblk Hb))].
Qed.

Lemma sessionInv_pauseGame (s : GameState) :
  sessionInv s -> sessionInv (pauseGame s).
Proof.
  intros Hinv.
  pose proof Hinv as (Ht & Hs0 & (Hlv1 & Hlv2) & Hfr & Hbest & Hcombo & Hblk).
  unfold pauseGame. destruct (status s) eqn:Hst; try exact Hinv.
  sess_open. splits; try solve [sess_close].
  intros Hb. destruct (Hblk Hb) as [Hs _]. congruence.
Qed.

Lemma sessionInv_resumeGame (t : Q) (s : GameState) :
  sessionInv s -> offered (GameResume t) s = true ->
  sessionInv (resumeGame t s).
Proof.
  intros Hinv Hoff.
  pose proof Hinv as (Ht & Hs0 & (Hlv1 & Hlv2) & Hfr & Hbest & Hcombo & Hblk).
  unfold offered in Hoff. unfold screenFresh, render in Hfr.
  cbn [ui set_ui] in Hfr. rewrite Hfr in Hoff.
  unfold resumeGame. destruct (status s) eqn:Hst; try discriminate.
  - destruct (1 <? length (stack s))%nat eqn:Hlen; [| discriminate].
    apply Nat.ltb_lt in Hlen.
    sess_open. splits; try solve [sess_close].
    intros Hb. destruct (Hblk Hb) as [_ Hle]. lia.
  - sess_open. splits; try solve [sess_close].
    intros Hb. destruct (Hblk Hb) as [Hs _]. congruence.
Qed.

Lemma sessionInv_continue (rewarded : bool) (s : GameState) :
  sessionInv s -> offered (GameContinueWithAd rewarded) s = true ->
  sessionInv (if rewarded then continueGame s else s).
Proof.
  intros Hinv Hoff. destruct rewarded; [| exact Hinv].
  pose proof Hinv as (Ht & Hs0 & (Hlv1 & Hlv2) & Hfr & Hbest & Hcombo & Hblk).
  unfold offered in Hoff. unfold screenFresh, render in Hfr.
  cbn [ui set_ui] in Hfr. rewrite Hfr in Hoff.
  destruct (status s) eqn:Hst; try discriminate.
  sess_open. splits; try solve [sess_close].
  intros Hb. destruct (Hblk Hb) as [Hs _]. congruence.
Qed.

Lemma sessionInv_render (s : GameState) : sessionInv s -> sessionInv (render s).
Proof.
  intros Hinv. pose proof Hinv as (_ & _ & _ & Hfr & _).
  apply (sessionInv_ext s (render s)); try reflexivity; try assumption.
  - symmetry. exact Hfr.
  - apply Forall2_sameLevel_refl.
  - apply sameLevelOpt_refl.
Qed.

Lemma sessionInv_setDifficulty (d : Difficulty) (s : GameState) :
  sessionInv s -> sessionInv (setDifficulty d s).
Proof.
  intros Hinv. pose proof Hinv as (_ & _ & _ & Hfr & _).
  apply (sessionInv_ext s (setDifficulty d s)); try reflexivity;
    try assumption.
  - symmetry. exact Hfr.
  - apply Forall2_sameLevel_refl.
  - apply sameLevelOpt_refl.
Qed.

Lemma activatePowerUp_session (i : nat) (s : GameState) :
  sessionInv s -> sessionInv (activatePowerUp i s).
Proof.
  intros Hinv. unfold activatePowerUp.
  destruct (status s) eqn:Hst; try exact Hinv.
  destruct (powerUps s !! i) as [[k |] |]; try exact Hinv.
  cbv zeta.
  assert (Hrefl : Forall2 sameLevel (stack s) (stack s)
                  /\ sameLevelOpt (activeBlock s) (activeBlock s))
    by (split; [apply Forall2_sameLevel_refl | apply sameLevelOpt_refl]).
  destruct Hrefl as [Hr1 Hr2].
  destruct k;
    try (eapply sessionInv_ext; [.. | exact Hinv];
         first [exact Hr1 | exact Hr2 | (symmetry; exact Hst) | reflexivity]).
  destruct (last (stack s)) as [top |] eqn:Htop.
  2: { eapply sessionInv_ext; [.. | exact Hinv];
         first [exact Hr1 | exact Hr2 | (symmetry; exact Hst) | reflexivity]. }
  cbn [activeBlock set_stack axis].
  assert (Hstack : Forall2 sameLevel (stack s)
                     (removelast (stack s)
                      ++ [mkBlock (mkVector3 0 (vy (position top)) 0)
                            CONFIG.INITIAL_SIZE CONFIG.BLOCK_HEIGHT
                            CONFIG.INITIAL_SIZE CONFIG.INITIAL_SIZE
                            CONFIG.INITIAL_SIZE])).
  { apply last_Some in Htop as [l Hl]. rewrite Hl, removelast_last.
    apply Forall2_app; [apply Forall2_sameLevel_refl |].
    constructor; [reflexivity | constructor]. }
  destruct (activeBlock s) as [b |] eqn:Hb.
  - eapply sessionInv_ext; [.. | exact Hinv];
      first [exact Hstack | (symmetry; exact Hst) | reflexivity | idtac].
    rewrite Hb. cbn. unfold sameLevel. destruct (axis s); reflexivity.
  - eapply sessionInv_ext; [.. | exact Hinv];
      first [exact Hstack | (symmetry; exact Hst) | reflexivity | idtac].
    rewrite Hb. cbn. rewrite Hb. exact I.
Qed.

Lemma moveActiveBlock_session (dt : Q) (s : GameState) :
  let s' := moveActiveBlock dt s in
  status s' = status s /\ score s' = score s
  /\ bestScore s' = bestScore s /\ bestStreak s' = bestStreak s
  /\ combo s' = combo s /\ maxSessionCombo s' = maxSessionCombo s
  /\ lastComboMilestone s' = lastComboMilestone s
  /\ continuesUsed s' = continuesUsed s /\ ui s' = ui s
  /\ stack s' = stack s
  /\ sameLevelOpt (activeBlock s) (activeBlock s').
Proof.
  unfold moveActiveBlock.
  destruct (status s) eqn:Hst;
    try (rewrite Hst; splits; try reflexivity; apply sameLevelOpt_refl).
  destruct (activeBlock s) as [b |] eqn:Hb.
  2: { rewrite Hst, Hb. splits; try reflexivity; try exact I. }
  cbv zeta. destruct (updatePowerUpTimers_frame dt s) as [m ->].
  case_if; cbn; rewrite ?Hst, ?Hb; splits; try reflexivity;
    unfold sameLevel, setPositionOn; destruct (axis s); reflexivity.
Qed.

Lemma sessionInv_animate (g : Engine) (time : Q) (s : GameState) :
  sessionInv s -> sessionInv (stateOf (animate g time s)).
Proof.
  intros Hinv. unfold animate, updateRubble. cbv zeta.
  match goal with
  | |- context [rubbleLoop g ?dt ?k ?st] =>
      destruct (rubbleLoop_pool g dt k st) as (d & f & l & ->)
  end.
  match goal with
  | |- context [moveActiveBlock ?dt ?st] =>
      pose proof (moveActiveBlock_session dt st) as Hm;
      assert (H0 : sessionInv st)
  end.
  { eapply sessionInv_ext; [.. | exact Hinv];
      unfold applyFlash, applyShake; repeat case_if;
      try reflexivity; try apply Forall2_sameLevel_refl;
      apply sameLevelOpt_refl. }
  cbv zeta in Hm.
  destruct Hm as (E1 & E2 & E3 & E4 & E5 & E6 & E7 & E8 & E9 & E10 & E11).
  eapply sessionInv_ext; [.. | exact H0]; unfold withPool;
    cbn [status score bestScore bestStreak combo maxSessionCombo
         lastComboMilestone continuesUsed ui stack activeBlock
         set_rubbleData set_rubbleFree set_rubbleActive];
    try assumption.
  rewrite E10. apply Forall2_sameLevel_refl.
Qed.

Lemma sessionInv_handleInput (g : Engine) (t : Q) (e : Env) (s : GameState) :
  scene g = true ->
  sessionInv s -> sessionInv (stateOf (handleInput g t e s)).
Proof.
  intros Hscene Hinv. unfold handleInput.
  destruct (status s) eqn:Hst; try exact Hinv.
  repeat case_if; try exact Hinv.
  apply sessionInv_placeBlock; [exact Hscene | exact Hst |].
  eapply sessionInv_ext; [.. | exact Hinv]; try reflexivity.
  - apply Forall2_sameLevel_refl.
  - apply sameLevelOpt_refl.
Qed.

Lemma sessionInv_handleVRInput (g : Engine) (c : Controller) (t : Q)
    (e : Env) (s : GameState) :
  scene g = true ->
  sessionInv s -> sessionInv (stateOf (handleVRInput g c t e s)).
Proof.
  intros Hscene Hinv. unfold handleVRInput.
  destruct (status s) eqn:Hst; try exact Hinv.
  repeat case_if; try exact Hinv.
  apply sessionInv_placeBlock; [exact Hscene | exact Hst |].
  eapply sessionInv_ext; [.. | exact Hinv]; try reflexivity.
  - apply Forall2_sameLevel_refl.
  - apply sameLevelOpt_refl.
Qed.

Lemma sessionInv_handle (ev : Event) (s : GameState) :
  poolWf s -> sessionInv s -> offered ev s = true ->
  sessionInv (handle engineReady ev s).
Proof.
  intros Hwf Hinv Hoff. destruct ev; cbn [handle].
  - apply sessionInv_startGame. exact (proj1 Hwf).
  - apply sessionInv_startGame. exact (proj1 Hwf).
  - apply sessionInv_resumeGame; assumption.
  - apply sessionInv_pauseGame; assumption.
  - apply sessionInv_backToMenu; [exact (proj1 Hwf) | assumption].
  - apply sessionInv_continue; assumption.
  - apply sessionInv_setDifficulty; assumption.
  - apply sessionInv_render; assumption.
  - apply sessionInv_render; assumption.
  - apply activatePowerUp_session; assumption.
  - apply sessionInv_handleInput; [reflexivity | assumption].
  - apply sessionInv_handleVRInput; [reflexivity | assumption].
  - apply sessionInv_animate; assumption.
Qed.

Lemma sessionInv_boot (best streak : Z) (d : Difficulty) :
  sessionInv (boot best streak d).
Proof.
  unfold boot, initEngine, createFoundation. cbv zeta.
  rewrite initRubble_spec by reflexivity.
  cbn [scene engineReady stateOf].
  sess_open. splits; try solve [sess_close].
  - intros [| i] b; cbn; [| discriminate]. intros [= <-]. reflexivity.
  - intros _. split; [reflexivity | cbn; lia].
Qed.

Lemma reachable_sessionInv (s : GameState) : reachable s -> sessionInv s.
Proof.
  induction 1 as [best streak d | ev s Hreach IH Hoff].
  - apply sessionInv_boot.
  - apply sessionInv_handle; [apply reachable_poolWf | |]; assumption.
Qed.

(** ** No handler throws *)

Lemma placeBlock_returns (e : Env) (s : GameState) :
  poolWf s -> sessionInv s ->
  exists s', placeBlock engineReady e s = Ret s'.
Proof.
  intros Hwf (Ht & Hs0 & _).
  destruct (placeBlock_cases engineReady e s eq_refl)
    as [H | [(active & Ha & Hnil & _)
       | [(active & prev & net & mesh & dir & _ & _ & _ & _ & H)
       | [(active & prev & _ & _ & H)
       | [(active & prev & placed & mesh & dir & m & aw & _ & _ & _ & _
           & _ & _ & H)
       | (active & prev & placed & d & f & a & _ & _ & _ & Hcut)]]]]];
    eauto.
  - exfalso. destruct Ht as [[_ Hb] | Hlen]; [congruence |].
    rewrite Hnil in Hlen. cbn in Hlen. lia.
  - destruct Hcut as [[_ (ax & dl & ov & Hsp)] | (mesh & dir & m & _ & _ & H)];
      [| eauto].
    exfalso.
    assert (Hwf' : poolWf (set_combo 0%Z s))
      by (eapply poolWf_ext; [.. | exact Hwf]; reflexivity).
    destruct (spawnRubble_poolWf (rndSpin e) (set_combo 0%Z s) active prev
                ax dl ov Hwf') as (d' & f' & a' & Heq & _).
    congruence.
Qed.

Lemma sessionInv_stamp (s s' : GameState) :
  status s' = status s -> score s' = score s ->
  bestScore s' = bestScore s -> bestStreak s' = bestStreak s ->
  combo s' = combo s -> maxSessionCombo s' = maxSessionCombo s ->
  lastComboMilestone s' = lastComboMilestone s ->
  continuesUsed s' = continuesUsed s -> ui s' = ui s ->
  stack s' = stack s -> activeBlock s' = activeBlock s ->
  sessionInv s -> sessionInv s'.
Proof.
  intros ? ? ? ? ? ? ? ? ? Hstack Hact. apply sessionInv_ext; try assumption.
  - rewrite Hstack. apply Forall2_sameLevel_refl.
  - rewrite Hact. apply sameLevelOpt_refl.
Qed.

(** X20: In every reachable state, with scene and rubble mesh present,
    startGame, backToMenu, placeBlock, handleInput, handleVRInput and a
    frame of animate all return normally: none of the TypeError points of
    the model (missing scene or mesh, empty stack, missing pool slot) is
    hit; and startGame leaves status PLAYING with an active block. *)
Theorem handlers_never_throw (s : GameState) :
  reachable s ->
  (forall t rnd : Q,
     exists s', startGame engineReady t rnd s = Ret s'
                /\ status s' = PLAYING /\ activeBlock s' <> None)
  /\ (exists s', backToMenu engineReady s = Ret s')
  /\ (forall e : Env, exists s', placeBlock engineReady e s = Ret s')
  /\ (forall (t : Q) (e : Env),
        exists s', handleInput engineReady t e s = Ret s')
  /\ (forall (c : Controller) (t : Q) (e : Env),
        exists s', handleVRInput engineReady c t e s = Ret s')
  /\ (forall time : Q, exists s', animate engineReady time s = Ret s').
Proof.
  intros Hreach.
  pose proof (reachable_poolWf s Hreach) as Hwf.
  pose proof (reachable_sessionInv s Hreach) as Hinv.
  splits.
  - intros t rnd.
    destruct (startGame_started t rnd s (proj1 Hwf))
      as (d & mesh & dir & -> & _).
    eexists. split; [reflexivity |]. split; [reflexivity | discriminate].
  - unfold backToMenu. destruct (status s); cbn [andThen]; eauto.
    destruct (cleanup_poolWf s (proj1 Hwf)) as (s1 & -> & _).
    cbn [andThen]. eauto.
  - intros e. apply placeBlock_returns; assumption.
  - intros t e. unfold handleInput.
    destruct (status s); eauto. repeat case_if; eauto.
    apply placeBlock_returns.
    + eapply poolWf_ext; [.. | exact Hwf]; reflexivity.
    + eapply sessionInv_stamp; [.. | exact Hinv]; reflexivity.
  - intros c t e. unfold handleVRInput.
    destruct (status s); eauto. repeat case_if; eauto.
    apply placeBlock_returns.
    + eapply poolWf_ext; [.. | exact Hwf]; reflexivity.
    + eapply sessionInv_stamp; [.. | exact Hinv]; reflexivity.
  - intros time. destruct (animate_poolWf time s Hwf) as (s' & -> & _). eauto.
Qed.

Lemma handlers_never_throw_witness :
  exists s', placeBlock engineReady (Sample.env 9000) Sample.replayed = Ret s'.
Proof.
  exact (proj1 (proj2 (proj2
    (handlers_never_throw Sample.replayed replayed_reachable)))
    (Sample.env 9000)).
Defined.

(** ** What holds in every state the application reaches *)

(** X7: In every reachable state the inventory has three slots; slow-mo is
    flagged active exactly when its remaining duration is positive; the
    safety net is active with one use or inactive with none; super size is
    active with two or one placements left or inactive with none; and the
    speed multiplier is 0.5 while slow-mo is active and 1 otherwise. *)
Theorem power_up_effects_coherent (s : GameState) :
  reachable s ->
  let a := activePowerUps s in
  length (powerUps s) = 3%nat
  /\ (slowMo_active (slowMo a) = true <-> 0 < duration (slowMo a))
  /\ (safetyNet a = mkSafetyNet true 1 \/ safetyNet a = mkSafetyNet false 0)
  /\ (superSize a = mkSuperSize true 2 \/ superSize a = mkSuperSize true 1
      \/ superSize a = mkSuperSize false 0)
  /\ getSpeedMultiplier s = (if slowMo_active (slowMo a) then 0.5 else 1).
Proof.
  intros Hreach a. subst a.
  destruct (reachable_playInv s Hreach) as ((Hlen & Hsm & Hsn & Hss) & _).
  cbv zeta in Hsm, Hsn, Hss. splits; try assumption.
  - destruct Hsm as [[Hon Hpos] | Hoff].
    + rewrite Hon. tauto.
    + rewrite Hoff. cbn. split; [discriminate |].
      intros H. exfalso. revert H. by_compute.
  - unfold getSpeedMultiplier. cbv zeta.
    destruct Hsm as [[Hon Hpos] | Hoff].
    + apply Qltb_true in Hpos. rewrite Hon, Hpos. reflexivity.
    + rewrite Hoff. reflexivity.
Qed.

Lemma power_up_effects_coherent_witness :
  safetyNet (activePowerUps Sample.replayed) = mkSafetyNet true 1
  \/ safetyNet (activePowerUps Sample.replayed) = mkSafetyNet false 0.
Proof.
  exact (proj1 (proj2 (proj2
    (power_up_effects_coherent Sample.replayed replayed_reachable)))).
Defined.

(** X10: In every reachable state the direction of travel is 1 or -1 and
    the speed lies between 0.12 and 0.7, the slowest initial speed and the
    highest cap of the difficulty table. *)
Theorem motion_parameters_bounded (s : GameState) :
  reachable s ->
  (direction s = 1 \/ direction s = -1) /\ 0.12 <= speed s <= 0.7.
Proof. intros Hreach. exact (proj2 (reachable_playInv s Hreach)). Qed.

Lemma motion_parameters_bounded_witness :
  0.12 <= speed Sample.replayed <= 0.7.
Proof.
  exact (proj2 (motion_parameters_bounded Sample.replayed replayed_reachable)).
Defined.

(** X14: In every reachable state the score is not negative, and either
    there is neither stack nor active block, or the score is the height of
    the stack minus one (the foundation is not scored). *)
Theorem score_counts_placed_blocks (s : GameState) :
  reachable s ->
  (0 <= score s)%Z
  /\ (stack s = [] /\ activeBlock s = None
      \/ (score s + 1)%Z = Z.of_nat (length (stack s))).
Proof.
  intros Hreach. destruct (reachable_sessionInv s Hreach) as (Ht & Hs0 & _).
  split; [exact Hs0 | exact Ht].
Qed.

Lemma score_counts_placed_blocks_witness :
  (0 <= score Sample.replayed)%Z.
Proof.
  exact (proj1 (score_counts_placed_blocks Sample.replayed replayed_reachable)).
Defined.

(** X15: In every reachable state block number i of the stack (the
    foundation being number 0) sits at height i * BLOCK_HEIGHT +
    BLOCK_HEIGHT / 2, and the active block sits one level above the top of
    the stack. *)
Theorem blocks_sit_level_by_level (s : GameState) :
  reachable s ->
  (forall (i : nat) (b : Block),
     stack s !! i = Some b ->
     vy (position b)
     == inject_Z (Z.of_nat i) * CONFIG.BLOCK_HEIGHT + CONFIG.BLOCK_HEIGHT / 2)
  /\ (forall b : Block,
        activeBlock s = Some b ->
        vy (position b)
        == inject_Z (Z.of_nat (length (stack s))) * CONFIG.BLOCK_HEIGHT
           + CONFIG.BLOCK_HEIGHT / 2).
Proof.
  intros Hreach.
  destruct (reachable_sessionInv s Hreach) as (_ & _ & Hlv & _). exact Hlv.
Qed.

Lemma blocks_sit_level_by_level_witness :
  vy (position Sample.foundation)
  == inject_Z (Z.of_nat 0) * CONFIG.BLOCK_HEIGHT + CONFIG.BLOCK_HEIGHT / 2.
Proof.
  exact (proj1 (blocks_sit_level_by_level Sample.replayed replayed_reachable)
           0%nat Sample.foundation ltac:(by_compute)).
Defined.

(** X16: In every state the application reaches with scene and rubble
    mesh present, a rewarded continue being answered at the press, the
    kind of screen last rendered is the one UIManager.render dispatches
    for the current status: none while LOADING, the start screen in
    START, the HUD in PLAYING, the pause screen in PAUSED, the game-over
    screen in GAMEOVER; and the start screen has the resume button
    exactly when the stack has more than one block, the game-over screen
    the continue button exactly when continuesUsed is below 1. What the
    screens print (score, combo, records) is not part of the model. *)
Theorem screen_kind_follows_status (s : GameState) :
  reachable s ->
  ui s
  = match status s with
    | LOADING => ScreenBlank
    | START => ScreenStart (1 <? length (stack s))%nat
    | PLAYING => ScreenHUD
    | PAUSED => ScreenPaused
    | GAMEOVER => ScreenGameOver (continuesUsed s <? 1)%Z
    end.
Proof.
  intros Hreach.
  destruct (reachable_sessionInv s Hreach) as (_ & _ & _ & Hfr & _).
  exact Hfr.
Qed.

Lemma screen_kind_follows_status_witness :
  ui Sample.replayed = ScreenGameOver false.
Proof.
  rewrite (screen_kind_follows_status Sample.replayed replayed_reachable).
  by_compute.
Defined.

(** X17: In every reachable state with status GAMEOVER the best score is
    at least the score and the best streak at least the session's highest
    combo. *)
Theorem records_cover_the_session (s : GameState) :
  reachable s ->
  status s = GAMEOVER ->
  (score s <= bestScore s)%Z /\ (maxSessionCombo s <= bestStreak s)%Z.
Proof.
  intros Hreach.
  destruct (reachable_sessionInv s Hreach) as (_ & _ & _ & _ & Hbest & _).
  exact Hbest.
Qed.

Lemma records_cover_the_session_witness :
  (score Sample.replayed <= bestScore Sample.replayed)%Z.
Proof.
  exact (proj1 (records_cover_the_session Sample.replayed replayed_reachable
                  ltac:(by_compute))).
Defined.

(** X18: In every reachable state 0 <= combo <= maxSessionCombo, combo <=
    score, and 0 <= lastComboMilestone <= maxSessionCombo. *)
Theorem combo_counters_ordered (s : GameState) :
  reachable s ->
  (0 <= combo s <= maxSessionCombo s)%Z
  /\ (combo s <= score s)%Z
  /\ (0 <= lastComboMilestone s <= maxSessionCombo s)%Z.
Proof.
  intros Hreach.
  destruct (reachable_sessionInv s Hreach) as (_ & _ & _ & _ & _ & Hc & _).
  exact Hc.
Qed.

Lemma combo_counters_ordered_witness :
  (combo Sample.replayed <= score Sample.replayed)%Z.
Proof.
  exact (proj1 (proj2
    (combo_counters_ordered Sample.replayed replayed_reachable))).
Defined.

(** With no scene startGame throws in createFoundation, after it has
    set the status: the session is Playing with neither stack nor
    block, and the screen is the one that was up. *)
Lemma startGame_without_scene (g : Engine) (t rnd : Q) (s : GameState) :
  scene g = false ->
  exists s' : GameState,
    startGame g t rnd s = Exn s'
    /\ status s' = PLAYING /\ stack s' = [] /\ activeBlock s' = None
    /\ ui s' = ui s.
Proof.
  intros Hscene. unfold startGame, cleanup, createFoundation. cbv zeta.
  rewrite Hscene. cbn. eexists. split; [reflexivity |].
  splits; reflexivity.
Qed.

(** X19: In every state the application reaches with scene and rubble
    mesh present, a rewarded continue being answered at the press, a
    status other than START comes with an active block and a stack
    that is not empty. *)
Theorem block_in_play_off_the_start_screen (s : GameState) :
  reachable s ->
  status s <> START ->
  exists active prev : Block,
    activeBlock s = Some active /\ last (stack s) = Some prev.
Proof.
  intros Hreach Hst.
  destruct (reachable_sessionInv s Hreach)
    as (Ht & Hs0 & _ & _ & _ & _ & Hblk).
  destruct (activeBlock s) as [active |] eqn:Ha.
  - destruct (last (stack s)) as [prev |] eqn:Hp; [eauto |].
    exfalso. apply last_None in Hp.
    destruct Ht as [[_ Hb] | Hlen]; [congruence |].
    rewrite Hp in Hlen. cbn in Hlen. lia.
  - exfalso. apply Hst. apply Hblk. exact Ha.
Qed.

Lemma block_in_play_off_the_start_screen_witness :
  exists active prev : Block,
    activeBlock Sample.replayed = Some active
    /\ last (stack Sample.replayed) = Some prev.
Proof.
  exact (block_in_play_off_the_start_screen Sample.replayed replayed_reachable
           ltac:(by_compute)).
Defined.

(** X21: startGame never changes continuesUsed, whether it returns or
    throws: the fields it clears are continueUsed and continuePending. *)
Theorem startGame_keeps_continue_count (g : Engine) (t rnd : Q)
    (s : GameState) :
  continuesUsed (stateOf (startGame g t rnd s)) = continuesUsed s.
Proof. exact (proj1 (keeps_startGame g t rnd s s (keeps_refl s))). Qed.

(** ** The geometry of a cut *)




Lemma inGracePeriod_ext (t : Q) (s s' : GameState) :
  lastSpawnTime s' = lastSpawnTime s ->
  inGracePeriod t s' = inGracePeriod t s.
Proof. unfold inGracePeriod. intros ->. reflexivity. Qed.

Lemma overlapOf_ext (s s' : GameState) (active prev : Block) :
  axis s' = axis s -> stack s' = stack s -> difficulty s' = difficulty s ->
  overlapOf s' active prev = overlapOf s active prev.
Proof.
  unfold overlapOf, roundedDelta, mercyThreshold. intros -> -> ->.
  reflexivity.
Qed.

(** The state in which a continue resumes play. *)
Lemma continued_fields (s : GameState) :
  let s2 := continueGame (gameOver s) in
  activeBlock s2 = activeBlock s /\ stack s2 = stack s
  /\ lastSpawnTime s2 = lastSpawnTime s /\ axis s2 = axis s
  /\ difficulty s2 = difficulty s /\ score s2 = score s
  /\ status s2 = PLAYING
  /\ continuesUsed s2 = (continuesUsed s + 1)%Z
  /\ safetyNet (activePowerUps s2) = mkSafetyNet true 1
  /\ slowMo (activePowerUps s2) = mkSlowMo true 5.0.
Proof.
  cbv zeta. rewrite gameOver_form. splits; reflexivity.
Qed.

(** A miss on a safety net that holds one use. *)
Lemma placeBlock_net_form (g : Engine) (e : Env) (x : GameState)
    (active prev : Block) :
  scene g = true ->
  activeBlock x = Some active ->
  inGracePeriod (now e) x = false ->
  last (stack x) = Some prev ->
  overlapOf x active prev <= 0.05 ->
  safetyNet (activePowerUps x) = mkSafetyNet true 1 ->
  exists (mesh : Block) (dir : Q),
    placeBlock g e x
    = Ret (spawnedWith (spawnNow e) mesh dir
             (set_activeBlock None
                (set_flash 0.3
                   (set_combo 0%Z (set_safetyNet (mkSafetyNet false 0) x)))))
    /\ vy (position mesh) = levelOf (length (stack x)).
Proof.
  intros Hscene Ha Hg Hp Hm Hnet.
  rewrite (placeBlock_miss_unfold g e x active prev Ha Hg Hp Hm).
  cbv zeta. rewrite Hnet. cbn [safetyNet_active uses andb].
  change (0 <? 1)%Z with true. change (1 - 1 =? 0)%Z with true.
  cbv iota. rewrite Hscene.
  destruct (spawnNewBlock_spawned g (spawnNow e) (rndSpawn e)
              (set_activeBlock None
                 (set_flash 0.3
                    (set_combo 0%Z (set_safetyNet (mkSafetyNet false 0) x))))
              prev Hscene Hp)
    as (mesh & dir & Heq & _ & Hy).
  exists mesh, dir. split; [exact Heq | exact Hy].
Qed.

Lemma net_absorbs_miss_after (g : Engine) (e : Env)
    (s s2 : GameState) (active prev : Block) :
  scene g = true ->
  activeBlock s = Some active ->
  last (stack s) = Some prev ->
  inGracePeriod (now e) s = false ->
  overlapOf s active prev <= 0.05 ->
  activeBlock s2 = activeBlock s -> stack s2 = stack s
  -> lastSpawnTime s2 = lastSpawnTime s -> axis s2 = axis s
  -> difficulty s2 = difficulty s -> score s2 = score s
  -> status s2 = PLAYING
  -> continuesUsed s2 = (continuesUsed s + 1)%Z
  -> safetyNet (activePowerUps s2) = mkSafetyNet true 1
  -> slowMo (activePowerUps s2) = mkSlowMo true 5.0 ->
  exists (s' : GameState) (next : Block),
    placeBlock g e s2 = Ret s'
    /\ status s' = PLAYING
    /\ safetyNet (activePowerUps s') = mkSafetyNet false 0
    /\ slowMo (activePowerUps s') = mkSlowMo true 5.0
    /\ stack s' = stack s /\ score s' = score s /\ combo s' = 0%Z
    /\ continuesUsed s' = (continuesUsed s + 1)%Z
    /\ activeBlock s' = Some next
    /\ vy (position next) = levelOf (length (stack s)).
Proof.
  intros Hscene Hactive Hprev Hgrace Hmiss F1 F2 F3 F4 F5 F6 F7 F8 F9 F10.
  assert (Ha2 : activeBlock s2 = Some active) by congruence.
  assert (Hp2 : last (stack s2) = Some prev) by congruence.
  assert (Hg2 : inGracePeriod (now e) s2 = false)
    by (rewrite (inGracePeriod_ext (now e) s s2 F3); exact Hgrace).
  assert (Hm2 : overlapOf s2 active prev <= 0.05)
    by (rewrite (overlapOf_ext s s2 active prev F4 F2 F5); exact Hmiss).
  destruct (placeBlock_net_form g e s2 active prev Hscene Ha2 Hg2 Hp2 Hm2 F9)
    as (mesh & dir & -> & Hy).
  exists (spawnedWith (spawnNow e) mesh dir
            (set_activeBlock None
               (set_flash 0.3
                  (set_combo 0%Z (set_safetyNet (mkSafetyNet false 0) s2))))),
    mesh.
  rewrite F2 in Hy.
  splits; [reflexivity | exact F7 | reflexivity | exact F10 | exact F2
          | exact F6 | reflexivity | exact F8 | reflexivity | exact Hy].
Qed.

(** X23: After gameOver and continueGame, dropping a block that misses
    (past the grace period, scene present) does not end the game again:
    the safety net granted by the continue absorbs it. Status is PLAYING,
    the net is used up, slow-mo is on with its 5 seconds, stack and score
    are unchanged, combo is 0, continuesUsed is one more, and a new block
    is spawned one level above the stack. *)
Theorem continue_absorbs_the_next_miss (g : Engine) (e : Env)
    (s : GameState) (active prev : Block) :
  scene g = true ->
  activeBlock s = Some active ->
  last (stack s) = Some prev ->
  inGracePeriod (now e) s = false ->
  overlapOf s active prev <= 0.05 ->
  exists (s' : GameState) (next : Block),
    placeBlock g e (continueGame (gameOver s)) = Ret s'
    /\ status s' = PLAYING
    /\ safetyNet (activePowerUps s') = mkSafetyNet false 0
    /\ slowMo (activePowerUps s') = mkSlowMo true 5.0
    /\ stack s' = stack s /\ score s' = score s /\ combo s' = 0%Z
    /\ continuesUsed s' = (continuesUsed s + 1)%Z
    /\ activeBlock s' = Some next
    /\ vy (position next) = levelOf (length (stack s)).
Proof.
  intros Hscene Hactive Hprev Hgrace Hmiss.
  pose proof (continued_fields s) as F. cbv zeta in F.
  destruct F as (F1 & F2 & F3 & F4 & F5 & F6 & F7 & F8 & F9 & F10).
  exact (net_absorbs_miss_after g e s (continueGame (gameOver s)) active prev
           Hscene Hactive Hprev Hgrace Hmiss
           F1 F2 F3 F4 F5 F6 F7 F8 F9 F10).
Qed.

Lemma continue_absorbs_the_next_miss_witness :
  exists s' : GameState,
    placeBlock engineReady (Sample.env 6000)
      (continueGame (gameOver Sample.started)) = Ret s'
    /\ status s' = PLAYING.
Proof.
  destruct (continue_absorbs_the_next_miss engineReady (Sample.env 6000)
              Sample.started Sample.firstBlock Sample.foundation
              eq_refl ltac:(by_compute) ltac:(by_compute) ltac:(by_compute)
              ltac:(by_compute))
    as (s' & next & Hret & Hst & _).
  exists s'. split; [exact Hret | exact Hst].
Defined.

(** * Storage, themes and ads *)

(** ** Settings in localStorage *)

Lemma getItem_persist_eq (k v : string) (st : LocalStorage) :
  denied st = false -> full st = false ->
  getItem k (persist k v st) = Some (Some v).
Proof.
  intros Hd Hf. unfold persist, setItem, getItem. rewrite Hd, Hf. cbn.
  rewrite ?Hd. rewrite lookup_insert_eq. reflexivity.
Qed.

Lemma getItem_persist_ne (k k' v : string) (st : LocalStorage) :
  k <> k' -> getItem k' (persist k v st) = getItem k' st.
Proof.
  intros Hne. unfold persist, setItem, getItem.
  destruct (denied st) eqn:Hd; cbn; rewrite ?Hd; [reflexivity |].
  destruct (full st); cbn; rewrite ?Hd; [reflexivity |].
  rewrite lookup_insert_ne by exact Hne. reflexivity.
Qed.

Lemma persist_blocked (k v : string) (st : LocalStorage) :
  denied st = true \/ full st = true -> persist k v st = st.
Proof.
  unfold persist, setItem. intros [-> | ->]; [reflexivity |].
  rewrite orb_true_r. reflexivity.
Qed.

(** X24: When localStorage accepts reads and writes, each setting is
    loaded back as it was persisted: a difficulty among easy, medium,
    hard; the mute flag; a non-empty theme id; the tutorial flag.
    Persisting one setting does not change what is loaded for another. *)
Theorem settings_round_trip (st : LocalStorage) :
  denied st = false -> full st = false ->
  (forall d : string,
     d ∈ difficultyNames -> loadDifficulty (persistDifficulty d st) = d)
  /\ (forall b : bool, loadMuted (persistMuted b st) = b)
  /\ (forall id : string,
        id <> EmptyString -> loadThemeId (persistTheme id st) = id)
  /\ loadTutorialSeen (persistTutorialSeen st) = true
  /\ (forall (d id : string) (b : bool),
        loadDifficulty (persistMuted b (persistTheme id st)) = loadDifficulty st
        /\ loadThemeId (persistMuted b (persistDifficulty d st))
           = loadThemeId st
        /\ loadMuted (persistTheme id (persistDifficulty d st)) = loadMuted st).
Proof.
  intros Hd Hf. splits.
  - intros d Hin. unfold loadDifficulty, persistDifficulty.
    rewrite getItem_persist_eq by assumption.
    unfold difficultyNames in Hin.
    repeat (apply elem_of_cons in Hin as [-> | Hin]; [reflexivity |]).
    apply elem_of_nil in Hin. destruct Hin.
  - intros b. unfold loadMuted, persistMuted.
    rewrite getItem_persist_eq by assumption. destruct b; reflexivity.
  - intros id Hid. unfold loadThemeId, persistTheme.
    rewrite getItem_persist_eq by assumption.
    unfold truthy.
    destruct (String.eqb_spec id EmptyString); [contradiction |].
    reflexivity.
  - unfold loadTutorialSeen, persistTutorialSeen.
    rewrite getItem_persist_eq by assumption. reflexivity.
  - intros d id b. unfold loadDifficulty, loadThemeId, loadMuted,
      persistDifficulty, persistTheme, persistMuted.
    rewrite !getItem_persist_ne by discriminate. splits; reflexivity.
Qed.

Lemma settings_round_trip_witness :
  loadDifficulty
    (persistDifficulty "hard" (mkLocalStorage ∅ false false)) = "hard".
Proof.
  destruct (settings_round_trip (mkLocalStorage ∅ false false)
              eq_refl eq_refl) as [Hdifficulty _].
  apply Hdifficulty. unfold difficultyNames.
  rewrite !elem_of_cons. right. right. left. reflexivity.
Defined.

(** X25: When localStorage refuses access the loaders do not throw and
    return their defaults (difficulty medium, theme neon, not muted,
    tutorial not seen), whereas the unguarded read of the mute flag in
    init throws; when it refuses access or is out of quota the persist
    functions leave the store as it is; and a missing key also loads as
    the default. *)
Theorem settings_fall_back_when_storage_fails (st : LocalStorage) :
  (denied st = true ->
   loadDifficulty st = "medium" /\ loadThemeId st = "neon"
   /\ loadMuted st = false /\ loadTutorialSeen st = false
   /\ initMuted st = None)
  /\ (denied st = true \/ full st = true ->
      forall (d id : string) (b : bool),
        persistDifficulty d st = st /\ persistTheme id st = st
        /\ persistMuted b st = st /\ persistTutorialSeen st = st)
  /\ (items st !! STORAGE_KEYS.difficulty = None ->
      loadDifficulty st = "medium")
  /\ (items st !! STORAGE_KEYS.theme = None -> loadThemeId st = "neon")
  /\ (items st !! STORAGE_KEYS.muted = None -> loadMuted st = false).
Proof.
  splits.
  - intros Hd. unfold loadDifficulty, loadThemeId, loadMuted,
      loadTutorialSeen, initMuted, getItem. rewrite Hd. splits; reflexivity.
  - intros Hb d id b. unfold persistDifficulty, persistTheme, persistMuted,
      persistTutorialSeen. rewrite !persist_blocked by assumption.
    splits; reflexivity.
  - intros Hk. unfold loadDifficulty, getItem. rewrite Hk.
    destruct (denied st); reflexivity.
  - intros Hk. unfold loadThemeId, getItem. rewrite Hk.
    destruct (denied st); reflexivity.
  - intros Hk. unfold loadMuted, getItem. rewrite Hk.
    destruct (denied st); reflexivity.
Qed.

(** X26: init reads the mute flag under the key isMuted, while
    persistMuted writes it under stack_muted: persisting the mute flag
    never changes what init reads. *)
Theorem persistMuted_is_not_read_by_init (b : bool) (st : LocalStorage) :
  initMuted (persistMuted b st) = initMuted st.
Proof.
  unfold initMuted, persistMuted.
  rewrite getItem_persist_ne by discriminate. reflexivity.
Qed.

(** ** Themes *)

(** X27: pickThemeById always returns one of the ten themes: the theme
    with the given id when there is one (each theme is found by its own
    id), and the first theme, neon, for any other id. *)
Theorem pickThemeById_picks_a_theme (id : string) :
  pickThemeById id ∈ THEMES
  /\ (forall t : Theme, t ∈ THEMES -> pickThemeById (theme_id t) = t)
  /\ (id ∉ map theme_id THEMES -> pickThemeById id = firstTheme).
Proof.
  splits.
  - unfold pickThemeById.
    destruct (find _ THEMES) as [t |] eqn:Hfind; cbn.
    + apply find_some in Hfind as [Hin _].
      apply list_elem_of_In. exact Hin.
    + unfold THEMES, firstTheme. set_solver.
  - intros t Hin. unfold THEMES in Hin.
    repeat (apply elem_of_cons in Hin as [-> | Hin]; [reflexivity |]).
    apply elem_of_nil in Hin. destruct Hin.
  - intros Hout. unfold pickThemeById.
    destruct (find _ THEMES) as [t |] eqn:Hfind; [| reflexivity].
    apply find_some in Hfind as [Hin Heq]. exfalso. apply Hout.
    apply String.eqb_eq in Heq. subst id.
    apply list_elem_of_fmap. exists t. split; [reflexivity |].
    apply list_elem_of_In. exact Hin.
Qed.

(** X28: For an integer best score, reconcileThemeUnlock keeps the current
    theme and the store when the theme's unlock score is reached;
    otherwise it switches to the first theme, neon (not to the best theme
    unlocked), and persists its id; with a best score of 0 or more the
    resulting theme is always unlocked. *)
Theorem reconcileThemeUnlock_reverts_to_first (bestScore : Z)
    (currentTheme : Theme) (st : LocalStorage) :
  ((theme_unlock currentTheme <= bestScore)%Z ->
   reconcileThemeUnlock bestScore currentTheme st = (currentTheme, st))
  /\ ((bestScore < theme_unlock currentTheme)%Z ->
      reconcileThemeUnlock bestScore currentTheme st
      = (firstTheme, persistTheme "neon" st))
  /\ ((0 <= bestScore)%Z ->
      (theme_unlock (fst (reconcileThemeUnlock bestScore currentTheme st))
       <= bestScore)%Z).
Proof.
  assert (Hfirst : forall b : Z,
            default firstTheme
              (find (fun t => (theme_unlock t <=? b)%Z) THEMES) = firstTheme).
  { intros b. unfold THEMES. cbn [find theme_unlock].
    destruct (0 <=? b)%Z eqn:H0; [reflexivity |].
    apply Z.leb_gt in H0.
    repeat (match goal with
            | |- context [(?n <=? b)%Z] =>
                replace (n <=? b)%Z with false by (symmetry; apply Z.leb_gt; lia)
            end).
    reflexivity. }
  unfold reconcileThemeUnlock. cbv zeta. rewrite Hfirst. splits.
  - intros Hle. apply Z.ltb_ge in Hle. rewrite Hle. reflexivity.
  - intros Hlt. apply Z.ltb_lt in Hlt. rewrite Hlt. reflexivity.
  - intros H0. destruct (Z.ltb_spec bestScore (theme_unlock currentTheme));
      cbn; [exact H0 | assumption].
Qed.

(** ** Interstitial ads *)

Lemma shouldShowInterstitial_spec (a : AdMobService) :
  (0 <= adCounter a < 3)%Z ->
  fst (shouldShowInterstitial a) = (adCounter a =? 2)%Z
  /\ adCounter (snd (shouldShowInterstitial a)) = ((adCounter a + 1) mod 3)%Z
  /\ admob (snd (shouldShowInterstitial a)) = admob a.
Proof.
  intros Hc. unfold shouldShowInterstitial. cbv zeta.
  assert (Hcases : (adCounter a = 0 \/ adCounter a = 1 \/ adCounter a = 2)%Z)
    by lia.
  destruct Hcases as [-> | [-> | ->]]; cbn; splits; reflexivity.
Qed.

Lemma interstitialAnswers_spec (n : nat) :
  forall a : AdMobService,
    (0 <= adCounter a < 3)%Z ->
    fst (interstitialAnswers n a)
    = map (fun k : nat => ((adCounter a + Z.of_nat k) mod 3 =? 2)%Z) (seq 0 n)
    /\ adCounter (snd (interstitialAnswers n a))
       = ((adCounter a + Z.of_nat n) mod 3)%Z.
Proof.
  induction n as [| n IH]; intros a Hc.
  - cbn. rewrite Z.add_0_r, Z.mod_small by lia. split; reflexivity.
  - cbn [interstitialAnswers].
    destruct (shouldShowInterstitial_spec a Hc) as (Hr & Hcnt & _).
    destruct (shouldShowInterstitial a) as [r a1]. cbn [fst snd] in *.
    assert (Hc1 : (0 <= adCounter a1 < 3)%Z)
      by (rewrite Hcnt; apply Z.mod_pos_bound; lia).
    destruct (IH a1 Hc1) as [Hrs Hfin].
    destruct (interstitialAnswers n a1) as [rs a2]. cbn [fst snd] in *.
    split.
    + cbn [seq map]. f_equal.
      * rewrite Hr, Z.add_0_r, Z.mod_small by lia. reflexivity.
      * rewrite Hrs, <- seq_shift, map_map. apply map_ext. intros k.
        rewrite Hcnt, Zplus_mod_idemp_l. f_equal. f_equal. lia.
    + rewrite Hfin, Hcnt, Zplus_mod_idemp_l. f_equal. lia.
Qed.

(** X29: Starting from a new AdMobService, in any run of calls of
    shouldShowInterstitial the call number k + 1 answers true exactly when
    k + 1 is a multiple of 3, and after n calls the counter is n mod 3. *)
Theorem interstitial_every_third_call (available : bool) (n k : nat) :
  (k < n)%nat ->
  fst (interstitialAnswers n (newAdMobService available)) !! k
  = Some (bool_decide ((Z.of_nat (S k) mod 3)%Z = 0%Z))
  /\ adCounter (snd (interstitialAnswers n (newAdMobService available)))
     = (Z.of_nat n mod 3)%Z.
Proof.
  intros Hk.
  destruct (interstitialAnswers_spec n (newAdMobService available)
              ltac:(cbn; lia)) as [Hrs Hfin].
  rewrite Hrs, Hfin. cbn [adCounter newAdMobService]. split; [| reflexivity].
  rewrite list_lookup_fmap, lookup_seq_lt by exact Hk. cbn. f_equal.
  rewrite Z.add_0_l.
  assert (Hm : (Z.of_nat (S k) mod 3 = (Z.of_nat k mod 3 + 1) mod 3)%Z).
  { rewrite Nat2Z.inj_succ. unfold Z.succ.
    rewrite <- Zplus_mod_idemp_l. reflexivity. }
  pose proof (Z.mod_pos_bound (Z.of_nat k) 3 ltac:(lia)) as Hb.
  rewrite Hm.
  assert (Hcases : (Z.of_nat k mod 3 = 0 \/ Z.of_nat k mod 3 = 1
                    \/ Z.of_nat k mod 3 = 2)%Z) by lia.
  destruct Hcases as [-> | [-> | ->]]; reflexivity.
Qed.

Lemma interstitial_every_third_call_witness :
  fst (interstitialAnswers 7 (newAdMobService true))
  = [false; false; true; false; false; true; false]
  /\ fst (interstitialAnswers 7 (newAdMobService true)) !! 5%nat = Some true.
Proof.
  split; [reflexivity |].
  exact (proj1 (interstitial_every_third_call true 7 5 ltac:(lia))).
Defined.

(** ** The best scores in localStorage *)

Lemma digitPrefix_string_of_uint (u : Decimal.uint) :
  digitPrefix (NilEmpty.string_of_uint u) = NilEmpty.string_of_uint u.
Proof.
  induction u; cbn [NilEmpty.string_of_uint digitPrefix isDigit];
    [reflexivity | rewrite IHu; reflexivity ..].
Qed.

Lemma parseInt_digits (u : Decimal.uint) :
  u <> Decimal.Nil ->
  parseInt (NilEmpty.string_of_uint u) = Some (Z.of_uint u)
  /\ parseInt (String "-" (NilEmpty.string_of_uint u)) = Some (- Z.of_uint u)%Z.
Proof.
  intros Hu.
  assert (Hp : forall neg : bool,
            match digitPrefix (NilEmpty.string_of_uint u) with
            | EmptyString => None
            | ds =>
                match NilEmpty.uint_of_string ds with
                | Some u' =>
                    Some (if neg then - Z.of_uint u' else Z.of_uint u')%Z
                | None => None
                end
            end
            = Some (if neg then - Z.of_uint u else Z.of_uint u)%Z).
  { intros neg. rewrite digitPrefix_string_of_uint.
    pose proof (NilEmpty.usu u) as Husu.
    destruct (NilEmpty.string_of_uint u) eqn:Hs.
    - destruct u; try discriminate Hs. contradiction.
    - rewrite Husu. reflexivity. }
  split.
  - unfold parseInt. cbv zeta.
    destruct u; try contradiction;
      cbn [NilEmpty.string_of_uint skipWhiteSpace isWhiteSpace];
      exact (Hp false).
  - unfold parseInt. cbn [skipWhiteSpace isWhiteSpace]. exact (Hp true).
Qed.

Lemma parseInt_numberToString (n : Z) : parseInt (numberToString n) = Some n.
Proof.
  unfold numberToString. destruct n as [| p | p]; cbn [Z.to_int].
  - reflexivity.
  - pose proof (DecimalPos.Unsigned.to_uint_nonnil p) as Hnn.
    pose proof (DecimalZ.of_to (Z.pos p)) as Hof. cbn in Hof.
    unfold NilZero.string_of_int, NilZero.string_of_uint.
    destruct (Pos.to_uint p) eqn:Hu; try contradiction;
      rewrite <- Hu in *; rewrite (proj1 (parseInt_digits _ Hnn)), Hof;
      reflexivity.
  - pose proof (DecimalPos.Unsigned.to_uint_nonnil p) as Hnn.
    pose proof (DecimalZ.of_to (Z.neg p)) as Hof. cbn in Hof.
    unfold NilZero.string_of_int, NilZero.string_of_uint.
    destruct (Pos.to_uint p) eqn:Hu; try contradiction;
      rewrite <- Hu in *; rewrite (proj2 (parseInt_digits _ Hnn)), Hof;
      reflexivity.
Qed.

Lemma numberToString_truthy (n : Z) : truthy (numberToString n) = true.
Proof.
  pose proof (parseInt_numberToString n) as H.
  unfold truthy.
  destruct (String.eqb_spec (numberToString n) EmptyString) as [He |];
    [| reflexivity].
  rewrite He in H. discriminate H.
Qed.

(** X30: When localStorage accepts reads and writes, loadBestScores
    returns the two integers persistBestScores stored (for integers of
    absolute value below 2^53, which String prints digit by digit), and
    persisting the scores does not change the stored difficulty or theme. *)
Theorem best_scores_round_trip (bestScore bestStreak : Z)
    (st : LocalStorage) :
  (Z.abs bestScore < 2 ^ 53)%Z -> (Z.abs bestStreak < 2 ^ 53)%Z ->
  denied st = false -> full st = false ->
  loadBestScores (persistBestScores bestScore bestStreak st)
  = (Some bestScore, Some bestStreak)
  /\ loadDifficulty (persistBestScores bestScore bestStreak st)
     = loadDifficulty st
  /\ loadThemeId (persistBestScores bestScore bestStreak st) = loadThemeId st.
Proof.
  intros _ _ Hd Hf. unfold persistBestScores, setItem. rewrite Hd, Hf.
  cbn [orb denied full]. rewrite ?Hd, ?Hf. cbn [orb].
  unfold loadBestScores, loadDifficulty, loadThemeId, getItem.
  cbn [denied items]. rewrite ?Hd.
  rewrite lookup_insert_ne by discriminate.
  rewrite !lookup_insert_eq.
  rewrite !(lookup_insert_ne _ STORAGE_KEYS.bestStreak) by discriminate.
  rewrite !(lookup_insert_ne _ STORAGE_KEYS.best) by discriminate.
  unfold orZero. rewrite !numberToString_truthy, !parseInt_numberToString.
  splits; reflexivity.
Qed.

Lemma best_scores_round_trip_witness :
  loadBestScores (persistBestScores 42 7 (mkLocalStorage ∅ false false))
  = (Some 42%Z, Some 7%Z).
Proof.
  exact (proj1 (best_scores_round_trip 42 7 (mkLocalStorage ∅ false false)
                  ltac:(reflexivity) ltac:(reflexivity) eq_refl eq_refl)).
Defined.
